(** * DSP-convolution: time-domain convolution reverb on 16-bit mono WAV files

    A shallow embedding of [convolve.c] and the properties of its chunk
    locator, sample codec, convolution engine, renormalizer and header
    writer.

    Conventions of the embedding.
    - C [int] and [short] values are integers in [Z]; where the program
      stores a computed value into a field the two's-complement wrap-around
      is written out ([wrap32], [wrap16]).
    - C [float] is IEEE-754 binary32 and C [double] is binary64, both taken
      from the standard library's [SpecFloat] (round to nearest, ties to
      even), with every promotion and every narrowing conversion of the
      source written out.  Expressions are evaluated in the type the C
      source gives them (FLT_EVAL_METHOD = 0).
    - An array is a list; every access goes through [aget] / [aset], which
      fail ([None]) outside the array.  In the arithmetic and array code
      [None] stands for an execution the C standard leaves undefined.
    - The [while] loop whose termination depends on the input takes fuel;
      there [None] says that the fuel did not suffice, and a run that is
      [None] for every fuel is a run that never ends. *)

From Stdlib Require Import ZArith List Lia Bool.
From Stdlib Require Import Strings.Byte Strings.String.
From Stdlib Require Import Floats.SpecFloat.
From stdpp Require Import base tactics option list.

Open Scope Z_scope.

(* ====================================================================== *)
(** ** Machine integers *)

Module CInt.

Definition wrap (bits : Z) (z : Z) : Z :=
  (z + 2 ^ (bits - 1)) mod 2 ^ bits - 2 ^ (bits - 1).

Definition wrap32 : Z -> Z := wrap 32.
Definition wrap16 : Z -> Z := wrap 16.

Definition INT_MIN : Z := - 2 ^ 31.
Definition INT_MAX : Z := 2 ^ 31 - 1.
Definition SHRT_MIN : Z := -32768.
Definition SHRT_MAX : Z := 32767.

Definition is_int (z : Z) : Prop := INT_MIN <= z <= INT_MAX.
Definition is_short (z : Z) : Prop := SHRT_MIN <= z <= SHRT_MAX.

(** [a / b] on [int]: truncation toward zero; undefined for [b = 0] and for
    [INT_MIN / -1]. *)
Definition int_div (a b : Z) : option Z :=
  if decide (b = 0) then None
  else if decide (a = INT_MIN /\ b = -1) then None
  else Some (Z.quot a b).

End CInt.

(* ====================================================================== *)
(** ** Floating point: binary32 and binary64 *)

Module Fp.

Definition float : Type := spec_float.
Definition double : Type := spec_float.

Definition f32_add : float -> float -> float := SFadd 24 128.
Definition f32_mul : float -> float -> float := SFmul 24 128.
Definition f32_div : float -> float -> float := SFdiv 24 128.

Definition f64_add : double -> double -> double := SFadd 53 1024.
Definition f64_sub : double -> double -> double := SFsub 53 1024.
Definition f64_mul : double -> double -> double := SFmul 53 1024.
Definition f64_div : double -> double -> double := SFdiv 53 1024.

(** [a > b] and [a < b] of C are false as soon as one side is a NaN. *)
Definition fgt (a b : spec_float) : bool := SFltb b a.
Definition flt (a b : spec_float) : bool := SFltb a b.
Definition fge (a b : spec_float) : bool := SFleb b a.

(** Promotion [float -> double] (exact) and narrowing [double -> float]
    (one rounding). *)
Definition double_of_float (x : float) : double :=
  match x with
  | S754_finite s m e => binary_round 53 1024 s m e
  | _ => x
  end.

Definition float_of_double (x : double) : float :=
  match x with
  | S754_finite s m e => binary_round 24 128 s m e
  | _ => x
  end.

(** Conversion of an integer to [double] (exact for every [int]). *)
Definition double_of_int (z : Z) : double := binary_normalize 53 1024 z 0 false.

(** The integral part of a finite value, toward zero. *)
Definition trunc (x : spec_float) : option Z :=
  match x with
  | S754_zero _ => Some 0
  | S754_finite s m e =>
      let a := if decide (0 <= e) then Z.pos m * 2 ^ e else Z.pos m / 2 ^ (- e) in
      Some (if s then - a else a)
  | _ => None
  end.

(** [(short) d]: the integral part when [short] can hold it, undefined
    otherwise (C11 6.3.1.4). *)
Definition short_of_double (x : double) : option Z :=
  z ← trunc x;
  if decide (CInt.SHRT_MIN <= z <= CInt.SHRT_MAX) then Some z else None.

(** [fabs] from <math.h>. *)
Definition fabs (x : double) : double := SFabs x.

(** The decimal literals of the source, each the double nearest to it. *)
Definition d_0_0 : double := S754_zero false.
Definition d_1_0 : double := double_of_int 1.
Definition d_32768_0 : double := double_of_int 32768.
Definition d_9999999_0 : double := double_of_int 9999999.
Definition d_0_000001 : double := f64_div (double_of_int 1) (double_of_int 1000000).
Definition d_0_999999 : double := f64_div (double_of_int 999999) (double_of_int 1000000).

Definition f_0_0 : float := float_of_double d_0_0.

End Fp.

(* ====================================================================== *)
(** ** Arrays and counted loops *)

Module Mem.

(** [a[i]] as an rvalue. *)
Definition aget {A} (a : list A) (i : Z) : option A :=
  if decide (0 <= i) then a !! Z.to_nat i else None.

(** [a[i] = v]. *)
Definition aset {A} (a : list A) (i : Z) (v : A) : option (list A) :=
  if decide (0 <= i < Z.of_nat (length a)) then Some (<[Z.to_nat i := v]> a) else None.

(** [k] iterations of [body], the counter starting at [i]. *)
Fixpoint for_steps {S} (k : nat) (i : Z) (body : Z -> S -> option S) (s : S) : option S :=
  match k with
  | O => Some s
  | Datatypes.S k' => s' ← body i s; for_steps k' (i + 1) body s'
  end.

(** [for (int i = 0; i < n; i++) body]. *)
Definition for_loop {S} (n : Z) (body : Z -> S -> option S) (s : S) : option S :=
  for_steps (Z.to_nat n) 0 body s.

End Mem.

Import CInt Fp Mem.

(* ====================================================================== *)
(** ** SampleCodec *)

(** The right-hand side of [floatSamples[i] = (samples[i] * 1.0) / 32768.0]:
    the product and the quotient are doubles, the store narrows. *)
Definition float_of_sample (s : Z) : float :=
  float_of_double (f64_div (f64_mul (double_of_int s) d_1_0) d_32768_0).

(** The right-hand side of [samples[i] = (short)(floatSamples[i] * 32768.0)]. *)
Definition sample_of_float (f : float) : option Z :=
  short_of_double (f64_mul (double_of_float f) d_32768_0).

Definition createFloatSamplesFromIntegerSamples
  (samples : list Z) (numSamples : Z) (floatSamples : list float) : option (list float) :=
  for_loop numSamples
    (fun i fs => s ← aget samples i; aset fs i (float_of_sample s))
    floatSamples.

Definition createShortIntegerSamplesFromFloatSamples
  (floatSamples : list float) (numSamples : Z) (samples : list Z) : option (list Z) :=
  for_loop numSamples
    (fun i ss => f ← aget floatSamples i; s ← sample_of_float f; aset ss i s)
    samples.

(* ====================================================================== *)
(** ** Renormalizer *)

(** [printMeanSampleInFloatArray]: reads every sample; the mean goes to the
    console only. *)
Definition printMeanSampleInFloatArray (samples : list float) (size : Z) : option unit :=
  _ ← for_loop size
        (fun i sum => v ← aget samples i; Some (f64_add sum (double_of_float v)))
        d_0_0;
  Some ().

(** The running values of the scan in [largestSampleIn]. *)
Record scan := { highest : float; lowest : float; numSamplesOutsideRange : Z }.

Definition scan_init : scan :=
  {| highest := float_of_double (SFopp d_9999999_0);
     lowest := float_of_double d_9999999_0;
     numSamplesOutsideRange := 0 |}.

(** One iteration of the scan on the sample [v = y[p]]. *)
Definition scan_step (v : float) (s : scan) : scan :=
  let s1 :=
    if fgt v (highest s) then
      {| highest := v; lowest := lowest s;
         numSamplesOutsideRange := numSamplesOutsideRange s |}
    else if flt v (lowest s) then
      {| highest := highest s; lowest := v;
         numSamplesOutsideRange := numSamplesOutsideRange s |}
    else s in
  if fgt (double_of_float v) d_1_0 || flt (double_of_float v) (SFopp d_1_0) then
    {| highest := highest s1; lowest := lowest s1;
       numSamplesOutsideRange := wrap32 (numSamplesOutsideRange s1 + 1) |}
  else s1.

(** [return highest > fabs(lowest) ? highest+0.000001 : fabs(lowest);] the
    conditional is a double, the return narrows it. *)
Definition scan_result (s : scan) : float :=
  float_of_double
    (if fgt (double_of_float (highest s)) (fabs (double_of_float (lowest s)))
     then f64_add (double_of_float (highest s)) d_0_000001
     else fabs (double_of_float (lowest s))).

Definition largestSampleIn (y : list float) (P : Z) : option float :=
  s ← for_loop P (fun p s => v ← aget y p; Some (scan_step v s)) scan_init;
  _ ← printMeanSampleInFloatArray y P;
  Some (scan_result s).

(** The body of the loop of [scaleValuesToRangeOfPlusMinus1] on one sample. *)
Definition scale_sample (largest v : float) : float :=
  let q := f32_div v largest in
  if fgt (double_of_float q) d_0_999999
  then float_of_double (f64_sub (double_of_float q) d_0_000001)
  else q.

Definition scaleValuesToRangeOfPlusMinus1 (y : list float) (P : Z) : option (list float) :=
  largest ← largestSampleIn y P;
  y' ← for_loop P (fun p y => v ← aget y p; aset y p (scale_sample largest v)) y;
  _ ← largestSampleIn y' P;
  Some y'.

(* ====================================================================== *)
(** ** ConvolutionEngine *)

Section ConvolveLoops.
Context {A : Type} (zero : A) (add mul : A -> A -> A).

(** [for (p = 0; p < P; p++) y[p] = 0.0;] *)
Definition clear_output_buffer (y : list A) (P : Z) : option (list A) :=
  for_loop P (fun p y => aset y p zero) y.

(** [y[n+m] += x[n] * h[m];] *)
Definition accumulate_step (x h : list A) (n m : Z) (y : list A) : option (list A) :=
  xn ← aget x n;
  hm ← aget h m;
  yv ← aget y (n + m);
  aset y (n + m) (add yv (mul xn hm)).

(** The two nested loops of the input-side algorithm. *)
Definition accumulate (x : list A) (N : Z) (h : list A) (M : Z) (y : list A) : option (list A) :=
  for_loop N (fun n y => for_loop M (fun m y => accumulate_step x h n m y) y) y.

Definition convolve_loops (x : list A) (N : Z) (h : list A) (M : Z) (y : list A) (P : Z)
  : option (list A) :=
  y0 ← clear_output_buffer y P;
  accumulate x N h M y0.

End ConvolveLoops.

(** The convolution before the call of the renormalizer, on floats. *)
Definition convolve_raw (x : list float) (N : Z) (h : list float) (M : Z) (y : list float) (P : Z)
  : option (list float) :=
  convolve_loops f_0_0 f32_add f32_mul x N h M y P.

(** [convolve]: the progress report prints to the console and touches
    neither array. *)
Definition convolve (x : list float) (N : Z) (h : list float) (M : Z) (y : list float) (P : Z)
  : option (list float) :=
  y1 ← convolve_raw x N h M y P;
  scaleValuesToRangeOfPlusMinus1 y1 P.

(* ====================================================================== *)
(** ** Byte streams and the container header *)

#[global] Instance byte_eq_decision : EqDecision byte := Byte.byte_eq_dec.

Definition Z_of_byte (b : byte) : Z := Z.of_N (Byte.to_N b).
Definition byte_of_Z (z : Z) : byte := default x00 (Byte.of_N (Z.to_N (z mod 256))).

(** Little-endian two's-complement images of integers. *)
Fixpoint le_encode (n : nat) (z : Z) : list byte :=
  match n with
  | O => []
  | S k => byte_of_Z z :: le_encode k (z / 256)
  end.

Definition le_unsigned (bs : list byte) : Z :=
  foldr (fun b acc => Z_of_byte b + 256 * acc) 0 bs.

Definition le_int (bs : list byte) : Z := wrap32 (le_unsigned bs).
Definition le_short (bs : list byte) : Z := wrap16 (le_unsigned bs).

(** What a destination object holds after the bytes [src] were read into
    its beginning. *)
Definition overlay (dst src : list byte) : list byte := src ++ drop (length src) dst.

Definition slice (off len : nat) (bs : list byte) : list byte := take len (drop off bs).

(** [char id[4]]. *)
Record char4 := Char4 { c0 : byte; c1 : byte; c2 : byte; c3 : byte }.

Definition char4_get (t : char4) (i : nat) : byte :=
  match i with
  | 0%nat => c0 t
  | 1%nat => c1 t
  | 2%nat => c2 t
  | _ => c3 t
  end.

Definition char4_set (t : char4) (i : nat) (b : byte) : char4 :=
  match i with
  | 0%nat => Char4 b (c1 t) (c2 t) (c3 t)
  | 1%nat => Char4 (c0 t) b (c2 t) (c3 t)
  | 2%nat => Char4 (c0 t) (c1 t) b (c3 t)
  | _ => Char4 (c0 t) (c1 t) (c2 t) b
  end.

Definition char4_bytes (t : char4) : list byte := [c0 t; c1 t; c2 t; c3 t].

Definition char4_of_bytes (bs : list byte) : char4 :=
  Char4 (nth 0 bs x00) (nth 1 bs x00) (nth 2 bs x00) (nth 3 bs x00).

(** [typedef struct { ... } WavHeader;] 44 bytes, no padding. *)
Record WavHeader := {
  chunk_id : char4;
  chunk_size : Z;
  format : char4;
  subchunk1_id : char4;
  subchunk1_size : Z;
  audio_format : Z;
  num_channels : Z;
  sample_rate : Z;
  byte_rate : Z;
  block_align : Z;
  bits_per_sample : Z;
  subchunk2_id : char4;
  subchunk2_size : Z
}.

Definition set_chunk_size (v : Z) (h : WavHeader) : WavHeader :=
  {| chunk_id := chunk_id h; chunk_size := v; format := format h;
     subchunk1_id := subchunk1_id h; subchunk1_size := subchunk1_size h;
     audio_format := audio_format h; num_channels := num_channels h;
     sample_rate := sample_rate h; byte_rate := byte_rate h;
     block_align := block_align h; bits_per_sample := bits_per_sample h;
     subchunk2_id := subchunk2_id h; subchunk2_size := subchunk2_size h |}.

Definition set_subchunk1_size (v : Z) (h : WavHeader) : WavHeader :=
  {| chunk_id := chunk_id h; chunk_size := chunk_size h; format := format h;
     subchunk1_id := subchunk1_id h; subchunk1_size := v;
     audio_format := audio_format h; num_channels := num_channels h;
     sample_rate := sample_rate h; byte_rate := byte_rate h;
     block_align := block_align h; bits_per_sample := bits_per_sample h;
     subchunk2_id := subchunk2_id h; subchunk2_size := subchunk2_size h |}.

Definition set_subchunk2_id (v : char4) (h : WavHeader) : WavHeader :=
  {| chunk_id := chunk_id h; chunk_size := chunk_size h; format := format h;
     subchunk1_id := subchunk1_id h; subchunk1_size := subchunk1_size h;
     audio_format := audio_format h; num_channels := num_channels h;
     sample_rate := sample_rate h; byte_rate := byte_rate h;
     block_align := block_align h; bits_per_sample := bits_per_sample h;
     subchunk2_id := v; subchunk2_size := subchunk2_size h |}.

Definition set_subchunk2_size (v : Z) (h : WavHeader) : WavHeader :=
  {| chunk_id := chunk_id h; chunk_size := chunk_size h; format := format h;
     subchunk1_id := subchunk1_id h; subchunk1_size := subchunk1_size h;
     audio_format := audio_format h; num_channels := num_channels h;
     sample_rate := sample_rate h; byte_rate := byte_rate h;
     block_align := block_align h; bits_per_sample := bits_per_sample h;
     subchunk2_id := subchunk2_id h; subchunk2_size := v |}.

(** The object representation of a header (little-endian machine). *)
Definition header_image (h : WavHeader) : list byte :=
  char4_bytes (chunk_id h) ++ le_encode 4 (chunk_size h) ++
  char4_bytes (format h) ++ char4_bytes (subchunk1_id h) ++
  le_encode 4 (subchunk1_size h) ++ le_encode 2 (audio_format h) ++
  le_encode 2 (num_channels h) ++ le_encode 4 (sample_rate h) ++
  le_encode 4 (byte_rate h) ++ le_encode 2 (block_align h) ++
  le_encode 2 (bits_per_sample h) ++ char4_bytes (subchunk2_id h) ++
  le_encode 4 (subchunk2_size h).

Definition header_of_image (bs : list byte) : WavHeader :=
  {| chunk_id := char4_of_bytes (slice 0 4 bs);
     chunk_size := le_int (slice 4 4 bs);
     format := char4_of_bytes (slice 8 4 bs);
     subchunk1_id := char4_of_bytes (slice 12 4 bs);
     subchunk1_size := le_int (slice 16 4 bs);
     audio_format := le_short (slice 20 2 bs);
     num_channels := le_short (slice 22 2 bs);
     sample_rate := le_int (slice 24 4 bs);
     byte_rate := le_int (slice 28 4 bs);
     block_align := le_short (slice 32 2 bs);
     bits_per_sample := le_short (slice 34 2 bs);
     subchunk2_id := char4_of_bytes (slice 36 4 bs);
     subchunk2_size := le_int (slice 40 4 bs) |}.

Definition sizeof_WavHeader : Z := 44.
Definition sizeof_short : Z := 2.

(** An input stream: its bytes and the file position. *)
Record FILE := { contents : list byte; pos : nat }.

Definition remaining (f : FILE) : list byte := drop (pos f) (contents f).

(** The bytes one [fread] of at most [n] bytes delivers, and the stream
    after it. *)
Definition fread_bytes (n : nat) (f : FILE) : list byte * FILE :=
  let bs := take n (remaining f) in
  (bs, {| contents := contents f; pos := pos f + length bs |}).

(** [fseek(f, off, SEEK_SET)] and [fseek(f, off, SEEK_CUR)]: a negative
    target fails and leaves the position where it was. *)
Definition fseek_set (f : FILE) (off : Z) : FILE :=
  if decide (0 <= off) then {| contents := contents f; pos := Z.to_nat off |} else f.

Definition fseek_cur (f : FILE) (off : Z) : FILE :=
  fseek_set f (Z.of_nat (pos f) + off).

(* ====================================================================== *)
(** ** ChunkLocator *)

(** The literal ["data"]. *)
Definition data_tag : char4 := Char4 "d" "a" "t" "a".

(** The condition the [while] negates:
    [id[0] == 'd' && id[1] == 'a' && id[2] == 't' && id[3] == 'a']. *)
Definition is_data (id : char4) : bool :=
  bool_decide (char4_get id 0 = "d"%byte) && bool_decide (char4_get id 1 = "a"%byte) &&
  bool_decide (char4_get id 2 = "t"%byte) && bool_decide (char4_get id 3 = "a"%byte).

(** [fread(&id[i], 1, 1, f)]: at end of stream nothing is stored. *)
Definition fread_char (id : char4) (i : nat) (f : FILE) : char4 * FILE :=
  match contents f !! pos f with
  | Some b => (char4_set id i b, {| contents := contents f; pos := pos f + 1 |})
  | None => (id, f)
  end.

(** The inner [for (i = 0; i < 4; i++) { fread ...; if (id[i] != "data"[i]) break; }]
    from counter [i] with [k] iterations left. *)
Fixpoint tag_attempt_from (k i : nat) (id : char4) (f : FILE) : char4 * FILE :=
  match k with
  | O => (id, f)
  | S k' =>
      let '(id', f') := fread_char id i f in
      if decide (char4_get id' i <> char4_get data_tag i) then (id', f')
      else tag_attempt_from k' (i + 1) id' f'
  end.

Definition tag_attempt (id : char4) (f : FILE) : char4 * FILE :=
  tag_attempt_from 4 0 id f.

(** The [while] loop of [ensureSubchunk2_idIsSetProperly] on one stream. *)
Fixpoint scan_for_data (fuel : nat) (id : char4) (f : FILE) : option (char4 * FILE) :=
  if is_data id then Some (id, f)
  else
    match fuel with
    | O => None
    | S fuel' => let '(id', f') := tag_attempt id f in scan_for_data fuel' id' f'
    end.

(** One input of the program: its stream and its header object. *)
Record Input := { stream : FILE; header : WavHeader }.

(** [fread(&header, sizeof(header), 1, f); fseek(f, sizeof(WavHeader)-8, SEEK_SET);] *)
Definition read_header_block (i : Input) : Input :=
  let '(bs, f) := fread_bytes (Z.to_nat sizeof_WavHeader) (stream i) in
  {| stream := fseek_set f (sizeof_WavHeader - 8);
     header := header_of_image (overlay (header_image (header i)) bs) |}.

Definition skip_junk (i : Input) : Input :=
  if decide (subchunk1_size (header i) <> 16) then
    let junkBytes := wrap32 (subchunk1_size (header i) - 16) in
    {| stream := fseek_cur (stream i) junkBytes; header := header i |}
  else i.

(** [fread(&header.subchunk2_id, 4, 1, f);] *)
Definition read_subchunk2_id (i : Input) : Input :=
  let '(bs, f) := fread_bytes 4 (stream i) in
  {| stream := f;
     header := set_subchunk2_id
                 (char4_of_bytes (overlay (char4_bytes (subchunk2_id (header i))) bs))
                 (header i) |}.

Definition ensure_data (fuel : nat) (i : Input) : option Input :=
  '(id, f) ← scan_for_data fuel (subchunk2_id (header i)) (stream i);
  Some {| stream := f; header := set_subchunk2_id id (header i) |}.

(** [fread(&header.subchunk2_size, sizeof(header.subchunk2_size), 1, f);] *)
Definition read_subchunk2_size (i : Input) : Input :=
  let '(bs, f) := fread_bytes 4 (stream i) in
  {| stream := f;
     header := set_subchunk2_size
                 (le_int (overlay (le_encode 4 (subchunk2_size (header i))) bs)) (header i) |}.

(** [locateDataChunk] of the specification: everything
    [readInputFileHeaders] does to one input. *)
Definition locateDataChunk (fuel : nat) (i : Input) : option Input :=
  i' ← ensure_data fuel (read_subchunk2_id (skip_junk (read_header_block i)));
  Some (read_subchunk2_size i').

(** [FileData]: the two inputs and the bytes written to the output. *)
Record FileData := {
  sample : Input;
  impulse : Input;
  header_output : WavHeader;
  output_file : list byte
}.

(** The members of the source's [FileData]. *)
Definition sample_file (f : FileData) : FILE := stream (sample f).
Definition impulse_file (f : FileData) : FILE := stream (impulse f).
Definition header_sample (f : FileData) : WavHeader := header (sample f).
Definition header_impulse (f : FileData) : WavHeader := header (impulse f).

Definition on_inputs (g : Input -> Input) (f : FileData) : FileData :=
  {| sample := g (sample f); impulse := g (impulse f);
     header_output := header_output f; output_file := output_file f |}.

Definition skipPastNullBytesInInputFileHeadersIfPresent : FileData -> FileData :=
  on_inputs skip_junk.

(** The first loop runs to its end before the second begins. *)
Definition ensureSubchunk2_idIsSetProperly (fuel : nat) (f : FileData) : option FileData :=
  s ← ensure_data fuel (sample f);
  i ← ensure_data fuel (impulse f);
  Some {| sample := s; impulse := i;
          header_output := header_output f; output_file := output_file f |}.

Definition readInputFileHeaders (fuel : nat) (f : FileData) : option FileData :=
  let f1 := on_inputs read_header_block f in
  let f2 := skipPastNullBytesInInputFileHeadersIfPresent f1 in
  let f3 := on_inputs read_subchunk2_id f2 in
  f4 ← ensureSubchunk2_idIsSetProperly fuel f3;
  Some (on_inputs read_subchunk2_size f4).

(* ====================================================================== *)
(** ** ContainerWriter and the pipeline *)

Fixpoint shorts_of_bytes (bs : list byte) : list Z :=
  match bs with
  | b0 :: b1 :: rest => le_short [b0; b1] :: shorts_of_bytes rest
  | _ => []
  end.

Definition bytes_of_shorts (ss : list Z) : list byte :=
  concat (map (le_encode 2) ss).

(** [fread(samples, 2, N, f)]: the complete items the stream still holds,
    at most [(size_t) N] of them, are stored from [samples[0]] on. *)
Definition fread_shorts (samples : list Z) (N : Z) (f : FILE) : option (list Z * FILE) :=
  let want := if decide (0 <= N) then (2 * Z.to_nat N)%nat else length (remaining f) in
  let '(bs, f') := fread_bytes want f in
  let items := shorts_of_bytes bs in
  if decide (length items <= length samples)%nat
  then Some (items ++ drop (length items) samples, f')
  else None.

(** [fwrite(y, sizeof(short), P, out)]. *)
Definition fwrite_shorts (y : list Z) (P : Z) (out : list byte) : option (list byte) :=
  if decide (0 <= P) then
    for_loop P (fun p out => s ← aget y p; Some (out ++ le_encode 2 s)) out
  else None.

Definition writeOutputFile (f : FileData) (y : list Z) (P : Z) : option FileData :=
  let h0 := header_sample f in
  let h1 := set_subchunk1_size 16 h0 in
  let h2 := set_subchunk2_size (wrap32 (P * 2)) h1 in
  let h3 := set_chunk_size (wrap32 (36 + subchunk2_size h2)) h2 in
  out ← fwrite_shorts y P (output_file f ++ header_image h3);
  Some {| sample := sample f; impulse := impulse f;
          header_output := h3; output_file := out |}.

Definition reportMaxMinIntegerSamples (samples : list Z) (n : Z) : option unit :=
  _ ← for_loop n
        (fun i '(hi, lo) =>
           thisSample ← aget samples i;
           Some (if decide (thisSample > hi) then (thisSample, lo)
                 else if decide (thisSample < lo) then (hi, thisSample)
                 else (hi, lo)))
        (0, 0);
  Some ().

(** The two values [reportMaxMinIntegerSamples] prints as the highest and
    the lowest sample: the state of its loop when it ends. *)
Definition reportedMaxMin (samples : list Z) (n : Z) : option (Z * Z) :=
  for_loop n
    (fun i '(hi, lo) =>
       thisSample ← aget samples i;
       Some (if decide (thisSample > hi) then (thisSample, lo)
             else if decide (thisSample < lo) then (hi, thisSample)
             else (hi, lo)))
    (0, 0).

Definition printMeanSampleInShortArray (samples : list Z) (size : Z) : option unit :=
  _ ← for_loop size (fun i sum => s ← aget samples i; Some (sum + s)) 0;
  Some ().

Section Pipeline.
(** What freshly allocated memory holds is not determined by the program. *)
Variables (junk_short : Z) (junk_float : float).

(** [malloc(bytes)] seen as an array of elements of [elem_size] bytes; a
    request that cannot be served yields no element. *)
Definition malloc {A} (junk : A) (elem_size bytes : Z) : list A :=
  replicate (Z.to_nat (bytes / elem_size)) junk.

Definition getDataSamplesFromInputFiles (samples : list Z) (N : Z) (impulses : list Z) (M : Z)
  (f : FileData) : option (list Z * list Z * FileData) :=
  '(samples', sf) ← fread_shorts samples N (sample_file f);
  '(impulses', imf) ← fread_shorts impulses M (impulse_file f);
  Some (samples', impulses',
        {| sample := {| stream := sf; header := header (sample f) |};
           impulse := {| stream := imf; header := header (impulse f) |};
           header_output := header_output f; output_file := output_file f |}).

Definition createOutputFile (fuel : nat) (f : FileData) : option FileData :=
  f ← readInputFileHeaders fuel f;
  let hs := header_sample f in
  let hi := header_impulse f in
  N ← int_div (subchunk2_size hs) (Z.quot (bits_per_sample hs) 8);
  M ← int_div (subchunk2_size hi) (Z.quot (bits_per_sample hi) 8);
  let x := malloc junk_short 2 (subchunk2_size hs) in
  let h := malloc junk_short 2 (subchunk2_size hi) in
  '(x, h, f) ← getDataSamplesFromInputFiles x N h M f;
  _ ← reportMaxMinIntegerSamples x N;
  _ ← reportMaxMinIntegerSamples h M;
  let x_float_form := malloc junk_float 4 (wrap32 (2 * subchunk2_size hs)) in
  let h_float_form := malloc junk_float 4 (wrap32 (2 * subchunk2_size hi)) in
  x_float_form ← createFloatSamplesFromIntegerSamples x N x_float_form;
  h_float_form ← createFloatSamplesFromIntegerSamples h M h_float_form;
  let P := wrap32 (N + M - 1) in
  let y_float_form := malloc junk_float 4 (P * 4) in
  y_float_form ← convolve x_float_form N h_float_form M y_float_form P;
  let y := malloc junk_short 2 (P * 2) in
  y ← createShortIntegerSamplesFromFloatSamples y_float_form P y;
  _ ← reportMaxMinIntegerSamples y P;
  _ ← printMeanSampleInShortArray y P;
  writeOutputFile f y P.

End Pipeline.

(* ====================================================================== *)
(** ** Specification-level definitions *)

Section ConvolutionSum.
Context {A : Type} (zero : A) (add mul : A -> A -> A).

(** The product [x[n] * h[p - n]], when both indices are valid. *)
Definition conv_term (x h : list A) (p n : nat) : option A :=
  if decide (n <= p)%nat then
    xn ← x !! n; hm ← h !! (p - n)%nat; Some (mul xn hm)
  else None.

(** The valid products of output index [p] among the first [k] input
    indices, by ascending [n]. *)
Definition conv_terms (x h : list A) (k p : nat) : list A :=
  omap (conv_term x h p) (seq 0 k).

(** Their sum, accumulated from [zero] in that order. *)
Definition conv_partial (x h : list A) (k p : nat) : A :=
  foldl add zero (conv_terms x h k p).

Definition conv_sum (x h : list A) (p : nat) : A :=
  conv_partial x h (length x) p.

Definition conv_spec (x h : list A) : list A :=
  map (conv_sum x h) (seq 0 (length x + length h - 1)).

(** The state of [y] inside the inner loop: the cells [n .. n+m-1] already
    hold the term of input index [n]. *)
Definition inner_inv (x h : list A) (P n m : nat) (y : list A) : Prop :=
  length y = P /\
  forall p, (p < P)%nat ->
    y !! p = Some (if decide (n <= p < n + m)%nat
                   then conv_partial x h (S n) p
                   else conv_partial x h n p).

End ConvolutionSum.

(** The convolution sum on floats: the products are binary32 products, and
    they are added to [0.0] one by one, by ascending input index. *)
Definition convolution_sum (x h : list float) (p : nat) : float :=
  conv_sum f_0_0 f32_add f32_mul x h p.

(** *** The renormalizer as a function on lists *)

Definition scan_of (y : list float) : scan :=
  foldl (fun s v => scan_step v s) scan_init y.

Definition largest_of (y : list float) : float := scan_result (scan_of y).

Definition renormalize (y : list float) : list float :=
  map (scale_sample (largest_of y)) y.

(** *** The maximum and the minimum of a sequence *)

Definition max_step (a w : float) : float := if fgt w a then w else a.
Definition min_step (a w : float) : float := if flt w a then w else a.

Definition maxSample (y : list float) : float :=
  match y with
  | [] => S754_nan
  | v :: r => foldl max_step v r
  end.

Definition minSample (y : list float) : float :=
  match y with
  | [] => S754_nan
  | v :: r => foldl min_step v r
  end.

(** *** The renormalizer in the words of the specification

    [peak = max(max(y), abs(min(y)))]; the scale is [peak + 1e-6] if the
    maximum is positive and [abs(min(y))] otherwise; a scaled sample that is
    still [>= 0.999999] is decremented by [1e-6]. *)
Definition spec_scale (y : list float) : float :=
  let mx := double_of_float (maxSample y) in
  let amn := fabs (double_of_float (minSample y)) in
  let peak := if fgt amn mx then amn else mx in
  float_of_double (if fgt mx d_0_0 then f64_add peak d_0_000001 else amn).

Definition spec_sample (scale v : float) : float :=
  let q := f32_div v scale in
  if fge (double_of_float q) d_0_999999
  then float_of_double (f64_sub (double_of_float q) d_0_000001)
  else q.

Definition renormalize_spec (y : list float) : list float :=
  map (spec_sample (spec_scale y)) y.

(** The scale the program is designed to choose: [max(y) + 1e-6] if the
    sample of largest magnitude is the (positive) maximum, [abs(min(y))]
    otherwise. *)
Definition amended_scale (y : list float) : float :=
  let mx := double_of_float (maxSample y) in
  let amn := fabs (double_of_float (minSample y)) in
  float_of_double (if fgt mx amn then f64_add mx d_0_000001 else amn).

Definition renormalize_amended (y : list float) : list float :=
  map (scale_sample (amended_scale y)) y.

(** The sentinels of the scan, and the samples strictly between them. *)
Definition sentinel_low : float := float_of_double (SFopp d_9999999_0).
Definition sentinel_high : float := float_of_double d_9999999_0.

Definition within_sentinels (v : float) : Prop :=
  flt sentinel_low v = true /\ flt v sentinel_high = true.

(** *** The order of the comparisons

    [SFcompare] orders the values that are not NaN like the lexicographic
    order on these triples. *)
Definition key (x : spec_float) : Z * Z * Z :=
  match x with
  | S754_zero _ => (0, 0, 0)
  | S754_infinity false => (2, 0, 0)
  | S754_infinity true => (-2, 0, 0)
  | S754_nan => (3, 0, 0)
  | S754_finite false m e => (1, e, Z.pos m)
  | S754_finite true m e => (-1, - e, - Z.pos m)
  end.

Definition lex_lt (a b : Z * Z * Z) : Prop :=
  let '(a1, a2, a3) := a in
  let '(b1, b2, b3) := b in
  a1 < b1 \/ (a1 = b1 /\ (a2 < b2 \/ (a2 = b2 /\ a3 < b3))).

Definition not_nan (x : spec_float) : Prop := x <> S754_nan.

(** What the scan knows about [lowest] after the samples [seen] that follow
    the first sample [v0]. *)
Definition lowest_inv (v0 : float) (seen : list float) (s : scan) : Prop :=
  not_nan (highest s) /\ not_nan (lowest s) /\
  flt (highest s) v0 = false /\
  (lowest s = sentinel_high \/ lowest s ∈ seen) /\
  (forall w, w ∈ seen -> flt v0 w = false -> flt w (lowest s) = false).

(** *** The sample codec under the names of the specification *)

Definition toFloat (s : Z) : float := float_of_sample s.
Definition toInt (f : float) : option Z := sample_of_float f.

(** The mantissa of the doubles 1.0 = 2^52 * 2^-52 and
    32768.0 = 2^52 * 2^-37. *)
Definition two_52 : positive := 4503599627370496.

(** *** Occurrences of the data-chunk tag in a byte sequence *)

Definition tag_occurs (bs : list byte) : Prop :=
  exists pre post, bs = pre ++ char4_bytes data_tag ++ post.

(** The locator's outcome on an input, for every amount of fuel. *)
Definition diverges {R} (run : nat -> option R) : Prop := forall fuel, run fuel = None.

(** The state of the scan after [k] runs of the inner loop. *)
Fixpoint attempts (k : nat) (id : char4) (f : FILE) : char4 * FILE :=
  match k with
  | O => (id, f)
  | S k' => let '(id', f') := tag_attempt id f in attempts k' id' f'
  end.

(** The inner loop seen on the bytes that remain in the stream. *)
Fixpoint tag_attempt_on (k i : nat) (id : char4) (bs : list byte) : char4 * list byte :=
  match k with
  | O => (id, bs)
  | S k' =>
      let '(id', bs') :=
        match bs with
        | b :: r => (char4_set id i b, r)
        | [] => (id, bs)
        end in
      if decide (char4_get id' i <> char4_get data_tag i) then (id', bs')
      else tag_attempt_on k' (i + 1) id' bs'
  end.

(** Whether the tag occurs, as a computation. *)
Fixpoint has_tag (bs : list byte) : bool :=
  bool_decide (take 4 bs = char4_bytes data_tag) ||
  match bs with
  | [] => false
  | _ :: r => has_tag r
  end.

(** *** Inputs for the examples *)

(** The 36 bytes of a leading block for 16-bit mono at 44.1 kHz, with the
    given sub-block length. *)
Definition leading_block (subchunk1_size : Z) : list byte :=
  list_byte_of_string "RIFF" ++ le_encode 4 0 ++ list_byte_of_string "WAVEfmt " ++
  le_encode 4 subchunk1_size ++ le_encode 2 1 ++ le_encode 2 1 ++
  le_encode 4 44100 ++ le_encode 4 88200 ++ le_encode 2 2 ++ le_encode 2 16.

(** A data chunk: tag, byte length, samples. *)
Definition data_chunk (ss : list Z) : list byte :=
  char4_bytes data_tag ++ le_encode 4 (2 * Z.of_nat (length ss)) ++ bytes_of_shorts ss.

(** A file without metadata. *)
Definition wav_bytes (ss : list Z) : list byte := leading_block 16 ++ data_chunk ss.

(** A metadata chunk holding one title, as authoring tools insert it. *)
Definition info_chunk (title : string) : list byte :=
  list_byte_of_string "LIST" ++
  le_encode 4 (12 + Z.of_nat (length (list_byte_of_string title))) ++
  list_byte_of_string "INFOINAM" ++
  le_encode 4 (Z.of_nat (length (list_byte_of_string title))) ++
  list_byte_of_string title.

Definition blank_header : WavHeader := header_of_image (replicate 44 x00).

Definition open_input (bs : list byte) : Input :=
  {| stream := {| contents := bs; pos := 0 |}; header := blank_header |}.

Definition open_files (sample_bytes impulse_bytes : list byte) : FileData :=
  {| sample := open_input sample_bytes; impulse := open_input impulse_bytes;
     header_output := blank_header; output_file := [] |}.

(** *** Headers whose fields fit their C types *)

Definition header_in_range (h : WavHeader) : Prop :=
  is_int (chunk_size h) /\ is_int (subchunk1_size h) /\
  is_short (audio_format h) /\ is_short (num_channels h) /\
  is_int (sample_rate h) /\ is_int (byte_rate h) /\
  is_short (block_align h) /\ is_short (bits_per_sample h) /\
  is_int (subchunk2_size h).

(** *** Layouts in which the locator finds the data chunk *)

(** A byte sequence in which the locator finds the data chunk: a leading
    block of 36 bytes that declares its extra bytes, those bytes, metadata
    of no byte or of at least four bytes none of which is a d, the tag, the
    four bytes of the length [size], and the bytes [rest]. *)
Definition locatable (bs : list byte) (size : Z) (rest : list byte) : Prop :=
  exists blk junk meta l0 l1 l2 l3,
    bs = blk ++ junk ++ meta ++ char4_bytes data_tag ++ [l0; l1; l2; l3] ++ rest /\
    length blk = 36%nat /\
    le_int (slice 16 4 blk) = 16 + Z.of_nat (length junk) /\
    16 + Z.of_nat (length junk) <= INT_MAX /\
    Forall (fun b => b <> "d"%byte) meta /\
    (meta = [] \/ (4 <= length meta)%nat) /\
    le_int [l0; l1; l2; l3] = size.

(** *** Finite values, values of a format, exact values *)

(** Neither a NaN nor an infinity. *)
Definition is_finite (v : spec_float) : bool :=
  match v with
  | S754_zero _ | S754_finite _ _ _ => true
  | _ => false
  end.

(** The value of a finite float, times 2^1200: an integer for every
    exponent from -1200 on, which covers both formats. *)
Definition scaled (x : spec_float) : Z :=
  match x with
  | S754_finite s m e => (if s then -1 else 1) * (Z.pos m * 2 ^ (e + 1200))
  | _ => 0
  end.

(** A value of the format: a zero, or a finite number in canonical form. *)
Definition valid (prec emax : Z) (x : spec_float) : Prop :=
  is_finite x = true /\ valid_binary prec emax x = true.

Definition valid32 : float -> Prop := valid 24 128.
Definition valid64 : double -> Prop := valid 53 1024.

(** *** Rounded results; the range of the output samples *)

(** What [binary_round_aux] returns for the rounded mantissa [m1] at
    exponent [e1]: at most one carry into the next binade. *)
Definition pack (prec emax : Z) (s : bool) (m1 e1 : Z) : spec_float :=
  match m1 with
  | Z.pos p =>
      if decide (m1 < 2 ^ prec) then
        if Z.leb e1 (emax - prec) then S754_finite s p e1 else S754_infinity s
      else
        if Z.leb (e1 + 1) (emax - prec)
        then S754_finite s (Z.to_pos (2 ^ (prec - 1))) (e1 + 1)
        else S754_infinity s
  | Z0 => S754_zero s
  | Z.neg _ => S754_nan
  end.

(** A binary32 number [-1.0 <= o < 1.0], as a test. *)
Definition in_unit_range (o : float) : bool :=
  is_finite o && valid_binary 24 128 o && (- 2 ^ 1200 <=? scaled o) && (scaled o <? 2 ^ 1200).

(** [y[p] -= 0.000001]: the difference is a double, the store narrows. *)
Definition decrement (q : float) : float :=
  float_of_double (f64_sub (double_of_float q) d_0_000001).

(** A binary32 number of magnitude at most [n]. *)
Definition within (n : Z) (v : float) : Prop :=
  valid32 v /\ Z.abs (scaled v) <= n * 2 ^ 1200.

(** The number of products that [y[p]] has received when the outer loop
    has passed the input indices below [k], for an impulse response of [M]
    samples: those of the indices [n < k] with [0 <= p - n < M]. *)
Definition terms_upto (M p k : nat) : Z :=
  Z.max 0 (Z.min (Z.of_nat k) (Z.of_nat p + 1) - Z.max 0 (Z.of_nat p + 1 - Z.of_nat M)).

(* ====================================================================== *)
(** ** Arrays and loops: basic facts *)

Section LoopFacts.
Local Open Scope nat_scope.

Lemma aget_of_nat {A} (a : list A) (i : nat) : aget a (Z.of_nat i) = a !! i.
Proof.
  unfold aget. rewrite decide_True by lia. by rewrite Nat2Z.id.
Qed.

Lemma aset_of_nat {A} (a : list A) (i : nat) (v : A) :
  i < length a -> aset a (Z.of_nat i) v = Some (<[i := v]> a).
Proof.
  intros Hi. unfold aset. rewrite decide_True by lia. by rewrite Nat2Z.id.
Qed.

Lemma aset_out_of_range {A} (a : list A) (i : Z) (v : A) :
  (i < 0 \/ Z.of_nat (length a) <= i)%Z -> aset a i v = None.
Proof.
  intros Hi. unfold aset. rewrite decide_False by lia. done.
Qed.

(** The invariant rule for counted loops. *)
Lemma for_steps_inv {S} (Inv : nat -> S -> Prop) (body : Z -> S -> option S) (k : nat) :
  forall (i : nat) (s : S),
    Inv i s ->
    (forall j t, i <= j < i + k -> Inv j t ->
                 exists t', body (Z.of_nat j) t = Some t' /\ Inv (Datatypes.S j) t') ->
    exists s', for_steps k (Z.of_nat i) body s = Some s' /\ Inv (i + k) s'.
Proof.
  induction k as [|k IH]; intros i s Hi Hstep; simpl.
  - exists s. rewrite Nat.add_0_r. done.
  - destruct (Hstep i s) as (t & Hb & Ht); [lia | done |].
    rewrite Hb. simpl.
    replace (Z.of_nat i + 1)%Z with (Z.of_nat (Datatypes.S i)) by lia.
    destruct (IH (Datatypes.S i) t Ht) as (s' & Hs' & Hinv).
    { intros j u Hj Hu. apply Hstep; [lia | done]. }
    exists s'. split; [done |].
    by replace (i + Datatypes.S k) with (Datatypes.S i + k) by lia.
Qed.

Lemma for_loop_inv {S} (Inv : nat -> S -> Prop) (body : Z -> S -> option S) (n : nat) (s : S) :
  Inv 0 s ->
  (forall j t, j < n -> Inv j t ->
               exists t', body (Z.of_nat j) t = Some t' /\ Inv (Datatypes.S j) t') ->
  exists s', for_loop (Z.of_nat n) body s = Some s' /\ Inv n s'.
Proof.
  intros H0 Hstep. unfold for_loop. rewrite Nat2Z.id.
  apply (for_steps_inv Inv body n 0 s H0).
  intros j t Hj. apply Hstep. lia.
Qed.

(** A list is determined by its length and its elements. *)
Lemma list_eq_lookup_seq {A} (l : list A) (f : nat -> A) (n : nat) :
  length l = n -> (forall p, p < n -> l !! p = Some (f p)) -> l = map f (seq 0 n).
Proof.
  intros Hlen Hl. apply list_eq. intros p.
  destruct (decide (p < n)) as [Hp|Hp].
  - rewrite Hl by done. rewrite list_lookup_fmap.
    rewrite lookup_seq_lt by done. done.
  - rewrite !lookup_ge_None_2; [done | | lia].
    rewrite length_map, length_seq. lia.
Qed.

End LoopFacts.

(* ====================================================================== *)
(** ** The convolution loops compute the convolution sum *)

Section ConvolveCorrect.
Context {A : Type} (zero : A) (add mul : A -> A -> A).
Local Open Scope nat_scope.

Lemma conv_partial_0 (x h : list A) (p : nat) : conv_partial zero add mul x h 0 p = zero.
Proof. reflexivity. Qed.

Lemma conv_partial_S (x h : list A) (k p : nat) :
  conv_partial zero add mul x h (S k) p =
  match conv_term mul x h p k with
  | Some t => add (conv_partial zero add mul x h k p) t
  | None => conv_partial zero add mul x h k p
  end.
Proof.
  unfold conv_partial, conv_terms.
  rewrite seq_S, omap_app, foldl_app. simpl.
  destruct (conv_term mul x h p k); done.
Qed.

Lemma conv_term_valid (x h : list A) (p n : nat) (xn hm : A) :
  x !! n = Some xn -> n <= p -> h !! (p - n) = Some hm ->
  conv_term mul x h p n = Some (mul xn hm).
Proof.
  intros Hx Hp Hh. unfold conv_term. rewrite decide_True by done.
  rewrite Hx. simpl. rewrite Hh. done.
Qed.

Lemma conv_term_invalid (x h : list A) (p n : nat) :
  p < n \/ n + length h <= p -> conv_term mul x h p n = None.
Proof.
  intros Hp. unfold conv_term. case_decide; [|done].
  destruct (x !! n); simpl; [|done].
  rewrite lookup_ge_None_2 by lia. done.
Qed.

(** The zeroing loop: cells [0 .. P-1] become [zero], the others are not
    touched. *)
Lemma clear_output_buffer_spec (y : list A) (P : nat) :
  P <= length y ->
  clear_output_buffer zero y (Z.of_nat P) = Some (replicate P zero ++ drop P y).
Proof.
  intros HP. unfold clear_output_buffer.
  destruct (for_loop_inv
              (fun k (t : list A) => t = replicate k zero ++ drop k y)
              (fun p t => aset t p zero) P y) as (t & Ht & ->); [| | done].
  - by rewrite drop_0.
  - intros j t Hj ->. eexists. split.
    + apply aset_of_nat. rewrite length_app, length_replicate, length_drop. lia.
    + rewrite insert_app_r_alt by (rewrite length_replicate; lia).
      rewrite length_replicate, Nat.sub_diag.
      destruct (drop j y) as [|a r] eqn:Hd.
      { apply (f_equal length) in Hd. rewrite length_drop in Hd. simpl in Hd. lia. }
      simpl. replace (drop (S j) y) with r.
      * change (zero :: replicate j zero ++ r) with (replicate (S j) zero ++ r).
        rewrite replicate_S_end, <- app_assoc. done.
      * replace (S j) with (j + 1) by lia.
        rewrite <- (drop_drop y 1 j). rewrite Hd. done.
Qed.

Lemma inner_loop_spec (x h : list A) (n : nat) (y : list A) :
  n < length x ->
  inner_inv zero add mul x h (length x + length h - 1) n 0 y ->
  exists y',
    for_loop (Z.of_nat (length h))
      (fun m t => accumulate_step add mul x h (Z.of_nat n) m t) y = Some y' /\
    inner_inv zero add mul x h (length x + length h - 1) n (length h) y'.
Proof.
  intros Hn H0.
  apply (for_loop_inv (inner_inv zero add mul x h (length x + length h - 1) n)); [done |].
  intros m t Hm [Hlen Ht].
  destruct (lookup_lt_is_Some_2 x n Hn) as [xn Hxn].
  destruct (lookup_lt_is_Some_2 h m Hm) as [hm Hhm].
  assert (Hnm : n + m < length x + length h - 1) by lia.
  unfold accumulate_step.
  replace (Z.of_nat n + Z.of_nat m)%Z with (Z.of_nat (n + m)) by lia.
  rewrite !aget_of_nat, Hxn, Hhm, (Ht _ Hnm). simpl.
  rewrite decide_False by lia.
  rewrite aset_of_nat by lia.
  eexists. split; [done |]. split.
  - by rewrite length_insert.
  - intros p Hp. destruct (decide (p = n + m)) as [->|Hne].
    + rewrite list_lookup_insert_eq by lia.
      rewrite decide_True by lia.
      rewrite conv_partial_S.
      rewrite (conv_term_valid x h (n + m) n xn hm); [done | done | lia |].
      by replace (n + m - n) with m by lia.
    + rewrite list_lookup_insert_ne by done.
      rewrite (Ht _ Hp).
      destruct (decide (n <= p < n + m)).
      * by rewrite decide_True by lia.
      * by rewrite decide_False by lia.
Qed.

(** The nested loops leave in every cell the sum of its valid products. *)
Lemma accumulate_spec (x h : list A) :
  accumulate add mul x (Z.of_nat (length x)) h (Z.of_nat (length h))
    (replicate (length x + length h - 1) zero)
  = Some (conv_spec zero add mul x h).
Proof.
  set (P := length x + length h - 1).
  unfold accumulate.
  destruct (for_loop_inv
    (fun n (t : list A) =>
       length t = P /\ forall p, p < P -> t !! p = Some (conv_partial zero add mul x h n p))
    (fun n t => for_loop (Z.of_nat (length h))
                  (fun m u => accumulate_step add mul x h n m u) t)
    (length x) (replicate P zero)) as (t & Ht & Hlen & Hval).
  - split; [by rewrite length_replicate |].
    intros p Hp. rewrite lookup_replicate_2 by done. done.
  - intros n t Hn [Hlen Hval].
    destruct (inner_loop_spec x h n t Hn) as (t' & Ht' & Hlen' & Hval').
    { split; [done |]. intros p Hp. rewrite decide_False by lia. auto. }
    exists t'. split; [done |]. split; [done |].
    intros p Hp. rewrite (Hval' p Hp).
    case_decide; [done |].
    rewrite conv_partial_S, conv_term_invalid by lia. done.
  - rewrite Ht. f_equal. unfold conv_spec. by apply list_eq_lookup_seq.
Qed.

Lemma convolve_loops_spec (x h y : list A) :
  length y = length x + length h - 1 ->
  convolve_loops zero add mul x (Z.of_nat (length x)) h (Z.of_nat (length h))
    y (Z.of_nat (length y))
  = Some (conv_spec zero add mul x h).
Proof.
  intros Hy. unfold convolve_loops.
  rewrite clear_output_buffer_spec by done.
  rewrite drop_all, app_nil_r. simpl.
  rewrite Hy. apply accumulate_spec.
Qed.

End ConvolveCorrect.

(* ====================================================================== *)
(** ** Loops that read, update or fill an array *)

Section ArrayLoops.
Local Open Scope nat_scope.

Lemma for_loop_fold_reads {A S} (a : list A) (f : A -> S -> S) (n : nat) (s0 : S) :
  n <= length a ->
  for_loop (Z.of_nat n) (fun i s => v ← aget a i; Some (f v s)) s0
  = Some (foldl (fun s v => f v s) s0 (take n a)).
Proof.
  intros Hn.
  destruct (for_loop_inv
              (fun k (s : S) => s = foldl (fun s v => f v s) s0 (take k a))
              (fun i s => v ← aget a i; Some (f v s)) n s0) as (s & Hs & ->);
    [done | | done].
  intros j t Hj ->.
  destruct (lookup_lt_is_Some_2 a j) as [v Hv]; [lia |].
  rewrite aget_of_nat, Hv. simpl. eexists. split; [done |].
  rewrite (take_S_r _ _ _ Hv), foldl_app. done.
Qed.

Lemma for_loop_update_in_place {A} (g : A -> A) (a : list A) (n : nat) :
  n <= length a ->
  for_loop (Z.of_nat n) (fun p y => v ← aget y p; aset y p (g v)) a
  = Some (map g (take n a) ++ drop n a).
Proof.
  intros Hn.
  destruct (for_loop_inv
              (fun k (t : list A) => t = map g (take k a) ++ drop k a)
              (fun p y => v ← aget y p; aset y p (g v)) n a) as (s & Hs & ->);
    [by rewrite take_0, drop_0 | | done].
  intros j t Hj ->.
  destruct (lookup_lt_is_Some_2 a j) as [v Hv]; [lia |].
  assert (Hlen : length (map g (take j a)) = j).
  { rewrite length_map, length_take. lia. }
  rewrite aget_of_nat.
  rewrite lookup_app_r by lia.
  rewrite Hlen, Nat.sub_diag, (drop_S _ _ _ Hv). simpl.
  rewrite aset_of_nat by (rewrite length_app; simpl; lia).
  eexists. split; [done |].
  rewrite insert_app_r_alt by lia.
  rewrite Hlen, Nat.sub_diag. simpl.
  rewrite (take_S_r _ _ _ Hv), map_app, <- app_assoc. done.
Qed.

Lemma for_loop_fill {A B} (src : list A) (g : A -> option B) (vs dst : list B) (n : nat) :
  Forall2 (fun s v => g s = Some v) (take n src) vs ->
  n <= length src -> n <= length dst ->
  for_loop (Z.of_nat n) (fun i d => s ← aget src i; v ← g s; aset d i v) dst
  = Some (vs ++ drop n dst).
Proof.
  intros HF Hn Hd.
  assert (Hvs : length vs = n).
  { apply Forall2_length in HF. rewrite length_take in HF. lia. }
  destruct (for_loop_inv
              (fun k (t : list B) => t = take k vs ++ drop k dst)
              (fun i d => s ← aget src i; v ← g s; aset d i v) n dst) as (s & Hs & ->).
  - by rewrite take_0, drop_0.
  - intros j t Hj ->.
    destruct (lookup_lt_is_Some_2 src j) as [a Ha]; [lia |].
    destruct (lookup_lt_is_Some_2 vs j) as [v Hv]; [lia |].
    destruct (lookup_lt_is_Some_2 dst j) as [d Hdj]; [lia |].
    assert (Hg : g a = Some v).
    { eapply (Forall2_lookup_lr _ _ _ j a v HF); [|done].
      rewrite lookup_take_lt by lia. done. }
    assert (Hlen : length (take j vs) = j) by (rewrite length_take; lia).
    rewrite aget_of_nat, Ha. simpl. rewrite Hg. simpl.
    rewrite aset_of_nat by (rewrite length_app, length_drop; lia).
    eexists. split; [done |].
    rewrite insert_app_r_alt by lia.
    rewrite Hlen, Nat.sub_diag, (drop_S _ _ _ Hdj). simpl.
    rewrite (take_S_r _ _ _ Hv), <- app_assoc. done.
  - rewrite Hs. rewrite <- Hvs at 1. by rewrite take_ge by lia.
Qed.

Lemma for_loop_fill_total {A B} (src : list A) (g : A -> B) (dst : list B) (n : nat) :
  n <= length src -> n <= length dst ->
  for_loop (Z.of_nat n) (fun i d => s ← aget src i; aset d i (g s)) dst
  = Some (map g (take n src) ++ drop n dst).
Proof.
  intros Hn Hd.
  rewrite <- (for_loop_fill src (fun s => Some (g s)) (map g (take n src)) dst n);
    [done | | done | done].
  apply Forall2_fmap_r, Forall_Forall2_diag, Forall_forall. done.
Qed.

End ArrayLoops.

(* ====================================================================== *)
(** ** The renormalizer on a whole buffer *)

Lemma printMeanSampleInFloatArray_ok (y : list float) :
  printMeanSampleInFloatArray y (Z.of_nat (length y)) = Some ().
Proof.
  unfold printMeanSampleInFloatArray.
  rewrite (for_loop_fold_reads y (fun v sum => f64_add sum (double_of_float v))) by done.
  done.
Qed.

Lemma largestSampleIn_spec (y : list float) :
  largestSampleIn y (Z.of_nat (length y)) = Some (largest_of y).
Proof.
  unfold largestSampleIn.
  rewrite (for_loop_fold_reads y scan_step) by done. simpl.
  rewrite printMeanSampleInFloatArray_ok. simpl.
  by rewrite firstn_all.
Qed.

Lemma scaleValuesToRangeOfPlusMinus1_spec (y : list float) :
  scaleValuesToRangeOfPlusMinus1 y (Z.of_nat (length y)) = Some (renormalize y).
Proof.
  unfold scaleValuesToRangeOfPlusMinus1.
  rewrite largestSampleIn_spec. simpl.
  rewrite for_loop_update_in_place by done. simpl.
  rewrite firstn_all, drop_all, app_nil_r.
  replace (Z.of_nat (length y))
    with (Z.of_nat (length (map (scale_sample (largest_of y)) y)))
    by (by rewrite length_map).
  rewrite largestSampleIn_spec. done.
Qed.

Lemma renormalize_length (y : list float) : length (renormalize y) = length y.
Proof. unfold renormalize. by rewrite length_map. Qed.

(* ====================================================================== *)
(** ** ConvolutionEngine: results *)

Lemma for_steps_add {S} (a b : nat) (i : Z) (body : Z -> S -> option S) (s : S) :
  for_steps (a + b) i body s = s' ← for_steps a i body s; for_steps b (i + Z.of_nat a) body s'.
Proof.
  revert i s. induction a as [|a IH]; intros i s; simpl.
  - by rewrite Z.add_0_r.
  - destruct (body i s) as [t|]; simpl; [|done].
    rewrite IH. destruct (for_steps a (i + 1) body t); simpl; [|done].
    f_equal. lia.
Qed.

(** The zeroing loop needs all of its [P] cells: on a shorter buffer the
    write at the first missing index is out of bounds. *)
Lemma clear_output_buffer_short {A} (zero : A) (y : list A) (P : nat) :
  (length y < P)%nat -> clear_output_buffer zero y (Z.of_nat P) = None.
Proof.
  intros Hlt. unfold clear_output_buffer, for_loop. rewrite Nat2Z.id.
  replace P with (length y + S (P - length y - 1))%nat by lia.
  rewrite for_steps_add.
  pose proof (clear_output_buffer_spec zero y (length y) (le_n _)) as Hc.
  unfold clear_output_buffer, for_loop in Hc. rewrite Nat2Z.id in Hc.
  rewrite Hc. simpl.
  rewrite aset_out_of_range; [done |].
  right. rewrite length_app, length_replicate, length_drop. lia.
Qed.

Lemma conv_spec_length {A} (zero : A) (add mul : A -> A -> A) (x h : list A) :
  length (conv_spec zero add mul x h) = (length x + length h - 1)%nat.
Proof. unfold conv_spec. by rewrite length_map, length_seq. Qed.

Lemma convolve_raw_spec (x h y : list float) :
  length y = (length x + length h - 1)%nat ->
  convolve_raw x (Z.of_nat (length x)) h (Z.of_nat (length h)) y (Z.of_nat (length y))
  = Some (conv_spec f_0_0 f32_add f32_mul x h).
Proof. intros Hy. unfold convolve_raw. by apply convolve_loops_spec. Qed.

Lemma convolve_spec (x h y : list float) :
  length y = (length x + length h - 1)%nat ->
  convolve x (Z.of_nat (length x)) h (Z.of_nat (length h)) y (Z.of_nat (length y))
  = Some (renormalize (conv_spec f_0_0 f32_add f32_mul x h)).
Proof.
  intros Hy. unfold convolve. rewrite convolve_raw_spec by done. simpl.
  rewrite Hy, <- (conv_spec_length f_0_0 f32_add f32_mul x h).
  apply scaleValuesToRangeOfPlusMinus1_spec.
Qed.

(** C1. For float sequences [x] of length N >= 1 and [h] of length M >= 1
    and an output buffer of N + M - 1 cells, the loops of [convolve] leave a
    sequence of length exactly N + M - 1 whose element at every index p is
    the sum of the products x[n] * h[p - n] over the valid n (added to 0.0
    by ascending n), and [convolve] returns the renormalization of that
    sequence, again of length N + M - 1. *)
Theorem convolve_length_and_sum (x h y : list float) :
  (1 <= length x)%nat -> (1 <= length h)%nat ->
  length y = (length x + length h - 1)%nat ->
  exists raw,
    convolve_raw x (Z.of_nat (length x)) h (Z.of_nat (length h)) y
      (Z.of_nat (length x) + Z.of_nat (length h) - 1) = Some raw /\
    length raw = (length x + length h - 1)%nat /\
    (forall p, (p < length x + length h - 1)%nat ->
               raw !! p = Some (convolution_sum x h p)) /\
    convolve x (Z.of_nat (length x)) h (Z.of_nat (length h)) y
      (Z.of_nat (length x) + Z.of_nat (length h) - 1) = Some (renormalize raw) /\
    length (renormalize raw) = (length x + length h - 1)%nat.
Proof.
  intros Hx Hh Hy.
  assert (HP : Z.of_nat (length x) + Z.of_nat (length h) - 1 = Z.of_nat (length y)) by lia.
  exists (conv_spec f_0_0 f32_add f32_mul x h). rewrite HP.
  split; [by apply convolve_raw_spec |].
  split; [by apply conv_spec_length |].
  split; [| split].
  - intros p Hp. unfold conv_spec. rewrite list_lookup_fmap.
    rewrite lookup_seq_lt by done. done.
  - by apply convolve_spec.
  - by rewrite renormalize_length, conv_spec_length.
Qed.

Lemma convolve_length_and_sum_witness :
  exists raw,
    convolve_raw [float_of_sample 16384; float_of_sample 8192] 2
                 [float_of_sample 16384; float_of_sample (-16384)] 2
                 [S754_nan; S754_nan; S754_nan] 3 = Some raw /\
    length raw = 3%nat.
Proof.
  destruct (convolve_length_and_sum
              [float_of_sample 16384; float_of_sample 8192]
              [float_of_sample 16384; float_of_sample (-16384)]
              [S754_nan; S754_nan; S754_nan])
    as (raw & Hraw & Hlen & _); [simpl; lia | simpl; lia | reflexivity |].
  exists raw. split; [exact Hraw | exact Hlen].
Defined.

(** C10. For N >= 1, M >= 1 and an output buffer of P = N + M - 1 cells,
    every array access of [convolve] is in bounds: the zeroing loop writes
    the cells 0 .. P-1 and no other (cells behind them keep their value, and
    a buffer with fewer cells makes the loop leave it), every index pair
    0 <= n < N, 0 <= m < M gives 0 <= n + m <= P - 1 with x[n], h[m] and
    y[n+m] inside their arrays, and the run as a whole never leaves an
    array. *)
Theorem convolve_accesses_in_bounds (x h y : list float) :
  (1 <= length x)%nat -> (1 <= length h)%nat ->
  length y = (length x + length h - 1)%nat ->
  (forall rest,
      clear_output_buffer f_0_0 (y ++ rest)
        (Z.of_nat (length x) + Z.of_nat (length h) - 1)
      = Some (replicate (length y) f_0_0 ++ rest)) /\
  (forall y', (length y' < length y)%nat ->
      clear_output_buffer f_0_0 y'
        (Z.of_nat (length x) + Z.of_nat (length h) - 1) = None) /\
  (forall (n m : Z) (t : list float) (v : float),
      0 <= n < Z.of_nat (length x) -> 0 <= m < Z.of_nat (length h) ->
      length t = length y ->
      0 <= n + m <= Z.of_nat (length x) + Z.of_nat (length h) - 1 - 1 /\
      is_Some (aget x n) /\ is_Some (aget h m) /\
      is_Some (aget t (n + m)) /\ is_Some (aset t (n + m) v)) /\
  is_Some (convolve x (Z.of_nat (length x)) h (Z.of_nat (length h)) y
             (Z.of_nat (length x) + Z.of_nat (length h) - 1)).
Proof.
  intros Hx Hh Hy.
  assert (HP : Z.of_nat (length x) + Z.of_nat (length h) - 1 = Z.of_nat (length y)) by lia.
  rewrite HP. repeat split.
  - intros rest. rewrite clear_output_buffer_spec by (rewrite length_app; lia).
    by rewrite drop_app_length.
  - intros y' Hy'. by apply clear_output_buffer_short.
  - lia.
  - lia.
  - unfold aget. rewrite decide_True by lia. apply lookup_lt_is_Some_2. lia.
  - unfold aget. rewrite decide_True by lia. apply lookup_lt_is_Some_2. lia.
  - unfold aget. rewrite decide_True by lia. apply lookup_lt_is_Some_2. lia.
  - unfold aset. rewrite decide_True by lia. done.
  - rewrite convolve_spec by done. done.
Qed.

Lemma convolve_accesses_in_bounds_witness :
  is_Some (convolve [float_of_sample 16384; float_of_sample 8192] 2
                    [float_of_sample 16384; float_of_sample (-16384)] 2
                    [S754_nan; S754_nan; S754_nan] 3).
Proof.
  apply (convolve_accesses_in_bounds
           [float_of_sample 16384; float_of_sample 8192]
           [float_of_sample 16384; float_of_sample (-16384)]
           [S754_nan; S754_nan; S754_nan]); [simpl; lia | simpl; lia | reflexivity].
Defined.

(* ====================================================================== *)
(** ** The convolution sum in exact arithmetic

    With an addition that is associative and commutative and a commutative
    multiplication (the integers, the rationals, the reals) the sum does not
    depend on the order of its terms, and the convolution is commutative.
    Binary32 addition is not associative: there the two orders may round
    differently. *)

Section ExactArithmetic.
Context {A : Type} (zero : A) (add mul : A -> A -> A).
Hypothesis add_comm : forall a b, add a b = add b a.
Hypothesis add_assoc : forall a b c, add a (add b c) = add (add a b) c.
Hypothesis mul_comm : forall a b, mul a b = mul b a.
Local Open Scope nat_scope.

Lemma foldl_add_shift (l : list A) :
  forall z a, foldl add (add z a) l = add (foldl add z l) a.
Proof.
  induction l as [|b l IH]; intros z a; simpl; [done |].
  rewrite <- IH. f_equal.
  rewrite <- !add_assoc. f_equal. apply add_comm.
Qed.

Lemma foldl_add_reverse (l : list A) (z : A) :
  foldl add z (reverse l) = foldl add z l.
Proof.
  induction l as [|a l IH]; [done |].
  rewrite reverse_cons, foldl_app. simpl.
  by rewrite IH, foldl_add_shift.
Qed.

Lemma omap_reverse {B C} (f : B -> option C) (l : list B) :
  omap f (reverse l) = reverse (omap f l).
Proof.
  induction l as [|a l IH]; [done |].
  rewrite reverse_cons, omap_app, IH. simpl.
  destruct (f a); simpl; [by rewrite reverse_cons | by rewrite app_nil_r].
Qed.

Lemma omap_none {B C} (f : B -> option C) (l : list B) :
  (forall b, b ∈ l -> f b = None) -> omap f l = [].
Proof.
  induction l as [|a l IH]; intros Hf; csimpl; [done |].
  rewrite Hf by (apply elem_of_cons; by left).
  apply IH. intros b Hb. apply Hf, elem_of_cons. by right.
Qed.

Lemma omap_seq_trim {C} (f : nat -> option C) (k0 k : nat) :
  k0 <= k -> (forall n, k0 <= n -> f n = None) ->
  omap f (seq 0 k) = omap f (seq 0 k0).
Proof.
  intros Hk Hf.
  replace k with (k0 + (k - k0)) by lia.
  rewrite seq_app, omap_app, (omap_none f (seq (0 + k0) (k - k0))).
  - by rewrite app_nil_r.
  - intros n Hn%elem_of_seq. apply Hf. lia.
Qed.

Lemma conv_terms_upto (x h : list A) (p : nat) :
  conv_terms mul x h (length x) p = omap (conv_term mul x h p) (seq 0 (S p)).
Proof.
  unfold conv_terms.
  rewrite (omap_seq_trim _ (length x `min` S p) (length x)); [| lia |].
  - symmetry. apply omap_seq_trim; [lia |].
    intros n Hn. unfold conv_term. case_decide; [| done].
    rewrite (lookup_ge_None_2 x n) by lia. done.
  - intros n Hn. unfold conv_term. case_decide; [| done].
    rewrite (lookup_ge_None_2 x n) by lia. done.
Qed.

Lemma conv_term_swap (x h : list A) (p m : nat) :
  m <= p -> conv_term mul h x p m = conv_term mul x h p (p - m).
Proof.
  intros Hm. unfold conv_term. rewrite !decide_True by lia.
  replace (p - (p - m)) with m by lia.
  destruct (h !! m), (x !! (p - m)); simpl; [| done ..].
  by rewrite mul_comm.
Qed.

Lemma seq_reverse_sub (p : nat) :
  reverse (seq 0 (S p)) = map (fun m => p - m) (seq 0 (S p)).
Proof.
  apply list_eq. intros i.
  destruct (decide (i < S p)) as [Hi|Hi].
  - rewrite reverse_lookup by (rewrite length_seq; lia).
    rewrite length_seq, list_lookup_fmap, !lookup_seq_lt by lia. simpl.
    f_equal; lia.
  - rewrite !lookup_ge_None_2; [done | |].
    + rewrite length_map, length_seq. lia.
    + rewrite length_reverse, length_seq. lia.
Qed.

Lemma omap_map {B C D} (f : C -> option D) (g : B -> C) (l : list B) :
  omap f (map g l) = omap (fun b => f (g b)) l.
Proof.
  induction l as [|a l IH]; csimpl; [done |]. by rewrite IH.
Qed.

Lemma omap_ext_in {B C} (f g : B -> option C) (l : list B) :
  (forall b, b ∈ l -> f b = g b) -> omap f l = omap g l.
Proof.
  induction l as [|a l IH]; intros Hfg; csimpl; [done |].
  rewrite Hfg by (apply elem_of_cons; by left).
  rewrite IH; [done |]. intros b Hb. apply Hfg, elem_of_cons. by right.
Qed.

Lemma conv_terms_reverse (x h : list A) (p : nat) :
  conv_terms mul h x (length h) p = reverse (conv_terms mul x h (length x) p).
Proof.
  rewrite !conv_terms_upto, <- omap_reverse, seq_reverse_sub, omap_map.
  apply omap_ext_in. intros m Hm%elem_of_seq.
  apply conv_term_swap. lia.
Qed.

(** In exact arithmetic every output sample is the same for both orders of
    the operands. *)
Lemma conv_sum_comm (x h : list A) (p : nat) :
  conv_sum zero add mul x h p = conv_sum zero add mul h x p.
Proof.
  unfold conv_sum, conv_partial.
  by rewrite (conv_terms_reverse x h), foldl_add_reverse.
Qed.

Lemma conv_spec_comm (x h : list A) :
  conv_spec zero add mul x h = conv_spec zero add mul h x.
Proof.
  unfold conv_spec. rewrite (Nat.add_comm (length h)).
  apply map_ext. intros p. apply conv_sum_comm.
Qed.

End ExactArithmetic.

(** On integers, for instance. *)
Lemma convolve_loops_comm_Z (x h y y' : list Z) :
  length y = (length x + length h - 1)%nat -> length y' = length y ->
  convolve_loops 0 Z.add Z.mul x (Z.of_nat (length x)) h (Z.of_nat (length h))
    y (Z.of_nat (length y))
  = convolve_loops 0 Z.add Z.mul h (Z.of_nat (length h)) x (Z.of_nat (length x))
      y' (Z.of_nat (length y')).
Proof.
  intros Hy Hy'.
  rewrite !convolve_loops_spec by lia.
  f_equal. apply conv_spec_comm; intros; lia.
Qed.

(* ====================================================================== *)
(** ** Exact steps of the float arithmetic

    On the values of the codec the products and quotients by powers of two
    and the conversions between the two formats lose nothing.  The lemmas
    say so for the rounding functions of [SpecFloat]: a mantissa that
    already has the digits of the format is kept, zero bits are shifted out
    or in without a remainder. *)

Section ExactSteps.

Lemma digits2_pos_size (m : positive) : digits2_pos m = Pos.size m.
Proof. induction m; simpl; congruence. Qed.

Lemma digits2_pos_shift (m k : positive) :
  digits2_pos (Pos.iter xO m k) = (digits2_pos m + k)%positive.
Proof.
  induction k as [|k IH] using Pos.peano_ind.
  - simpl. lia.
  - rewrite Pos.iter_succ. simpl. rewrite IH. lia.
Qed.

Lemma Zpos_shift (m k : positive) : Z.pos (Pos.iter xO m k) = Z.pos m * 2 ^ Z.pos k.
Proof.
  induction k as [|k IH] using Pos.peano_ind.
  - simpl. lia.
  - rewrite Pos.iter_succ, Pos2Z.inj_xO, IH, Pos2Z.inj_succ, Z.pow_succ_r by lia. lia.
Qed.

Lemma iter_pos_iter {A} (f : A -> A) (n : positive) :
  forall x, SpecFloat.iter_pos f n x = Pos.iter f x n.
Proof.
  induction n as [n IH|n IH|]; intros x; simpl.
  - rewrite !IH, !Pos.iter_swap. done.
  - by rewrite !IH.
  - done.
Qed.

(** Shifting out [k] zero bits loses nothing. *)
Lemma shr_zero_bits (k : positive) :
  forall m,
    SpecFloat.iter_pos shr_1 k {| shr_m := Z.pos (Pos.iter xO m k); shr_r := false; shr_s := false |}
    = {| shr_m := Z.pos m; shr_r := false; shr_s := false |}.
Proof.
  intros m. rewrite iter_pos_iter. revert m.
  induction k as [|k IH] using Pos.peano_ind; intros m.
  - reflexivity.
  - rewrite (Pos.iter_succ_r _ _ xO), (Pos.iter_succ _ _ shr_1), IH. reflexivity.
Qed.

Variables prec emax : Z.
Hypothesis prec_pos : 0 < prec.

(** A mantissa of [prec] digits with its exponent in range is left as it
    is. *)
Lemma round_canonical (s : bool) (m : positive) (e : Z) :
  Z.pos (digits2_pos m) = prec ->
  emin prec emax <= e <= emax - prec ->
  binary_round_aux prec emax s (Z.pos m) e loc_Exact = S754_finite s m e.
Proof.
  intros Hd He. unfold binary_round_aux, shr_fexp, fexp. simpl Zdigits2.
  rewrite Hd.
  replace (Z.max (prec + e - prec) (emin prec emax) - e) with 0 by lia.
  simpl. rewrite Hd.
  replace (Z.max (prec + e - prec) (emin prec emax) - e) with 0 by lia.
  simpl. rewrite Zle_imp_le_bool by lia. done.
Qed.

(** A mantissa of [prec] digits followed by [k] zero bits is rounded
    exactly. *)
Lemma round_shift_right (s : bool) (m k : positive) (e : Z) :
  Z.pos (digits2_pos m) = prec ->
  emin prec emax <= e + Z.pos k <= emax - prec ->
  binary_round_aux prec emax s (Z.pos (Pos.iter xO m k)) e loc_Exact
  = S754_finite s m (e + Z.pos k).
Proof.
  intros Hd He. unfold binary_round_aux, shr_fexp, fexp. simpl Zdigits2.
  rewrite digits2_pos_shift, Pos2Z.inj_add, Hd.
  replace (Z.max (prec + Z.pos k + e - prec) (emin prec emax) - e) with (Z.pos k) by lia.
  simpl shr. rewrite shr_zero_bits. simpl. rewrite Hd.
  replace (Z.max (prec + (e + Z.pos k) - prec) (emin prec emax) - (e + Z.pos k)) with 0 by lia.
  simpl. rewrite Zle_imp_le_bool by lia. done.
Qed.

(** A mantissa of fewer than [prec] digits is shifted to [prec] digits. *)
Lemma round_shift_left (s : bool) (m k : positive) (e : Z) :
  Z.pos (digits2_pos m) + Z.pos k = prec ->
  emin prec emax <= e - Z.pos k <= emax - prec ->
  binary_round prec emax s m e = S754_finite s (Pos.iter xO m k) (e - Z.pos k).
Proof.
  intros Hd He. unfold binary_round, shl_align, fexp.
  replace (Z.max (Z.pos (digits2_pos m) + e - prec) (emin prec emax)) with (e - Z.pos k) by lia.
  replace (e - Z.pos k - e) with (Z.neg k) by lia.
  apply round_canonical; [| done].
  rewrite digits2_pos_shift. lia.
Qed.

End ExactSteps.

(* ====================================================================== *)
(** ** The codec is exact on every sample *)

Section CodecExact.

Lemma mul_two_52 (m : positive) : (m * two_52)%positive = Pos.iter xO m 52.
Proof.
  apply Pos2Z.inj. rewrite Zpos_shift, Pos2Z.inj_mul. reflexivity.
Qed.

Lemma f64_mul_pow2 (s : bool) (m : positive) (e ce e' : Z) :
  Z.pos (digits2_pos m) = 53 ->
  e' = e + ce + 52 -> -1074 <= e' <= 971 ->
  f64_mul (S754_finite s m e) (S754_finite false two_52 ce) = S754_finite s m e'.
Proof.
  intros Hd -> He. unfold f64_mul, SFmul.
  rewrite xorb_false_r, mul_two_52.
  rewrite (round_shift_right 53 1024 s m 52 (e + ce) Hd).
  - f_equal; lia.
  - unfold emin. lia.
Qed.

Lemma div_eucl_exact (a b q : Z) : 0 < b -> a = q * b -> Z.div_eucl a b = (q, 0).
Proof.
  intros Hb ->.
  assert (H : Z.div_eucl (q * b) b = ((q * b) / b, (q * b) mod b)).
  { unfold Z.div, Z.modulo. by destruct (Z.div_eucl (q * b) b). }
  rewrite H, Z.div_mul, Z.mod_mul by lia. done.
Qed.

Lemma f64_div_pow2 (s : bool) (m : positive) (e ce e' : Z) :
  Z.pos (digits2_pos m) = 53 ->
  e' = e - ce - 52 -> -1073 <= e' <= 971 ->
  f64_div (S754_finite s m e) (S754_finite false two_52 ce) = S754_finite s m e'.
Proof.
  intros Hd -> He. unfold f64_div, SFdiv, SFdiv_core_binary.
  change (Zdigits2 (Z.pos two_52)) with 53.
  change (Zdigits2 (Z.pos m)) with (Z.pos (digits2_pos m)). rewrite Hd.
  unfold fexp, emin.
  replace (Z.min (Z.max (53 + e - (53 + ce) - 53) (3 - 1024 - 53)) (e - ce))
    with (e - ce - 53) by lia.
  replace (e - ce - (e - ce - 53)) with 53 by lia.
  rewrite Z.shiftl_mul_pow2 by lia.
  rewrite (div_eucl_exact _ _ (Z.pos (Pos.iter xO m 1))).
  - rewrite xorb_false_r.
    change (new_location (Z.pos two_52) 0) with loc_Exact.
    rewrite (round_shift_right 53 1024 s m 1 (e - ce - 53) Hd).
    + f_equal; lia.
    + unfold emin. lia.
  - done.
  - rewrite Zpos_shift. change (Z.pos two_52) with (2 ^ 52). 
    change (2 ^ 53) with (2 ^ 1 * 2 ^ 52). lia.
Qed.

Lemma float_of_double_exact (s : bool) (m : positive) (e e' : Z) :
  Z.pos (digits2_pos m) = 24 ->
  e' = e + 29 -> -149 <= e' <= 104 ->
  float_of_double (S754_finite s (Pos.iter xO m 29) e) = S754_finite s m e'.
Proof.
  intros Hd -> He. unfold float_of_double, binary_round, shl_align, fexp, emin.
  rewrite digits2_pos_shift, Pos2Z.inj_add, Hd.
  replace (Z.max (24 + 29 + e - 24) (3 - 128 - 24) - e) with 29 by lia.
  rewrite (round_shift_right 24 128 s m 29 e Hd); [done |].
  unfold emin. lia.
Qed.

Lemma double_of_float_exact (s : bool) (m : positive) (e e' : Z) :
  Z.pos (digits2_pos m) = 24 ->
  e' = e - 29 -> -1074 <= e' <= 971 ->
  double_of_float (S754_finite s m e) = S754_finite s (Pos.iter xO m 29) e'.
Proof.
  intros Hd -> He. unfold double_of_float.
  apply (round_shift_left 53 1024); [lia | unfold emin; lia].
Qed.

Lemma digits_of_sample (p : positive) :
  Z.pos p <= 32768 -> Z.pos (digits2_pos p) <= 16.
Proof.
  intros Hp. rewrite digits2_pos_size.
  pose proof (Pos.size_le p) as Hs.
  apply Pos2Z.pos_le_pos in Hs. rewrite Pos2Z.inj_pow in Hs.
  apply Z.nlt_ge. intros Hlt.
  assert (2 ^ 17 <= 2 ^ Z.pos (Pos.size p)) by (apply Z.pow_le_mono_r; lia).
  change (2 ^ 17) with 131072 in *. lia.
Qed.

(** From the double of a sample to the float and back to the double that
    is truncated: every step is exact, the last product is the double of the
    sample again, and its integral part is the sample. *)
Lemma codec_chain (sg : bool) (p : positive) :
  Z.pos p <= 32768 ->
  f64_mul (double_of_float
             (float_of_double
                (f64_div (f64_mul (binary_round 53 1024 sg p 0) d_1_0) d_32768_0)))
          d_32768_0
  = binary_round 53 1024 sg p 0 /\
  trunc (binary_round 53 1024 sg p 0) = Some (if sg then - Z.pos p else Z.pos p).
Proof.
  intros Hp.
  pose proof (digits_of_sample p Hp) as Hd.
  set (d := digits2_pos p) in *.
  set (k' := Z.to_pos (24 - Z.pos d)).
  assert (Hk' : Z.pos k' = 24 - Z.pos d) by (unfold k'; rewrite Z2Pos.id; lia).
  set (m := Pos.iter xO p k').
  assert (Hm : Z.pos (digits2_pos m) = 24).
  { unfold m. rewrite digits2_pos_shift, Pos2Z.inj_add. fold d. lia. }
  assert (HM : Z.pos (digits2_pos (Pos.iter xO m 29)) = 53).
  { rewrite digits2_pos_shift, Pos2Z.inj_add. lia. }
  assert (Hx : binary_round 53 1024 sg p 0
               = S754_finite sg (Pos.iter xO m 29) (Z.pos d - 53)).
  { unfold m. rewrite <- Pos.iter_add.
    rewrite (round_shift_left 53 1024 sg p (29 + k') 0).
    - f_equal; lia.
    - fold d. lia.
    - unfold emin. lia. }
  rewrite Hx.
  change d_1_0 with (S754_finite false two_52 (-52)).
  change d_32768_0 with (S754_finite false two_52 (-37)).
  split.
  - rewrite (f64_mul_pow2 sg _ _ (-52) (Z.pos d - 53)) by (done || lia).
    rewrite (f64_div_pow2 sg _ _ (-37) (Z.pos d - 68)) by (done || lia).
    rewrite (float_of_double_exact sg m _ (Z.pos d - 39)) by (done || lia).
    rewrite (double_of_float_exact sg m _ (Z.pos d - 68)) by (done || lia).
    rewrite (f64_mul_pow2 sg _ _ (-37) (Z.pos d - 53)) by (done || lia).
    done.
  - unfold trunc. rewrite decide_False by lia.
    unfold m. rewrite <- Pos.iter_add, Zpos_shift.
    replace (- (Z.pos d - 53)) with (Z.pos (29 + k')) by lia.
    rewrite Z.div_mul by lia. done.
Qed.

(** The round trip on every [short], the two most negative ones included. *)
Lemma codec_roundtrip_all (s : Z) :
  SHRT_MIN <= s <= SHRT_MAX -> toInt (toFloat s) = Some s.
Proof.
  unfold SHRT_MIN, SHRT_MAX. intros Hs.
  unfold toInt, toFloat, sample_of_float, float_of_sample, short_of_double, double_of_int.
  destruct s as [|p|p].
  - reflexivity.
  - change (binary_normalize 53 1024 (Z.pos p) 0 false)
      with (binary_round 53 1024 false p 0).
    destruct (codec_chain false p) as [-> ->]; [lia |]. simpl.
    rewrite decide_True by (unfold SHRT_MIN, SHRT_MAX; lia). done.
  - change (binary_normalize 53 1024 (Z.neg p) 0 false)
      with (binary_round 53 1024 true p 0).
    destruct (codec_chain true p) as [-> ->]; [lia |]. simpl.
    rewrite decide_True by (unfold SHRT_MIN, SHRT_MAX; lia). done.
Qed.

End CodecExact.

(** C4. For every 16-bit signed sample s that is more than 1 unit away from
    the most negative value, toInt(toFloat(s)) = s, where toFloat(s) is
    s / 32768.0 and toInt(f) is f * 32768.0 truncated toward zero to a
    16-bit signed integer. *)
Theorem codec_roundtrip (s : Z) :
  SHRT_MIN + 1 < s <= SHRT_MAX -> toInt (toFloat s) = Some s.
Proof.
  intros Hs. apply codec_roundtrip_all. unfold SHRT_MIN, SHRT_MAX in *. lia.
Qed.

Lemma codec_roundtrip_witness : toInt (toFloat (-32766)) = Some (-32766).
Proof. apply (codec_roundtrip (-32766)). unfold SHRT_MIN, SHRT_MAX. lia. Defined.

(** X13.  The two conversion loops of the pipeline, one after the other,
    give the samples back: for every array of 16-bit values, -32768
    included, [createShortIntegerSamplesFromFloatSamples] undoes
    [createFloatSamplesFromIntegerSamples], and no access of either loop
    leaves its array. *)
Lemma codec_roundtrip_arrays (ss : list Z) (fs : list float) (out : list Z) :
  Forall is_short ss -> length fs = length ss -> length out = length ss ->
  (fs' ← createFloatSamplesFromIntegerSamples ss (Z.of_nat (length ss)) fs;
   createShortIntegerSamplesFromFloatSamples fs' (Z.of_nat (length ss)) out) = Some ss.
Proof.
  intros Hss Hfs Hout.
  unfold createFloatSamplesFromIntegerSamples, createShortIntegerSamplesFromFloatSamples.
  rewrite for_loop_fill_total by lia. simpl.
  rewrite firstn_all, <- Hfs, drop_all, app_nil_r, Hfs.
  rewrite (for_loop_fill (map float_of_sample ss) sample_of_float ss out).
  - by rewrite <- Hout, drop_all, app_nil_r.
  - rewrite take_ge by (rewrite length_map; lia).
    apply Forall2_fmap_l, Forall_Forall2_diag.
    eapply Forall_impl; [exact Hss |].
    intros s Hs. by apply codec_roundtrip_all.
  - rewrite length_map. lia.
  - lia.
Qed.

Lemma codec_roundtrip_arrays_witness :
  (fs' ← createFloatSamplesFromIntegerSamples [-32768; -1; 0; 32767] 4 (replicate 4 S754_nan);
   createShortIntegerSamplesFromFloatSamples fs' 4 [0; 0; 0; 0])
  = Some [-32768; -1; 0; 32767].
Proof.
  apply (codec_roundtrip_arrays [-32768; -1; 0; 32767] (replicate 4 S754_nan) [0; 0; 0; 0]).
  - repeat constructor; unfold SHRT_MIN, SHRT_MAX; lia.
  - reflexivity.
  - reflexivity.
Defined.

(* ====================================================================== *)
(** ** ContainerWriter: the output header *)

Lemma wrap32_id (z : Z) : is_int z -> wrap32 z = z.
Proof.
  unfold is_int, INT_MIN, INT_MAX, wrap32, wrap. intros Hz.
  change (2 ^ (32 - 1)) with 2147483648 in *.
  change (2 ^ 32) with 4294967296 in *.
  change (2 ^ 31) with 2147483648 in *.
  rewrite Z.mod_small by lia. lia.
Qed.

Lemma foldl_append_encoded (ss : list Z) (out : list byte) :
  foldl (fun o s => o ++ le_encode 2 s) out ss = out ++ bytes_of_shorts ss.
Proof.
  revert out. induction ss as [|s ss IH]; intros out; simpl.
  - by rewrite app_nil_r.
  - rewrite IH. unfold bytes_of_shorts. simpl. by rewrite <- !app_assoc.
Qed.

Lemma fwrite_shorts_spec (y : list Z) (out : list byte) :
  fwrite_shorts y (Z.of_nat (length y)) out = Some (out ++ bytes_of_shorts y).
Proof.
  unfold fwrite_shorts. rewrite decide_True by lia.
  rewrite (for_loop_fold_reads y (fun s o => o ++ le_encode 2 s)) by done.
  by rewrite firstn_all, foldl_append_encoded.
Qed.

(** C9. For every primary-input header and every output of P samples (with
    36 + 2 P representable as an [int]), the header that is written is the
    primary input's header except for exactly three fields: the data-chunk
    length is P times the 2 bytes of a sample, the overall length is 36 plus
    that data length, and the sub-block length is 16; every other field,
    among them channel count, sample rate and bits-per-sample, is passed
    through unchanged.  The header image is what is written, followed by the
    samples. *)
Theorem writeOutputFile_header (f : FileData) (y : list Z) :
  36 + Z.of_nat (length y) * sizeof_short <= INT_MAX ->
  exists f',
    writeOutputFile f y (Z.of_nat (length y)) = Some f' /\
    output_file f' = output_file f ++ header_image (header_output f') ++ bytes_of_shorts y /\
    subchunk2_size (header_output f') = Z.of_nat (length y) * sizeof_short /\
    chunk_size (header_output f') = 36 + subchunk2_size (header_output f') /\
    subchunk1_size (header_output f') = 16 /\
    (bits_per_sample (header_sample f) = 16 ->
     subchunk2_size (header_output f')
     = Z.of_nat (length y) * (bits_per_sample (header_sample f) / 8)) /\
    chunk_id (header_output f') = chunk_id (header_sample f) /\
    format (header_output f') = format (header_sample f) /\
    subchunk1_id (header_output f') = subchunk1_id (header_sample f) /\
    audio_format (header_output f') = audio_format (header_sample f) /\
    num_channels (header_output f') = num_channels (header_sample f) /\
    sample_rate (header_output f') = sample_rate (header_sample f) /\
    byte_rate (header_output f') = byte_rate (header_sample f) /\
    block_align (header_output f') = block_align (header_sample f) /\
    bits_per_sample (header_output f') = bits_per_sample (header_sample f) /\
    subchunk2_id (header_output f') = subchunk2_id (header_sample f).
Proof.
  unfold sizeof_short, header_sample. intros Hfit.
  assert (H2 : wrap32 (Z.of_nat (length y) * 2) = Z.of_nat (length y) * 2).
  { apply wrap32_id. unfold is_int, INT_MIN, INT_MAX in *. lia. }
  assert (H1 : wrap32 (36 + Z.of_nat (length y) * 2) = 36 + Z.of_nat (length y) * 2).
  { apply wrap32_id. unfold is_int, INT_MIN, INT_MAX in *. lia. }
  unfold writeOutputFile. rewrite fwrite_shorts_spec. simpl.
  eexists. split; [reflexivity |]. simpl.
  rewrite H2, H1. repeat split.
  - by rewrite <- app_assoc.
  - intros ->. done.
Qed.

Lemma writeOutputFile_header_witness :
  exists f',
    writeOutputFile
      {| sample := {| stream := {| contents := []; pos := 0 |};
                      header := header_of_image (replicate 44 x00) |};
         impulse := {| stream := {| contents := []; pos := 0 |};
                       header := header_of_image (replicate 44 x00) |};
         header_output := header_of_image (replicate 44 x00);
         output_file := [] |}
      [1; -2; 3] 3 = Some f' /\
    subchunk2_size (header_output f') = 6 /\
    chunk_size (header_output f') = 42.
Proof.
  destruct (writeOutputFile_header
              {| sample := {| stream := {| contents := []; pos := 0 |};
                              header := header_of_image (replicate 44 x00) |};
                 impulse := {| stream := {| contents := []; pos := 0 |};
                               header := header_of_image (replicate 44 x00) |};
                 header_output := header_of_image (replicate 44 x00);
                 output_file := [] |}
              [1; -2; 3])
    as (f' & Hw & _ & H2 & H1 & _).
  { unfold sizeof_short, INT_MAX. simpl. lia. }
  exists f'. split; [exact Hw |]. split; [exact H2 |].
  rewrite H1, H2. reflexivity.
Defined.

(* ====================================================================== *)
(** ** The order of the float comparisons *)

Lemma flt_not_nan (a b : spec_float) : flt a b = true -> not_nan a /\ not_nan b.
Proof.
  unfold flt, SFltb, not_nan. destruct a, b; simpl; try discriminate; done.
Qed.

Lemma flt_lex (a b : spec_float) :
  not_nan a -> not_nan b -> (flt a b = true <-> lex_lt (key a) (key b)).
Proof.
  unfold not_nan, flt, SFltb, SFcompare, lex_lt, key.
  intros Ha Hb.
  destruct a as [[]|[]| |[] m1 e1], b as [[]|[]| |[] m2 e2];
    try done; try (split; [discriminate | lia]); try (split; [lia | lia]);
    try (split; [intros _; lia | done]).
  - destruct (Z.compare_spec e1 e2) as [->|He|He]; simpl;
      [| split; [discriminate | lia] | split; [intros _; lia | done]].
    change (Pos.compare_cont Eq m1 m2) with (Pos.compare m1 m2).
    destruct (Pos.compare_spec m1 m2) as [->|Hm|Hm]; simpl;
      [split; [discriminate | lia] | split; [discriminate | lia] | split; [intros _; lia | done]].
  - destruct (Z.compare_spec e1 e2) as [->|He|He]; simpl;
      [| split; [intros _; lia | done] | split; [discriminate | lia]].
    change (Pos.compare_cont Eq m1 m2) with (Pos.compare m1 m2).
    destruct (Pos.compare_spec m1 m2) as [->|Hm|Hm]; simpl;
      [split; [discriminate | lia] | split; [intros _; lia | done] | split; [discriminate | lia]].
Qed.

Lemma flt_false_lex (a b : spec_float) :
  not_nan a -> not_nan b -> (flt a b = false <-> ~ lex_lt (key a) (key b)).
Proof.
  intros Ha Hb. rewrite <- (flt_lex a b Ha Hb).
  destruct (flt a b); split; try done; intros H; by destruct H.
Qed.

Ltac to_keys :=
  repeat match goal with
  | H : flt ?a ?b = true |- _ => apply flt_lex in H; [| assumption | assumption]
  | H : flt ?a ?b = false |- _ => apply flt_false_lex in H; [| assumption | assumption]
  end;
  try match goal with
  | |- flt ?a ?b = true => apply flt_lex; [assumption | assumption |]
  | |- flt ?a ?b = false => apply flt_false_lex; [assumption | assumption |]
  end;
  unfold lex_lt in *;
  repeat match goal with
  | H : context [key ?a] |- _ => destruct (key a) as [[? ?] ?]
  | |- context [key ?a] => destruct (key a) as [[? ?] ?]
  end.

Lemma flt_irrefl (a : spec_float) : flt a a = false.
Proof.
  destruct a as [[]|[]| |[] m e]; try done;
    unfold flt, SFltb, SFcompare; rewrite Z.compare_refl;
    change (Pos.compare_cont Eq m m) with (Pos.compare m m);
    by rewrite Pos.compare_refl.
Qed.

Lemma flt_trans (a b c : spec_float) :
  flt a b = true -> flt b c = true -> flt a c = true.
Proof.
  intros Hab Hbc.
  destruct (flt_not_nan _ _ Hab) as [Ha Hb], (flt_not_nan _ _ Hbc) as [_ Hc].
  to_keys. lia.
Qed.

Lemma flt_asym (a b : spec_float) : flt a b = true -> flt b a = false.
Proof.
  intros Hab. destruct (flt_not_nan _ _ Hab) as [Ha Hb]. to_keys. lia.
Qed.

(** [b <= a < c] gives [b < c]. *)
Lemma flt_le_lt (a b c : spec_float) :
  not_nan b -> flt a b = false -> flt a c = true -> flt b c = true.
Proof.
  intros Hb Hab Hac. destruct (flt_not_nan _ _ Hac) as [Ha Hc]. to_keys. lia.
Qed.

(** Two values neither of which is below the other have the same key. *)
Lemma flt_total (a b : spec_float) :
  not_nan a -> not_nan b -> flt a b = false -> flt b a = false -> key a = key b.
Proof.
  intros Ha Hb Hab Hba. to_keys.
  assert (z = z2 /\ z0 = z3 /\ z1 = z4) as (-> & -> & ->) by lia. done.
Qed.

Lemma key_eq_fabs (a b : spec_float) :
  key a = key b -> fabs (double_of_float a) = fabs (double_of_float b).
Proof.
  unfold key.
  destruct a as [[]|[]| |[] m1 e1], b as [[]|[]| |[] m2 e2]; intros H;
    try discriminate H; try reflexivity.
  - injection H as He Hm. assert (e1 = e2) as -> by lia.
    assert (m1 = m2) as -> by lia. done.
  - injection H as He Hm. by subst.
Qed.

Lemma within_sentinels_not_nan (v : float) : within_sentinels v -> not_nan v.
Proof. intros [H _]. by destruct (flt_not_nan _ _ H). Qed.

(* ====================================================================== *)
(** ** The scan of [largestSampleIn] against the true extrema *)

Lemma highest_scan_step (v : float) (s : scan) :
  highest (scan_step v s) = max_step (highest s) v.
Proof.
  unfold scan_step, max_step.
  destruct (fgt v (highest s)), (flt v (lowest s)),
    (fgt (double_of_float v) d_1_0 || flt (double_of_float v) (SFopp d_1_0)); done.
Qed.

Lemma lowest_scan_step (v : float) (s : scan) :
  lowest (scan_step v s) =
  if fgt v (highest s) then lowest s
  else if flt v (lowest s) then v else lowest s.
Proof.
  unfold scan_step.
  destruct (fgt v (highest s)), (flt v (lowest s)),
    (fgt (double_of_float v) d_1_0 || flt (double_of_float v) (SFopp d_1_0)); done.
Qed.

Lemma highest_scan_fold (r : list float) (s : scan) :
  highest (foldl (fun s v => scan_step v s) s r) = foldl max_step (highest s) r.
Proof.
  revert s. induction r as [|v r IH]; intros s; simpl; [done |].
  by rewrite IH, highest_scan_step.
Qed.

Lemma lowest_inv_step (v0 w : float) (seen : list float) (s : scan) :
  not_nan v0 -> Forall not_nan seen -> not_nan w ->
  lowest_inv v0 seen s -> lowest_inv v0 (seen ++ [w]) (scan_step w s).
Proof.
  intros Hv0 Hseen Hw (Hhi & Hlo & Ha & Hb & Hc).
  unfold lowest_inv. rewrite highest_scan_step, lowest_scan_step. unfold max_step, fgt.
  change (SFltb (highest s) w) with (flt (highest s) w).
  destruct (flt (highest s) w) eqn:Hhw.
  - (* a new maximum: [lowest] is not compared *)
    assert (Hv0w : flt v0 w = true) by (by apply (flt_le_lt (highest s))).
    repeat split; try done.
    + by apply flt_asym.
    + destruct Hb as [Hb|Hb]; [by left | right]. apply elem_of_app. by left.
    + intros w' [Hw'|Hw']%elem_of_app Hle; [by apply Hc |].
      apply list_elem_of_singleton in Hw' as ->. congruence.
  - destruct (flt w (lowest s)) eqn:Hwl.
    + repeat split; try done.
      * right. apply elem_of_app. right. by apply list_elem_of_singleton.
      * intros w' [Hw'|Hw']%elem_of_app Hle.
        -- destruct (flt w' w) eqn:Hw'w; [|done].
           pose proof (flt_trans _ _ _ Hw'w Hwl) as Ht.
           rewrite (Hc w' Hw' Hle) in Ht. done.
        -- apply list_elem_of_singleton in Hw' as ->. apply flt_irrefl.
    + repeat split; try done.
      * destruct Hb as [Hb|Hb]; [by left | right]. apply elem_of_app. by left.
      * intros w' [Hw'|Hw']%elem_of_app Hle; [by apply Hc |].
        apply list_elem_of_singleton in Hw' as ->. done.
Qed.

Lemma lowest_inv_fold (v0 : float) (r seen : list float) (s : scan) :
  not_nan v0 -> Forall not_nan seen -> Forall not_nan r ->
  lowest_inv v0 seen s ->
  lowest_inv v0 (seen ++ r) (foldl (fun s v => scan_step v s) s r).
Proof.
  intros Hv0. revert seen s.
  induction r as [|w r IH]; intros seen s Hseen Hr Hinv; simpl.
  - by rewrite app_nil_r.
  - apply Forall_cons in Hr as [Hw Hr].
    replace (seen ++ w :: r) with ((seen ++ [w]) ++ r) by (by rewrite <- app_assoc).
    apply IH; [| done |].
    + apply Forall_app. split; [done |]. by apply Forall_singleton.
    + by apply lowest_inv_step.
Qed.

Lemma scan_first_sample (v0 : float) :
  within_sentinels v0 ->
  highest (scan_step v0 scan_init) = v0 /\
  lowest (scan_step v0 scan_init) = sentinel_high.
Proof.
  intros [Hlo Hhi].
  rewrite highest_scan_step, lowest_scan_step. unfold max_step, fgt.
  change (highest scan_init) with sentinel_low.
  change (SFltb sentinel_low v0) with (flt sentinel_low v0).
  rewrite Hlo. done.
Qed.

(** [a <= b <= c] gives [a <= c]. *)
Lemma fle_trans (a b c : spec_float) :
  not_nan a -> not_nan b -> not_nan c ->
  flt b a = false -> flt c b = false -> flt c a = false.
Proof. intros Ha Hb Hc Hab Hbc. to_keys. lia. Qed.

(** The minimum is a sample, and no sample is below it. *)
Lemma min_fold_spec (r : list float) :
  forall a, not_nan a -> Forall not_nan r ->
    not_nan (foldl min_step a r) /\
    (foldl min_step a r = a \/ foldl min_step a r ∈ r) /\
    flt a (foldl min_step a r) = false /\
    (forall v, v ∈ r -> flt v (foldl min_step a r) = false).
Proof.
  induction r as [|w r IH]; intros a Ha Hr; simpl.
  - repeat split; [done | by left | apply flt_irrefl | intros v Hv; by apply elem_of_nil in Hv].
  - apply Forall_cons in Hr as [Hw Hr].
    assert (Ha' : not_nan (min_step a w)) by (unfold min_step; by destruct (flt w a)).
    destruct (IH (min_step a w) Ha' Hr) as (Hm & Hin & Hle & Hall).
    assert (Haa : flt a (min_step a w) = false).
    { unfold min_step. destruct (flt w a) eqn:Hwa; [by apply flt_asym | apply flt_irrefl]. }
    assert (Hwa' : flt w (min_step a w) = false).
    { unfold min_step. destruct (flt w a) eqn:Hwa; [apply flt_irrefl | done]. }
    repeat split; [done | | |].
    + destruct Hin as [Hin|Hin]; [| right; by apply elem_of_cons; right].
      rewrite Hin. unfold min_step. destruct (flt w a); [right; apply elem_of_cons|]; by left.
    + by apply (fle_trans _ (min_step a w)).
    + intros v [->|Hv]%elem_of_cons; [| by apply Hall].
      by apply (fle_trans _ (min_step a w)).
Qed.

(** When a smallest sample stands behind the first one, the scan returns the
    scale of the design. *)
Lemma largest_of_amended (v0 : float) (r : list float) (w : float) :
  Forall within_sentinels (v0 :: r) ->
  w ∈ r -> (forall v, v ∈ v0 :: r -> flt v w = false) ->
  largest_of (v0 :: r) = amended_scale (v0 :: r).
Proof.
  intros Hall Hw Hmin.
  assert (Hnn : Forall not_nan (v0 :: r)).
  { eapply Forall_impl; [exact Hall |]. apply within_sentinels_not_nan. }
  apply Forall_cons in Hall as [Hv0 Hr].
  apply Forall_cons in Hnn as [Hn0 Hnr].
  destruct (scan_first_sample v0 Hv0) as [Hh1 Hl1].
  set (s1 := scan_step v0 scan_init) in *.
  assert (Hinv1 : lowest_inv v0 [] s1).
  { unfold lowest_inv. rewrite Hh1, Hl1. repeat split.
    - done.
    - by vm_compute.
    - apply flt_irrefl.
    - by left.
    - intros w' Hw'. by apply elem_of_nil in Hw'. }
  pose proof (lowest_inv_fold v0 r [] s1 Hn0 (Forall_nil_2 _) Hnr Hinv1) as Hinv.
  simpl in Hinv.
  set (s := foldl (fun s v => scan_step v s) s1 r) in *.
  destruct Hinv as (Hhi & Hlo & _ & Hb & Hc).
  assert (Hww : within_sentinels w) by (by eapply Forall_forall in Hr).
  assert (Hnw : not_nan w) by (by apply within_sentinels_not_nan).
  assert (Hv0w : flt v0 w = false) by (apply Hmin, elem_of_cons; by left).
  pose proof (Hc w Hw Hv0w) as Hwl.
  assert (Hlr : lowest s ∈ r).
  { destruct Hb as [Hb|Hb]; [| done].
    rewrite Hb in Hwl. destruct Hww as [_ Hws]. congruence. }
  assert (Hkey_lo : key (lowest s) = key w).
  { apply flt_total; [done | done | | done].
    apply Hmin, elem_of_cons. by right. }
  destruct (min_fold_spec r v0 Hn0 Hnr) as (Hnm & Hmin_in & Hm0 & Hmall).
  assert (Hkey_m : key (minSample (v0 :: r)) = key w).
  { simpl. apply flt_total; [done | done | | by apply Hmall].
    apply Hmin. destruct Hmin_in as [->|Hin]; apply elem_of_cons; [by left | by right]. }
  assert (Hhigh : highest s = maxSample (v0 :: r)).
  { unfold s. rewrite highest_scan_fold, Hh1. done. }
  unfold largest_of, amended_scale, scan_result.
  change (scan_of (v0 :: r)) with s.
  rewrite Hhigh.
  rewrite (key_eq_fabs (lowest s) (minSample (v0 :: r))) by congruence.
  done.
Qed.

(** C3 (amended).  For every sequence y whose samples lie strictly between
    the sentinels -9999999 and 9999999 and which has a smallest sample at an
    index >= 1, the renormalizer divides every sample by max(y) + 1e-6 if
    max(y) > abs(min(y)) and by abs(min(y)) otherwise, and afterwards
    decrements by 1e-6 every sample that is still > 0.999999. *)
Theorem renormalize_by_design (y : list float) (i : nat) (w : float) :
  Forall within_sentinels y ->
  (1 <= i)%nat -> y !! i = Some w ->
  (forall v, v ∈ y -> flt v w = false) ->
  scaleValuesToRangeOfPlusMinus1 y (Z.of_nat (length y)) = Some (renormalize_amended y).
Proof.
  intros Hall Hi Hw Hmin.
  rewrite scaleValuesToRangeOfPlusMinus1_spec. f_equal.
  unfold renormalize, renormalize_amended.
  destruct y as [|v0 r]; [done |].
  destruct i as [|i]; [lia |]. simpl in Hw.
  rewrite (largest_of_amended v0 r w); [done | done | | done].
  by eapply list_elem_of_lookup_2.
Qed.

Lemma renormalize_by_design_witness :
  scaleValuesToRangeOfPlusMinus1 [float_of_sample 8192; float_of_sample (-16384)] 2
  = Some (renormalize_amended [float_of_sample 8192; float_of_sample (-16384)]).
Proof.
  apply (renormalize_by_design
           [float_of_sample 8192; float_of_sample (-16384)] 1 (float_of_sample (-16384))).
  - repeat constructor.
  - lia.
  - reflexivity.
  - intros v Hv.
    apply elem_of_cons in Hv as [->|Hv]; [reflexivity |].
    apply elem_of_cons in Hv as [->|Hv]; [reflexivity |].
    by apply elem_of_nil in Hv.
Defined.

(* ====================================================================== *)
(** ** Renormalizer: what the program does on concrete inputs *)

(** C2 (on the failing input).  The samples -16384, 4096, -4096 convolved
    with the single impulse sample 16384: the raw result is
    -0.25, 0.0625, -0.0625; the scan takes 0.0625 for the largest magnitude,
    because the first sample is never compared with [lowest]; the first
    output sample is -4.0, below -1.0. *)
Theorem convolve_leaves_range :
  convolve (map float_of_sample [-16384; 4096; -4096]) 3 [float_of_sample 16384] 1
           [S754_nan; S754_nan; S754_nan] 3
  = Some [S754_finite true 8388608 (-21);
          S754_finite false 16777199 (-24);
          S754_finite true 8388608 (-23)] /\
  double_of_float (S754_finite true 8388608 (-21)) = double_of_int (-4) /\
  flt (double_of_float (S754_finite true 8388608 (-21))) (SFopp d_1_0) = true.
Proof. vm_compute. auto. Qed.

(** The same defect on the whole pipeline: no defined output exists, the
    conversion of -4.0 * 32768.0 to [short] being out of range. *)
Lemma pipeline_on_out_of_range_sample :
  createOutputFile 0 S754_nan 1
    (open_files (wav_bytes [-16384; 4096; -4096]) (wav_bytes [16384])) = None.
Proof. vm_compute. reflexivity. Qed.

(** A second way out of the range: a silent input of two samples or more
    has peak 0, and 0 / 0 is a NaN. *)
Lemma convolve_of_silence :
  convolve (map float_of_sample [0; 0]) 2 [float_of_sample 16384] 1
           [S754_nan; S754_nan] 2
  = Some [S754_nan; S754_nan].
Proof. vm_compute. reflexivity. Qed.

(** C8 (on the failing input).  With x = 16384, 4, 16384 and
    h = -16384, 4, 16384 (as samples) the raw sums of index 2 are 0 in one
    order and 2^-26 in the other; the scan then returns 0.250001 for one
    and 9999999 for the other, and the last output samples are about
    0.999996 and 0.000000025. *)
Theorem convolve_not_commutative :
  convolve (map float_of_sample [16384; 4; 16384]) 3
           (map float_of_sample [-16384; 4; 16384]) 3 (replicate 5 S754_nan) 5
  = Some [S754_finite true 16777148 (-24); S754_zero false; S754_zero false;
          S754_finite false 16777148 (-35); S754_finite false 16777148 (-24)] /\
  convolve (map float_of_sample [-16384; 4; 16384]) 3
           (map float_of_sample [16384; 4; 16384]) 3 (replicate 5 S754_nan) 5
  = Some [S754_finite true 14073750 (-49); S754_zero false;
          S754_finite false 14073750 (-73); S754_finite false 14073750 (-60);
          S754_finite false 14073750 (-49)] /\
  fgt (double_of_float (S754_finite false 16777148 (-24))) d_0_999999 = false /\
  fgt (double_of_float (S754_finite false 16777148 (-24)))
      (f64_sub d_0_999999 (f64_mul (double_of_int 10) d_0_000001)) = true /\
  flt (double_of_float (S754_finite false 14073750 (-49))) d_0_000001 = true.
Proof. vm_compute. auto 10. Qed.

(** The raw sums of the two orders on that input. *)
Lemma convolve_raw_orders :
  convolve_raw (map float_of_sample [16384; 4; 16384]) 3
               (map float_of_sample [-16384; 4; 16384]) 3 (replicate 5 S754_nan) 5
  = Some [S754_finite true 8388608 (-25); S754_zero false; S754_zero false;
          S754_finite false 8388608 (-36); S754_finite false 8388608 (-25)] /\
  convolve_raw (map float_of_sample [-16384; 4; 16384]) 3
               (map float_of_sample [16384; 4; 16384]) 3 (replicate 5 S754_nan) 5
  = Some [S754_finite true 8388608 (-25); S754_zero false;
          S754_finite false 8388608 (-49); S754_finite false 8388608 (-36);
          S754_finite false 8388608 (-25)].
Proof. vm_compute. auto. Qed.

(** C7 (counterexample).  A one-sample input and an impulse response without
    samples: P = 0 reaches the renormalizer, which returns the empty
    sequence, and the pipeline writes its 44-byte header with data length
    0. *)
Lemma empty_sequence_is_written :
  scaleValuesToRangeOfPlusMinus1 [] 0 = Some [] /\
  exists f',
    createOutputFile 0 S754_nan 1 (open_files (wav_bytes [16384]) (wav_bytes [])) = Some f' /\
    length (output_file f') = 44%nat /\
    subchunk2_size (header_output f') = 0 /\
    output_file f' = header_image (header_output f').
Proof.
  split; [reflexivity |].
  eexists. split; [vm_compute; reflexivity |]. vm_compute. auto.
Qed.

(** C3 (counterexample).  On y = 0.25, -0.5 the maximum is positive, so the
    words of the specification scale by 0.5 + 1e-6; the program scales by
    0.5 and returns 0.5, -1.0. *)
Lemma renormalize_differs_from_spec :
  scaleValuesToRangeOfPlusMinus1 [float_of_sample 8192; float_of_sample (-16384)] 2
  = Some [float_of_sample 16384; float_of_sample (-32768)] /\
  renormalize_spec [float_of_sample 8192; float_of_sample (-16384)]
  = [S754_finite false 16777182 (-25); S754_finite true 16777182 (-24)] /\
  renormalize_spec [float_of_sample 8192; float_of_sample (-16384)]
  <> [float_of_sample 16384; float_of_sample (-32768)].
Proof. vm_compute. split; [done | split; [done | discriminate]]. Qed.

(* ====================================================================== *)
(** ** ChunkLocator: the scan *)

Section Locator.
Local Open Scope nat_scope.

Lemma remaining_nil (f : FILE) : remaining f = [] -> contents f !! pos f = None.
Proof.
  unfold remaining. intros H. apply lookup_ge_None.
  apply (f_equal length) in H. rewrite length_drop in H. simpl in H. lia.
Qed.

Lemma remaining_cons (f : FILE) (b : byte) (r : list byte) :
  remaining f = b :: r ->
  contents f !! pos f = Some b /\
  remaining {| contents := contents f; pos := pos f + 1 |} = r.
Proof.
  unfold remaining. simpl. intros H. split.
  - rewrite <- (Nat.add_0_r (pos f)), <- lookup_drop, H. done.
  - rewrite <- drop_drop, H. done.
Qed.

(** The inner loop on a stream is the inner loop on its remaining bytes. *)
Lemma tag_attempt_from_on (k : nat) :
  forall i id f,
    exists f',
      tag_attempt_from k i id f = (fst (tag_attempt_on k i id (remaining f)), f') /\
      contents f' = contents f /\
      remaining f' = snd (tag_attempt_on k i id (remaining f)).
Proof.
  induction k as [|k IH]; intros i id f; simpl.
  - by exists f.
  - unfold fread_char. destruct (remaining f) as [|b r] eqn:Hr.
    + rewrite (remaining_nil f Hr).
      case_decide.
      * exists f. by rewrite Hr.
      * destruct (IH (i + 1) id f) as (f' & Hf' & Hc & Hrem).
        exists f'. by rewrite Hr in *.
    + destruct (remaining_cons f b r Hr) as [Hb Hr'].
      rewrite Hb. case_decide.
      * eexists. split; [done |]. done.
      * destruct (IH (i + 1) (char4_set id i b)
                     {| contents := contents f; pos := pos f + 1 |})
          as (f' & Hf' & Hc & Hrem).
        exists f'. rewrite Hr' in *. done.
Qed.

(** One run of the inner loop on the remaining bytes: it consumes a prefix,
    at least one byte unless the stream is at its end, and it can only
    complete the tag by reading the four tag bytes or by running into the
    end of the stream. *)
Lemma tag_attempt_on_cases (id : char4) (bs : list byte) :
  exists j,
    snd (tag_attempt_on 4 0 id bs) = drop j bs /\
    (bs <> [] -> 1 <= j) /\
    (bs = [] -> fst (tag_attempt_on 4 0 id bs) = id) /\
    (is_data (fst (tag_attempt_on 4 0 id bs)) = true ->
     snd (tag_attempt_on 4 0 id bs) = [] \/
     exists post, bs = char4_bytes data_tag ++ post).
Proof.
  destruct id as [i0 i1 i2 i3].
  destruct bs as [|b0 [|b1 [|b2 [|b3 bs]]]]; simpl;
    repeat (case_decide; simpl);
    first [ exists 0; by auto 10
          | exists 1; split; [done | split; [intros; lia | split; [done | ]]]
          | exists 2; split; [done | split; [intros; lia | split; [done | ]]]
          | exists 3; split; [done | split; [intros; lia | split; [done | ]]]
          | exists 4; split; [done | split; [intros; lia | split; [done | ]]] ].
  all: unfold is_data; simpl; intros Hd;
    repeat (apply andb_true_iff in Hd as [Hd ?]);
    repeat match goal with
           | H : bool_decide _ = true |- _ => apply bool_decide_eq_true in H
           end;
    subst; try done; try (by left); try (right; by eexists).
Qed.

Lemma tag_attempt_from_eof (k : nat) :
  forall i id f, remaining f = [] -> tag_attempt_from k i id f = (id, f).
Proof.
  induction k as [|k IH]; intros i id f Hf; simpl; [done |].
  unfold fread_char. rewrite (remaining_nil f Hf).
  case_decide; [done |]. by apply IH.
Qed.

(** At the end of the stream the loop repeats without any change. *)
Lemma scan_stuck_at_eof (id : char4) (f : FILE) :
  remaining f = [] -> is_data id = false ->
  forall fuel, scan_for_data fuel id f = None.
Proof.
  intros Hf Hid fuel. induction fuel as [|fuel IH]; simpl; rewrite Hid; [done |].
  unfold tag_attempt. rewrite tag_attempt_from_eof by done. done.
Qed.

Lemma scan_for_data_step (fuel : nat) (id : char4) (f : FILE) :
  is_data id = false ->
  scan_for_data (S fuel) id f
  = scan_for_data fuel (fst (tag_attempt id f)) (snd (tag_attempt id f)).
Proof. intros Hid. simpl. rewrite Hid. by destruct (tag_attempt id f). Qed.

Lemma scan_for_data_found (fuel : nat) (id : char4) (f : FILE) :
  is_data id = true -> scan_for_data fuel id f = Some (id, f).
Proof. intros Hid. destruct fuel; simpl; by rewrite Hid. Qed.

Lemma scan_for_data_mono (k n : nat) :
  forall id f r, scan_for_data k id f = Some r -> scan_for_data (k + n) id f = Some r.
Proof.
  induction k as [|k IH]; intros id f r Hr.
  - simpl in Hr. destruct (is_data id) eqn:Hid; [| done].
    by rewrite scan_for_data_found.
  - destruct (is_data id) eqn:Hid.
    + rewrite scan_for_data_found in * by done. done.
    + change (S k + n) with (S (k + n)).
      rewrite scan_for_data_step in * by done. by apply IH.
Qed.

Lemma scan_for_data_add (k n : nat) :
  forall id f,
    scan_for_data k id f = None ->
    scan_for_data (k + n) id f
    = scan_for_data n (fst (attempts k id f)) (snd (attempts k id f)).
Proof.
  induction k as [|k IH]; intros id f Hk; [done |].
  destruct (is_data id) eqn:Hid.
  - by rewrite scan_for_data_found in Hk.
  - change (S k + n) with (S (k + n)).
    rewrite scan_for_data_step in * by done.
    rewrite IH by done. simpl. by destruct (tag_attempt id f).
Qed.

(** A scan that has used up the stream after [k] runs of the inner loop
    without a match never ends. *)
Lemma scan_diverges_from_eof (k : nat) (id : char4) (f : FILE) :
  scan_for_data k id f = None ->
  remaining (snd (attempts k id f)) = [] ->
  forall fuel, scan_for_data fuel id f = None.
Proof.
  intros Hk Heof fuel.
  destruct (Nat.le_gt_cases k fuel) as [Hle|Hgt].
  - replace fuel with (k + (fuel - k)) by lia.
    rewrite scan_for_data_add by done.
    apply scan_stuck_at_eof; [done |].
    pose proof (scan_for_data_add k 0 id f Hk) as H0.
    rewrite Nat.add_0_r, Hk in H0. simpl in H0.
    by destruct (is_data (attempts k id f).1).
  - destruct (scan_for_data fuel id f) as [r|] eqn:Hf; [| done].
    apply (scan_for_data_mono fuel (k - fuel)) in Hf.
    replace (fuel + (k - fuel)) with k in Hf by lia. congruence.
Qed.

Lemma tag_occurs_drop (j : nat) (bs : list byte) :
  tag_occurs (drop j bs) -> tag_occurs bs.
Proof.
  intros (pre & post & H). exists (take j bs ++ pre), post.
  rewrite <- app_assoc, <- H. by rewrite take_drop.
Qed.

Lemma has_tag_spec (bs : list byte) : tag_occurs bs <-> has_tag bs = true.
Proof.
  split.
  - intros (pre & post & ->). induction pre as [|b pre IH].
    + by destruct post.
    + simpl. simpl in IH. rewrite IH. by rewrite orb_true_r.
  - induction bs as [|b bs IH].
    + done.
    + change (has_tag (b :: bs))
        with (bool_decide (take 4 (b :: bs) = char4_bytes data_tag) || has_tag bs).
      intros [H|H]%orb_true_iff.
      * apply bool_decide_eq_true in H.
        exists [], (drop 4 (b :: bs)). rewrite <- H.
        symmetry. apply (take_drop 4 (b :: bs)).
      * destruct (IH H) as (pre & post & ->). by exists (b :: pre), post.
Qed.

(** On a stream without the tag the scan either never ends or ends at the
    end of the stream. *)
Lemma scan_without_tag (n : nat) :
  forall id f,
    length (remaining f) <= n ->
    ~ tag_occurs (remaining f) ->
    is_data id = false \/ remaining f = [] ->
    (forall fuel, scan_for_data fuel id f = None) \/
    (exists fuel id' f',
        scan_for_data fuel id f = Some (id', f') /\
        is_data id' = true /\
        remaining f' = [] /\ contents f' = contents f).
Proof.
  induction n as [|n IH]; intros id f Hlen Hno Hstart.
  - assert (Hnil : remaining f = []) by (apply length_zero_iff_nil; lia).
    destruct (is_data id) eqn:Hid.
    + right. exists 0, id, f. by rewrite scan_for_data_found.
    + left. by apply scan_stuck_at_eof.
  - destruct (is_data id) eqn:Hid.
    { right. exists 0, id, f. rewrite scan_for_data_found by done.
      destruct Hstart; done. }
    destruct (remaining f) as [|b r] eqn:Hr.
    { left. by apply scan_stuck_at_eof. }
    destruct (tag_attempt_from_on 4 0 id f) as (f1 & Hatt & Hc1 & Hrem1).
    fold (tag_attempt id f) in Hatt.
    destruct (tag_attempt_on_cases id (remaining f)) as (j & Hdrop & Hj & _ & Hdata).
    rewrite Hr in *.
    set (id1 := fst (tag_attempt_on 4 0 id (b :: r))) in *.
    assert (Hj1 : 1 <= j) by (by apply Hj).
    destruct (IH id1 f1) as [Hdiv|(fuel & id' & f' & Hscan & Hid' & Heof & Hc)].
    + rewrite Hrem1, Hdrop, length_drop. simpl in *. lia.
    + rewrite Hrem1, Hdrop. intros Hocc. apply Hno. by apply (tag_occurs_drop j).
    + destruct (is_data id1) eqn:Hid1; [| by left].
      right. destruct (Hdata eq_refl) as [Hnil|(post & Hpost)].
      * by rewrite Hrem1.
      * destruct Hno. exists [], post. done.
    + left. intros [|fuel]; [simpl; by rewrite Hid |].
      rewrite scan_for_data_step by done. rewrite Hatt. simpl. apply Hdiv.
    + right. exists (S fuel), id', f'.
      rewrite scan_for_data_step by done. rewrite Hatt. simpl.
      split; [done |]. split; [done |]. split; [done | congruence].
Qed.

Lemma fread_bytes_spec (n : nat) (f : FILE) :
  fst (fread_bytes n f) = take n (remaining f) /\
  contents (snd (fread_bytes n f)) = contents f /\
  remaining (snd (fread_bytes n f)) = drop n (remaining f).
Proof.
  unfold fread_bytes, remaining. simpl. split; [done |]. split; [done |].
  rewrite <- drop_drop, length_take.
  destruct (decide (n <= length (drop (pos f) (contents f)))).
  - by rewrite Nat.min_l by lia.
  - rewrite Nat.min_r by lia. rewrite !drop_ge; [done | lia | lia].
Qed.

Lemma fseek_set_contents (f : FILE) (off : Z) : contents (fseek_set f off) = contents f.
Proof. unfold fseek_set. by case_decide. Qed.

Lemma read_header_block_contents (i : Input) :
  contents (stream (read_header_block i)) = contents (stream i).
Proof. unfold read_header_block, fread_bytes. simpl. done. Qed.

Lemma skip_junk_contents (i : Input) :
  contents (stream (skip_junk i)) = contents (stream i).
Proof.
  unfold skip_junk, fseek_cur, fseek_set. repeat case_decide; done.
Qed.

(** After the first window was read, the tag is in the buffer only if the
    stream holds it, or else the stream is at its end. *)
Lemma read_subchunk2_id_cases (i : Input) :
  contents (stream (read_subchunk2_id i)) = contents (stream i) /\
  (exists j, remaining (stream (read_subchunk2_id i)) = drop j (remaining (stream i))) /\
  (is_data (subchunk2_id (header (read_subchunk2_id i))) = true ->
   remaining (stream (read_subchunk2_id i)) = [] \/ tag_occurs (remaining (stream i))).
Proof.
  unfold read_subchunk2_id.
  destruct (fread_bytes_spec 4 (stream i)) as (Hbs & Hc & Hr).
  destruct (fread_bytes 4 (stream i)) as [bs f]. simpl in *.
  split; [done |]. split; [by exists 4 |].
  rewrite Hr, Hbs.
  destruct (subchunk2_id (header i)) as [i0 i1 i2 i3].
  destruct (remaining (stream i)) as [|b0 [|b1 [|b2 [|b3 rest]]]]; simpl; auto.
  unfold is_data. simpl. intros Hd. right.
  repeat (apply andb_true_iff in Hd as [Hd ?]).
  repeat match goal with
         | H : bool_decide _ = true |- _ => apply bool_decide_eq_true in H
         end.
  subst. by exists [], rest.
Qed.

Lemma remaining_at_eof_after_read (n : nat) (f : FILE) :
  remaining f = [] -> remaining (snd (fread_bytes n f)) = [].
Proof.
  intros Hf. destruct (fread_bytes_spec n f) as (_ & _ & ->). rewrite Hf. by destruct n.
Qed.

End Locator.

(** Where the scan does find the tag: behind bytes none of which is a d.
    (A d among them starts a partial match, and the byte that ends the
    partial match is lost for the search.) *)
Lemma scan_finds_tag (meta post : list byte) :
  forall (id : char4) (f : FILE),
    remaining f = meta ++ char4_bytes data_tag ++ post ->
    Forall (fun b => b <> "d"%byte) meta ->
    is_data id = false ->
    exists fuel f',
      scan_for_data fuel id f = Some (data_tag, f') /\
      remaining f' = post /\ contents f' = contents f.
Proof.
  induction meta as [|b meta IH]; intros id f Hrem Hmeta Hid.
  - destruct (tag_attempt_from_on 4 0 id f) as (f1 & Hatt & Hc1 & Hrem1).
    fold (tag_attempt id f) in Hatt.
    rewrite Hrem in Hatt, Hrem1. destruct id as [i0 i1 i2 i3].
    exists 1%nat, f1. rewrite scan_for_data_step by done.
    rewrite Hatt. simpl. done.
  - apply Forall_cons in Hmeta as [Hb Hmeta].
    destruct (tag_attempt_from_on 4 0 id f) as (f1 & Hatt & Hc1 & Hrem1).
    fold (tag_attempt id f) in Hatt.
    rewrite Hrem in Hatt, Hrem1. destruct id as [i0 i1 i2 i3].
    simpl in Hatt, Hrem1. rewrite decide_True in Hatt, Hrem1 by done.
    simpl in Hatt, Hrem1.
    destruct (IH (Char4 b i1 i2 i3) f1 Hrem1 Hmeta) as (fuel & f' & Hscan & Hpost & Hc).
    { unfold is_data. simpl. by rewrite bool_decide_eq_false_2. }
    exists (S fuel), f'. rewrite scan_for_data_step by done.
    rewrite Hatt. simpl. split; [done |]. split; [done | congruence].
Qed.

Lemma remaining_at (bs1 bs2 : list byte) :
  remaining {| contents := bs1 ++ bs2; pos := length bs1 |} = bs2.
Proof. unfold remaining. simpl. by rewrite drop_app_length. Qed.

Lemma header_image_length (h : WavHeader) : length (header_image h) = 44%nat.
Proof. reflexivity. Qed.

(** The leading block is read whole from a stream that holds 44 bytes, and
    the stream is then positioned behind its 36 bytes. *)
Lemma read_header_block_spec (h0 : WavHeader) (blk tail : list byte) :
  length blk = 36%nat -> (8 <= length tail)%nat ->
  stream (read_header_block {| stream := {| contents := blk ++ tail; pos := 0 |};
                               header := h0 |})
  = {| contents := blk ++ tail; pos := 36 |} /\
  subchunk1_size
    (header (read_header_block {| stream := {| contents := blk ++ tail; pos := 0 |};
                                  header := h0 |}))
  = le_int (slice 16 4 blk).
Proof.
  intros Hblk Htail.
  do 36 (destruct blk as [|? blk]; [discriminate Hblk |]).
  destruct blk; [| discriminate Hblk].
  do 8 (destruct tail as [|? tail]; [simpl in Htail; lia |]).
  split; reflexivity.
Qed.

Lemma skip_junk_spec (h1 : WavHeader) (blk junk tail : list byte) :
  length blk = 36%nat ->
  subchunk1_size h1 = 16 + Z.of_nat (length junk) ->
  16 + Z.of_nat (length junk) <= INT_MAX ->
  remaining (stream (skip_junk {| stream := {| contents := blk ++ junk ++ tail; pos := 36 |};
                                  header := h1 |})) = tail /\
  header (skip_junk {| stream := {| contents := blk ++ junk ++ tail; pos := 36 |};
                       header := h1 |}) = h1.
Proof.
  intros Hblk Hsub Hmax. unfold skip_junk. simpl. rewrite Hsub.
  case_decide as Hj; simpl.
  - split; [| done].
    rewrite wrap32_id by (unfold is_int, INT_MIN, INT_MAX in *; lia).
    unfold fseek_cur, fseek_set. simpl. rewrite decide_True by lia.
    match goal with
    | |- context [Z.to_nat ?z] =>
        replace (Z.to_nat z) with (length (blk ++ junk)) by (rewrite length_app; lia)
    end.
    rewrite app_assoc. apply remaining_at.
  - split; [| done].
    assert (junk = []) as -> by (apply length_zero_iff_nil; lia).
    simpl. rewrite <- Hblk. apply remaining_at.
Qed.

Lemma fread_bytes_4 (f : FILE) (b0 b1 b2 b3 : byte) (r : list byte) :
  remaining f = b0 :: b1 :: b2 :: b3 :: r ->
  exists f', fread_bytes 4 f = ([b0; b1; b2; b3], f') /\ remaining f' = r.
Proof.
  intros Hf. destruct (fread_bytes_spec 4 f) as (Hbs & _ & Hr).
  destruct (fread_bytes 4 f) as [bs f']. rewrite Hf in Hbs, Hr.
  exists f'. split; [| exact Hr]. f_equal. exact Hbs.
Qed.

(** From the position behind the leading block and its extra bytes on: the
    first window, the scan, and the length field. *)
Lemma locate_from_window (i1 : Input) (meta rest : list byte) (l0 l1 l2 l3 : byte) :
  remaining (stream i1) = meta ++ char4_bytes data_tag ++ [l0; l1; l2; l3] ++ rest ->
  Forall (fun b => b <> "d"%byte) meta ->
  meta = [] \/ (4 <= length meta)%nat ->
  exists fuel i',
    (i' ← ensure_data fuel (read_subchunk2_id i1); Some (read_subchunk2_size i')) = Some i' /\
    subchunk2_id (header i') = data_tag /\
    subchunk2_size (header i') = le_int [l0; l1; l2; l3] /\
    remaining (stream i') = rest.
Proof.
  intros Hrem Hmeta Hlen.
  assert (Hsize : forall (f : FILE) (h : WavHeader),
             remaining f = [l0; l1; l2; l3] ++ rest ->
             subchunk2_size (header (read_subchunk2_size {| stream := f; header := h |}))
             = le_int [l0; l1; l2; l3] /\
             subchunk2_id (header (read_subchunk2_size {| stream := f; header := h |}))
             = subchunk2_id h /\
             remaining (stream (read_subchunk2_size {| stream := f; header := h |})) = rest).
  { intros f h Hf. unfold read_subchunk2_size.
    change (stream {| stream := f; header := h |}) with f.
    destruct (fread_bytes_4 f l0 l1 l2 l3 rest Hf) as (f' & -> & Hr). done. }
  unfold ensure_data, read_subchunk2_id.
  destruct Hlen as [-> | Hlen].
  - destruct (fread_bytes_4 (stream i1) "d" "a" "t" "a" ([l0; l1; l2; l3] ++ rest) Hrem)
      as (f1 & -> & Hr).
    exists 0%nat. eexists. split; [reflexivity |]. cbn [stream header].
    match goal with
    | |- context [read_subchunk2_size {| stream := ?f; header := ?h |}] =>
        destruct (Hsize f h Hr) as (H1 & H2 & H3)
    end.
    rewrite H1, H2, H3. done.
  - destruct meta as [|m0 [|m1 [|m2 [|m3 meta]]]]; try (simpl in Hlen; lia).
    destruct (fread_bytes_4 (stream i1) m0 m1 m2 m3
                (meta ++ char4_bytes data_tag ++ [l0; l1; l2; l3] ++ rest) Hrem)
      as (f1 & -> & Hr).
    apply Forall_cons in Hmeta as [Hm0 Hmeta].
    do 3 (apply Forall_cons in Hmeta as [_ Hmeta]).
    destruct (scan_finds_tag meta ([l0; l1; l2; l3] ++ rest) (Char4 m0 m1 m2 m3) f1 Hr Hmeta)
      as (fuel & f2 & Hscan & Hrem2 & _).
    { unfold is_data. simpl. by rewrite bool_decide_eq_false_2. }
    exists fuel. eexists. cbv beta iota zeta. cbn [stream header].
    change (subchunk2_id
              (set_subchunk2_id
                 (char4_of_bytes
                    (overlay (char4_bytes (subchunk2_id (header i1))) [m0; m1; m2; m3]))
                 (header i1)))
      with (Char4 m0 m1 m2 m3).
    rewrite Hscan. split; [reflexivity |]. cbn [stream header].
    match goal with
    | |- context [read_subchunk2_size {| stream := ?f; header := ?h |}] =>
        destruct (Hsize f h Hrem2) as (H1 & H2 & H3)
    end.
    rewrite H1, H2, H3. done.
Qed.

(** Where the locator does find the data chunk: behind a leading block that
    declares its extra bytes correctly, followed by no metadata or by at
    least four metadata bytes none of which is a d.  This covers the three
    layouts (no metadata, one metadata chunk, a longer leading sub-block)
    for such metadata. *)
Lemma locate_finds_data_chunk (h0 : WavHeader) (blk junk meta rest : list byte)
    (l0 l1 l2 l3 : byte) :
  length blk = 36%nat ->
  le_int (slice 16 4 blk) = 16 + Z.of_nat (length junk) ->
  16 + Z.of_nat (length junk) <= INT_MAX ->
  Forall (fun b => b <> "d"%byte) meta ->
  meta = [] \/ (4 <= length meta)%nat ->
  exists fuel i',
    locateDataChunk fuel
      {| stream := {| contents := blk ++ junk ++ meta ++ char4_bytes data_tag ++
                                  [l0; l1; l2; l3] ++ rest;
                      pos := 0 |};
         header := h0 |} = Some i' /\
    subchunk2_id (header i') = data_tag /\
    subchunk2_size (header i') = le_int [l0; l1; l2; l3] /\
    remaining (stream i') = rest.
Proof.
  intros Hblk Hsub Hmax Hmeta Hlen.
  set (tail := meta ++ char4_bytes data_tag ++ [l0; l1; l2; l3] ++ rest).
  destruct (read_header_block_spec h0 blk (junk ++ tail) Hblk) as [Hs1 Hh1].
  { unfold tail. rewrite !length_app. simpl. lia. }
  unfold locateDataChunk.
  destruct (read_header_block
              {| stream := {| contents := blk ++ junk ++ tail; pos := 0 |}; header := h0 |})
    as [f1 h1]. simpl in Hs1, Hh1. subst f1.
  destruct (skip_junk_spec h1 blk junk tail Hblk) as [Hrem _]; [congruence | done |].
  by apply (locate_from_window _ meta rest l0 l1 l2 l3).
Qed.

(** C6 (amended).  For every input stream in which the data-chunk tag never
    occurs, the locator reports no error: either it never terminates (at the
    end of the stream the scan repeats without reading), or it returns with
    the stream at its end, the tag buffer having been completed to the tag
    from bytes left in it. *)
Theorem locate_without_tag (i : Input) :
  ~ tag_occurs (contents (stream i)) ->
  diverges (fun fuel => locateDataChunk fuel i) \/
  (exists fuel i',
      locateDataChunk fuel i = Some i' /\
      is_data (subchunk2_id (header i')) = true /\
      remaining (stream i') = []).
Proof.
  intros Hno.
  set (i1 := skip_junk (read_header_block i)).
  assert (Hc1 : contents (stream i1) = contents (stream i)).
  { unfold i1. by rewrite skip_junk_contents, read_header_block_contents. }
  destruct (read_subchunk2_id_cases i1) as (Hc0 & (j & Hj) & Hid).
  set (i0 := read_subchunk2_id i1) in *.
  assert (Hno1 : ~ tag_occurs (remaining (stream i1))).
  { intros H. apply Hno. rewrite <- Hc1. by apply (tag_occurs_drop (pos (stream i1))). }
  destruct (scan_without_tag (length (remaining (stream i0)))
              (subchunk2_id (header i0)) (stream i0))
    as [Hdiv|(fuel & id' & f' & Hscan & Hid' & Heof & _)].
  - done.
  - rewrite Hj. intros H. by apply Hno1, (tag_occurs_drop j).
  - destruct (is_data (subchunk2_id (header i0))) eqn:Hd; [| by left].
    destruct (Hid eq_refl); [by right | done].
  - left. intros fuel. unfold locateDataChunk, ensure_data.
    fold i1. fold i0. by rewrite Hdiv.
  - right. exists fuel. eexists. unfold locateDataChunk, ensure_data.
    fold i1. fold i0. rewrite Hscan. simpl. split; [done |].
    unfold read_subchunk2_size. simpl. split; [done |].
    exact (remaining_at_eof_after_read 4 f' Heof).
Qed.

Lemma locate_without_tag_witness :
  diverges (fun fuel => locateDataChunk fuel (open_input (leading_block 16 ++ info_chunk "Wind"))) \/
  (exists fuel i',
      locateDataChunk fuel (open_input (leading_block 16 ++ info_chunk "Wind")) = Some i' /\
      is_data (subchunk2_id (header i')) = true /\
      remaining (stream i') = []).
Proof.
  apply (locate_without_tag (open_input (leading_block 16 ++ info_chunk "Wind"))).
  intros H. apply has_tag_spec in H. vm_compute in H. discriminate H.
Defined.

(** A locator run diverges as soon as its scan does. *)
Lemma locate_diverges (k : nat) (i : Input) :
  scan_for_data k
    (subchunk2_id (header (read_subchunk2_id (skip_junk (read_header_block i)))))
    (stream (read_subchunk2_id (skip_junk (read_header_block i)))) = None ->
  remaining
    (snd (attempts k
            (subchunk2_id (header (read_subchunk2_id (skip_junk (read_header_block i)))))
            (stream (read_subchunk2_id (skip_junk (read_header_block i)))))) = [] ->
  diverges (fun fuel => locateDataChunk fuel i).
Proof.
  intros Hk Heof fuel. unfold locateDataChunk, ensure_data.
  by rewrite (scan_diverges_from_eof k _ _ Hk Heof).
Qed.

(** C5 (on the failing input).  A file whose metadata chunk ends in the
    letter d (the title Wind), directly followed by the data chunk: the tag
    occurs, but the scan takes the d of the title for the first tag byte,
    consumes the d of the tag as a mismatch, and runs to the end of the
    stream, where it repeats forever. *)
Theorem locator_misses_tag :
  tag_occurs (leading_block 16 ++ info_chunk "Wind" ++ data_chunk [1; -2; 3]) /\
  diverges (fun fuel =>
    locateDataChunk fuel
      (open_input (leading_block 16 ++ info_chunk "Wind" ++ data_chunk [1; -2; 3]))).
Proof.
  split.
  - apply has_tag_spec. vm_compute. reflexivity.
  - apply (locate_diverges 80); vm_compute; reflexivity.
Qed.

(** The three layouts of the specification, on files the scan does find the
    tag in: no metadata, a metadata chunk (here with the title Wine), and a
    leading sub-block of 18 bytes. *)
Lemma locator_finds_tag :
  (exists i', locateDataChunk 0 (open_input (wav_bytes [1; -2; 3])) = Some i' /\
              pos (stream i') = 44%nat /\ subchunk2_size (header i') = 6) /\
  (exists i', locateDataChunk 30
                (open_input (leading_block 16 ++ info_chunk "Wine" ++ data_chunk [1; -2; 3]))
              = Some i' /\
              pos (stream i') = 68%nat /\ subchunk2_size (header i') = 6) /\
  (exists i', locateDataChunk 0
                (open_input (leading_block 18 ++ [x00; x00] ++ data_chunk [1; -2; 3]))
              = Some i' /\
              pos (stream i') = 46%nat /\ subchunk2_size (header i') = 6).
Proof.
  split; [| split]; eexists; (split; [vm_compute; reflexivity |]); vm_compute; auto.
Qed.

(** C6 (counterexample).  A file that ends after its metadata chunk holds no
    data-chunk tag, and the locator never returns on it: no error is
    reported. *)
Lemma locator_loops_without_tag :
  ~ tag_occurs (leading_block 16 ++ info_chunk "Wind") /\
  diverges (fun fuel =>
    locateDataChunk fuel (open_input (leading_block 16 ++ info_chunk "Wind"))).
Proof.
  split.
  - intros H. apply has_tag_spec in H. vm_compute in H. discriminate H.
  - apply (locate_diverges 80); vm_compute; reflexivity.
Qed.

(** The other outcome without a tag: the first window leaves a, t, a in the
    tag buffer, the last byte of the stream is a d, and the locator returns
    with a length that was read before the scan. *)
Lemma locator_completes_tag_from_stale_bytes :
  ~ tag_occurs (leading_block 16 ++ list_byte_of_string "xatazzzzd") /\
  exists i',
    locateDataChunk 5 (open_input (leading_block 16 ++ list_byte_of_string "xatazzzzd"))
    = Some i' /\
    remaining (stream i') = [] /\
    subchunk2_id (header i') = data_tag /\
    subchunk2_size (header i') = le_int (list_byte_of_string "zzzz").
Proof.
  split.
  - intros H. apply has_tag_spec in H. vm_compute in H. discriminate H.
  - eexists. split; [vm_compute; reflexivity |]. vm_compute. auto.
Qed.

(* ====================================================================== *)
(** ** The empty sequence *)

(** C7 (amended).  When the sequence that reaches the renormalizer has
    length P = 0 no error is raised: the renormalizer returns the buffer as
    it is, and the writer then emits the header with data length 0 and
    overall length 36.  On a buffer of any length the renormalizer returns a
    sequence of that length: it fails in no case. *)
Theorem renormalization_never_fails :
  (forall y, scaleValuesToRangeOfPlusMinus1 y 0 = Some y) /\
  (forall y, scaleValuesToRangeOfPlusMinus1 y (Z.of_nat (length y)) = Some (renormalize y) /\
             length (renormalize y) = length y) /\
  (forall f, exists f',
      writeOutputFile f [] 0 = Some f' /\
      output_file f' = output_file f ++ header_image (header_output f') /\
      subchunk2_size (header_output f') = 0 /\
      chunk_size (header_output f') = 36).
Proof.
  split; [| split].
  - intros y. reflexivity.
  - intros y. split; [apply scaleValuesToRangeOfPlusMinus1_spec | apply renormalize_length].
  - intros f. eexists. split; [reflexivity |]. simpl. auto.
Qed.

(* ====================================================================== *)
(** ** Bytes, headers and samples: encoding and decoding *)

Lemma Z_of_byte_range (b : byte) : 0 <= Z_of_byte b < 256.
Proof.
  unfold Z_of_byte. pose proof (Byte.to_N_bounded b) as H. lia.
Qed.

Lemma Z_of_byte_of_Z (z : Z) : Z_of_byte (byte_of_Z z) = z mod 256.
Proof.
  unfold Z_of_byte, byte_of_Z.
  pose proof (Z.mod_pos_bound z 256 ltac:(lia)) as Hm.
  destruct (Byte.of_N (Z.to_N (z mod 256))) as [b|] eqn:Hb.
  - simpl. apply Byte.to_of_N in Hb. rewrite Hb. lia.
  - apply Byte.of_N_None_iff in Hb. lia.
Qed.

Lemma byte_of_Z_of_byte (b : byte) : byte_of_Z (Z_of_byte b) = b.
Proof.
  unfold byte_of_Z. rewrite Z.mod_small by apply Z_of_byte_range.
  unfold Z_of_byte. rewrite N2Z.id, Byte.of_to_N. done.
Qed.

Lemma le_unsigned_encode (n : nat) (z : Z) :
  le_unsigned (le_encode n z) = z mod 256 ^ Z.of_nat n.
Proof.
  revert z. induction n as [|n IH]; intros z.
  - simpl. by rewrite Z.mod_1_r.
  - change (le_unsigned (le_encode (S n) z))
      with (Z_of_byte (byte_of_Z z) + 256 * le_unsigned (le_encode n (z / 256))).
    rewrite IH, Z_of_byte_of_Z, Nat2Z.inj_succ, Z.pow_succ_r by lia.
    rewrite (Z.rem_mul_r z 256 (256 ^ Z.of_nat n)) by lia. done.
Qed.

Lemma le_int_encode (z : Z) : is_int z -> le_int (le_encode 4 z) = z.
Proof.
  unfold is_int, INT_MIN, INT_MAX, le_int, wrap32, wrap. intros Hz.
  rewrite le_unsigned_encode.
  change (256 ^ Z.of_nat 4) with 4294967296.
  change (2 ^ (32 - 1)) with 2147483648. change (2 ^ 32) with 4294967296.
  change (2 ^ 31) with 2147483648 in Hz.
  rewrite Zplus_mod_idemp_l.
  rewrite Z.mod_small by lia. lia.
Qed.

Lemma le_short_encode (z : Z) : is_short z -> le_short (le_encode 2 z) = z.
Proof.
  unfold is_short, SHRT_MIN, SHRT_MAX, le_short, wrap16, wrap. intros Hz.
  rewrite le_unsigned_encode.
  change (256 ^ Z.of_nat 2) with 65536.
  change (2 ^ (16 - 1)) with 32768. change (2 ^ 16) with 65536.
  rewrite Zplus_mod_idemp_l. rewrite Z.mod_small by lia. lia.
Qed.

Lemma wrap_range (z : Z) : is_int (wrap32 z) /\ is_short (wrap16 z).
Proof.
  unfold is_int, is_short, INT_MIN, INT_MAX, SHRT_MIN, SHRT_MAX, wrap32, wrap16, wrap.
  change (2 ^ (32 - 1)) with 2147483648. change (2 ^ 32) with 4294967296.
  change (2 ^ 31) with 2147483648.
  change (2 ^ (16 - 1)) with 32768. change (2 ^ 16) with 65536.
  pose proof (Z.mod_pos_bound (z + 2147483648) 4294967296 ltac:(lia)).
  pose proof (Z.mod_pos_bound (z + 32768) 65536 ltac:(lia)). lia.
Qed.

Lemma le_encode_unsigned (bs : list byte) :
  le_encode (length bs) (le_unsigned bs) = bs.
Proof.
  induction bs as [|b bs IH]; [done |].
  change (le_unsigned (b :: bs)) with (Z_of_byte b + 256 * le_unsigned bs).
  pose proof (Z_of_byte_range b) as Hb.
  simpl. f_equal.
  - rewrite <- (byte_of_Z_of_byte b) at 2. unfold byte_of_Z.
    replace (Z_of_byte b + 256 * le_unsigned bs)
      with (Z_of_byte b + le_unsigned bs * 256) by lia.
    by rewrite Z.mod_add by lia.
  - replace ((Z_of_byte b + 256 * le_unsigned bs) / 256) with (le_unsigned bs); [done |].
    rewrite Z.add_comm, Z.mul_comm, Z.div_add_l by lia.
    rewrite Z.div_small by lia. lia.
Qed.

Lemma le_encode_mod (n : nat) (z k : Z) :
  le_encode n (z + k * 256 ^ Z.of_nat n) = le_encode n z.
Proof.
  revert z k. induction n as [|n IH]; intros z k; [done |].
  simpl le_encode. rewrite Nat2Z.inj_succ, Z.pow_succ_r by lia. f_equal.
  - unfold byte_of_Z.
    replace (z + k * (256 * 256 ^ Z.of_nat n)) with (z + (k * 256 ^ Z.of_nat n) * 256) by lia.
    by rewrite Z.mod_add by lia.
  - replace (z + k * (256 * 256 ^ Z.of_nat n)) with (z + (k * 256 ^ Z.of_nat n) * 256) by lia.
    rewrite Z.div_add by lia. apply IH.
Qed.

Lemma wrap_congr (bits z : Z) : 0 < bits -> exists k, wrap bits z = z + k * 2 ^ bits.
Proof.
  intros Hb. unfold wrap.
  exists (- ((z + 2 ^ (bits - 1)) / 2 ^ bits)).
  assert (0 < 2 ^ bits) by (apply Z.pow_pos_nonneg; lia).
  pose proof (Z.div_mod (z + 2 ^ (bits - 1)) (2 ^ bits) ltac:(lia)). lia.
Qed.

Lemma le_encode_le_int (bs : list byte) :
  length bs = 4%nat -> le_encode 4 (le_int bs) = bs.
Proof.
  intros Hlen. unfold le_int, wrap32.
  destruct (wrap_congr 32 (le_unsigned bs)) as [k ->]; [lia |].
  change (2 ^ 32) with (256 ^ Z.of_nat 4).
  rewrite le_encode_mod, <- Hlen. apply le_encode_unsigned.
Qed.

Lemma le_encode_le_short (bs : list byte) :
  length bs = 2%nat -> le_encode 2 (le_short bs) = bs.
Proof.
  intros Hlen. unfold le_short, wrap16.
  destruct (wrap_congr 16 (le_unsigned bs)) as [k ->]; [lia |].
  change (2 ^ 16) with (256 ^ Z.of_nat 2).
  rewrite le_encode_mod, <- Hlen. apply le_encode_unsigned.
Qed.

Lemma header_of_image_image (h : WavHeader) :
  header_in_range h -> header_of_image (header_image h) = h.
Proof.
  destruct h as [cid csz fmt s1id s1sz af nc sr br ba bps s2id s2sz]. intros H.
  unfold header_in_range in H. simpl in H.
  destruct H as (H1 & H2 & H3 & H4 & H5 & H6 & H7 & H8 & H9).
  destruct cid, fmt, s1id, s2id.
  unfold header_of_image, header_image, slice, char4_bytes. simpl.
  unfold char4_of_bytes. simpl.
  f_equal.
  all: first [ by apply (le_int_encode _) | by apply (le_short_encode _) ].
Qed.

Lemma header_image_of_image (bs : list byte) :
  length bs = 44%nat ->
  header_image (header_of_image bs) = bs /\ header_in_range (header_of_image bs).
Proof.
  intros Hlen.
  do 44 (destruct bs as [|? bs]; [discriminate Hlen |]).
  destruct bs; [| discriminate Hlen].
  split.
  - unfold header_image, header_of_image, slice, char4_bytes, char4_of_bytes.
    cbn [chunk_id chunk_size format subchunk1_id subchunk1_size audio_format num_channels
         sample_rate byte_rate block_align bits_per_sample subchunk2_id subchunk2_size
         take drop nth c0 c1 c2 c3].
    rewrite !le_encode_le_int, !le_encode_le_short by done.
    reflexivity.
  - unfold header_in_range, header_of_image. simpl.
    unfold le_int, le_short. repeat split; apply wrap_range.
Qed.

(** X1.  The header object and its 44-byte image, which is what [fread]
    and [fwrite] of a [WavHeader] transfer, determine each other: a header
    whose fields fit their C types is read back from its image unchanged,
    and every sequence of 44 bytes is the image of the header that is read
    from it, the fields of which fit their types. *)
Theorem header_image_roundtrip (h : WavHeader) (bs : list byte) :
  header_in_range h -> length bs = 44%nat ->
  header_of_image (header_image h) = h /\
  header_image (header_of_image bs) = bs /\
  header_in_range (header_of_image bs).
Proof.
  intros Hh Hbs. split; [by apply header_of_image_image | by apply header_image_of_image].
Qed.

Lemma header_image_roundtrip_witness :
  header_of_image (header_image blank_header) = blank_header /\
  header_image (header_of_image (leading_block 16 ++ le_encode 8 0)) = leading_block 16 ++ le_encode 8 0.
Proof.
  destruct (header_image_roundtrip blank_header (leading_block 16 ++ le_encode 8 0))
    as (H1 & H2 & _).
  - unfold header_in_range, is_int, is_short, INT_MIN, INT_MAX, SHRT_MIN, SHRT_MAX.
    vm_compute. repeat split; discriminate.
  - reflexivity.
  - split; [exact H1 | exact H2].
Defined.

Lemma is_data_eq (id : char4) : is_data id = true -> id = data_tag.
Proof.
  destruct id as [i0 i1 i2 i3]. unfold is_data. simpl. intros Hd.
  repeat (apply andb_true_iff in Hd as [Hd ?]).
  repeat match goal with
         | H : bool_decide _ = true |- _ => apply bool_decide_eq_true in H
         end.
  by subst.
Qed.

Lemma header_image_split (h : WavHeader) :
  header_image h
  = take 36 (header_image h) ++ char4_bytes (subchunk2_id h) ++ le_encode 4 (subchunk2_size h).
Proof. by destruct h. Qed.

Lemma set_subchunk2_id_same (h : WavHeader) : set_subchunk2_id (subchunk2_id h) h = h.
Proof. by destruct h. Qed.

Lemma set_subchunk2_size_same (h : WavHeader) : set_subchunk2_size (subchunk2_size h) h = h.
Proof. by destruct h. Qed.

(** A header with sub-block length 16 and the data tag, followed by
    anything, is located at once and read back as it is. *)
Lemma locate_canonical (h h0 : WavHeader) (rest : list byte) :
  header_in_range h -> subchunk1_size h = 16 -> subchunk2_id h = data_tag ->
  locateDataChunk 0 {| stream := {| contents := header_image h ++ rest; pos := 0 |};
                       header := h0 |}
  = Some {| stream := {| contents := header_image h ++ rest; pos := 44 |}; header := h |}.
Proof.
  intros Hr H16 Hid.
  pose proof (header_of_image_image h Hr) as Himg.
  assert (H1 : read_header_block
                 {| stream := {| contents := header_image h ++ rest; pos := 0 |}; header := h0 |}
               = {| stream := {| contents := header_image h ++ rest; pos := 36 |}; header := h |}).
  { unfold read_header_block, fread_bytes, remaining. cbn [stream contents pos header].
    change (Z.to_nat sizeof_WavHeader) with 44%nat.
    rewrite drop_0, (take_app_length' _ _ 44) by reflexivity.
    unfold overlay. rewrite header_image_length.
    change (drop 44 (header_image h0)) with (@nil byte).
    rewrite app_nil_r, Himg. reflexivity. }
  assert (Hrem : drop 36 (header_image h ++ rest)
                 = char4_bytes (subchunk2_id h) ++ le_encode 4 (subchunk2_size h) ++ rest).
  { rewrite (header_image_split h) at 1. rewrite <- !app_assoc.
    rewrite drop_app_length'; [done |]. rewrite length_take, header_image_length. done. }
  unfold locateDataChunk. rewrite H1.
  unfold skip_junk. cbn [header stream]. rewrite decide_False by (rewrite H16; lia).
  unfold read_subchunk2_id, fread_bytes, remaining. cbn [stream contents pos header].
  rewrite Hrem.
  change (take 4 (char4_bytes (subchunk2_id h) ++ le_encode 4 (subchunk2_size h) ++ rest))
    with (char4_bytes (subchunk2_id h)).
  change (overlay (char4_bytes (subchunk2_id h)) (char4_bytes (subchunk2_id h)))
    with (char4_bytes (subchunk2_id h)).
  replace (char4_of_bytes (char4_bytes (subchunk2_id h))) with (subchunk2_id h)
    by (by destruct (subchunk2_id h)).
  rewrite set_subchunk2_id_same.
  unfold ensure_data. cbn [stream header].
  rewrite scan_for_data_found by (by rewrite Hid).
  cbn [mbind option_bind]. rewrite set_subchunk2_id_same.
  unfold read_subchunk2_size, fread_bytes, remaining. cbn [stream contents pos header length].
  change (length (char4_bytes (subchunk2_id h))) with 4%nat.
  replace (drop (36 + 4) (header_image h ++ rest)) with (le_encode 4 (subchunk2_size h) ++ rest).
  2:{ rewrite <- (drop_drop _ 4 36), Hrem. reflexivity. }
  change (take 4 (le_encode 4 (subchunk2_size h) ++ rest)) with (le_encode 4 (subchunk2_size h)).
  change (overlay (le_encode 4 (subchunk2_size h)) (le_encode 4 (subchunk2_size h)))
    with (le_encode 4 (subchunk2_size h)).
  rewrite le_int_encode by apply Hr.
  rewrite set_subchunk2_size_same. reflexivity.
Qed.

Lemma bytes_of_shorts_cons (s : Z) (ss : list Z) :
  bytes_of_shorts (s :: ss) = le_encode 2 s ++ bytes_of_shorts ss.
Proof. reflexivity. Qed.

Lemma length_bytes_of_shorts (ss : list Z) :
  length (bytes_of_shorts ss) = (2 * length ss)%nat.
Proof.
  induction ss as [|s ss IH]; [done |].
  rewrite bytes_of_shorts_cons, length_app, IH. simpl. lia.
Qed.

Lemma shorts_of_bytes_of_shorts (ss : list Z) :
  Forall is_short ss -> shorts_of_bytes (bytes_of_shorts ss) = ss.
Proof.
  induction 1 as [|s ss Hs _ IH]; [done |].
  rewrite bytes_of_shorts_cons.
  change (shorts_of_bytes (le_encode 2 s ++ bytes_of_shorts ss))
    with (le_short (le_encode 2 s) :: shorts_of_bytes (bytes_of_shorts ss)).
  by rewrite IH, le_short_encode.
Qed.

Lemma take_bytes_of_shorts (n : nat) (ss : list Z) :
  take (2 * n) (bytes_of_shorts ss) = bytes_of_shorts (take n ss).
Proof.
  revert ss. induction n as [|n IH]; intros ss; [done |].
  destruct ss as [|s ss]; [done |].
  replace (2 * S n)%nat with (S (S (2 * n))) by lia.
  rewrite bytes_of_shorts_cons. simpl take. rewrite bytes_of_shorts_cons.
  simpl. by rewrite <- IH.
Qed.

(** [fread] of [N] samples from a stream that ends with the samples [ss]:
    the samples that are there are stored, the cells behind them keep what
    they held. *)
Lemma fread_shorts_available (buf ss : list Z) (N : nat) (f : FILE) :
  remaining f = bytes_of_shorts ss -> Forall is_short ss ->
  (N <= length buf)%nat ->
  fread_shorts buf (Z.of_nat N) f
  = Some (take N ss ++ drop (N `min` length ss) buf,
          {| contents := contents f; pos := pos f + 2 * (N `min` length ss) |}).
Proof.
  intros Hrem Hss HN. unfold fread_shorts, fread_bytes.
  rewrite (decide_True (P := (0 <= Z.of_nat N)%Z)) by lia.
  rewrite Nat2Z.id, Hrem, take_bytes_of_shorts.
  rewrite shorts_of_bytes_of_shorts by (by apply Forall_take).
  rewrite length_bytes_of_shorts, length_take.
  rewrite decide_True by lia. done.
Qed.


Lemma remaining_advance (f : FILE) (n : nat) :
  remaining {| contents := contents f; pos := pos f + n |} = drop n (remaining f).
Proof. unfold remaining. simpl. by rewrite drop_drop. Qed.



(** X2.  An output file is a readable input.  When the header of the
    sample input carries the data tag and its fields fit their types, the
    file that [writeOutputFile] writes for the P samples y (16-bit values,
    36 + 2 P representable as an [int]) is read by the locator without any
    scan of the stream, the header that is read is the header that was
    written, the stream then stands behind the 44 header bytes, the header
    declares P samples, and reading them returns y and uses up the
    stream. *)
Theorem written_file_reads_back (f : FileData) (y buf : list Z) (h0 : WavHeader) :
  header_in_range (header_sample f) ->
  is_data (subchunk2_id (header_sample f)) = true ->
  output_file f = [] ->
  Forall is_short y -> length buf = length y ->
  36 + 2 * Z.of_nat (length y) <= INT_MAX ->
  exists f' i' s',
    writeOutputFile f y (Z.of_nat (length y)) = Some f' /\
    locateDataChunk 0 {| stream := {| contents := output_file f'; pos := 0 |}; header := h0 |}
    = Some i' /\
    header i' = header_output f' /\
    pos (stream i') = 44%nat /\
    subchunk2_size (header i') / sizeof_short = Z.of_nat (length y) /\
    fread_shorts buf (subchunk2_size (header i') / sizeof_short) (stream i') = Some (y, s') /\
    remaining s' = [].
Proof.
  intros Hr Hid Hout Hy Hbuf Hfit.
  assert (H2 : wrap32 (Z.of_nat (length y) * 2) = Z.of_nat (length y) * 2).
  { apply wrap32_id. unfold is_int, INT_MIN, INT_MAX in *. lia. }
  assert (H1 : wrap32 (36 + Z.of_nat (length y) * 2) = 36 + Z.of_nat (length y) * 2).
  { apply wrap32_id. unfold is_int, INT_MIN, INT_MAX in *. lia. }
  unfold writeOutputFile. rewrite fwrite_shorts_spec, Hout. cbn [mbind option_bind app].
  set (h3 := set_chunk_size _ _).
  assert (Hr3 : header_in_range h3).
  { unfold h3, header_in_range in *. cbn. rewrite H2, H1.
    unfold is_int, INT_MIN, INT_MAX in *. repeat split; try apply Hr; lia. }
  assert (Hsz : subchunk2_size h3 = Z.of_nat (length y) * 2) by (by cbn).
  eexists. exists {| stream := {| contents := header_image h3 ++ bytes_of_shorts y; pos := 44 |};
                     header := h3 |}.
  eexists. split; [reflexivity |]. cbn [output_file header_output stream header pos].
  split.
  { apply locate_canonical; [done | done |]. apply is_data_eq. exact Hid. }
  split; [done |]. split; [done |].
  rewrite Hsz. unfold sizeof_short. rewrite Z.div_mul by lia.
  split; [done |].
  rewrite (fread_shorts_available buf y (length y)); [| | done | lia].
  - rewrite firstn_all, Nat.min_id, <- Hbuf, drop_all, app_nil_r.
    split; [reflexivity |].
    rewrite remaining_advance. unfold remaining. cbn [contents pos].
    rewrite drop_app_length' by (by rewrite header_image_length).
    rewrite Hbuf, <- length_bytes_of_shorts. apply drop_all.
  - unfold remaining. cbn [contents pos].
    rewrite drop_app_length'; [done | by rewrite header_image_length].
Qed.

Lemma written_file_reads_back_witness :
  exists f' i' s',
    writeOutputFile
      {| sample := {| stream := {| contents := []; pos := 0 |};
                      header := set_subchunk2_id data_tag blank_header |};
         impulse := open_input [];
         header_output := blank_header; output_file := [] |}
      [1; -2; 3] 3 = Some f' /\
    locateDataChunk 0 {| stream := {| contents := output_file f'; pos := 0 |};
                         header := blank_header |} = Some i' /\
    fread_shorts [0; 0; 0] (subchunk2_size (header i') / sizeof_short) (stream i')
    = Some ([1; -2; 3], s').
Proof.
  destruct (written_file_reads_back
              {| sample := {| stream := {| contents := []; pos := 0 |};
                              header := set_subchunk2_id data_tag blank_header |};
                 impulse := open_input [];
                 header_output := blank_header; output_file := [] |}
              [1; -2; 3] [0; 0; 0] blank_header)
    as (f' & i' & s' & Hw & Hl & _ & _ & _ & Hr & _).
  - unfold header_in_range, is_int, is_short, INT_MIN, INT_MAX, SHRT_MIN, SHRT_MAX.
    vm_compute. repeat split; discriminate.
  - reflexivity.
  - reflexivity.
  - repeat constructor; unfold SHRT_MIN, SHRT_MAX; lia.
  - reflexivity.
  - unfold INT_MAX. simpl. lia.
  - exists f', i', s'. split; [exact Hw |]. split; [exact Hl | exact Hr].
Defined.

(* ====================================================================== *)
(** ** ChunkLocator: what a return of the locator means *)

Lemma contents_split (f : FILE) : contents f = take (pos f) (contents f) ++ remaining f.
Proof. unfold remaining. by rewrite take_drop. Qed.

(** A run of the inner loop that completes the tag has read the four tag
    bytes, unless it ran into the end of the stream. *)
Lemma tag_attempt_on_complete (id : char4) (bs : list byte) :
  is_data (fst (tag_attempt_on 4 0 id bs)) = true ->
  snd (tag_attempt_on 4 0 id bs) = [] \/
  bs = char4_bytes data_tag ++ snd (tag_attempt_on 4 0 id bs).
Proof.
  destruct id as [i0 i1 i2 i3].
  destruct bs as [|b0 [|b1 [|b2 [|b3 bs]]]]; simpl;
    repeat (case_decide; simpl); auto.
  all: unfold is_data; simpl; intros Hd;
    repeat (apply andb_true_iff in Hd as [Hd ?]);
    repeat match goal with
           | H : bool_decide _ = true |- _ => apply bool_decide_eq_true in H
           end;
    subst; try done; try (by left); try (by right).
Qed.

Lemma scan_for_data_sound (fuel : nat) :
  forall id f id' f',
    scan_for_data fuel id f = Some (id', f') ->
    is_data id' = true /\ contents f' = contents f /\
    ((id' = id /\ f' = f) \/ remaining f' = [] \/
     exists pre, contents f = pre ++ char4_bytes data_tag ++ remaining f').
Proof.
  induction fuel as [|fuel IH]; intros id f id' f' Hscan.
  - simpl in Hscan. destruct (is_data id) eqn:Hid; [| done].
    injection Hscan as <- <-. auto.
  - destruct (is_data id) eqn:Hid.
    { rewrite scan_for_data_found in Hscan by done. injection Hscan as <- <-. auto. }
    rewrite scan_for_data_step in Hscan by done.
    destruct (tag_attempt_from_on 4 0 id f) as (f1 & Hatt & Hc1 & Hrem1).
    fold (tag_attempt id f) in Hatt. rewrite Hatt in Hscan. simpl in Hscan.
    destruct (IH _ _ _ _ Hscan) as (Hd & Hc & Hcases).
    split; [done |]. split; [congruence |].
    destruct Hcases as [[-> ->] | [Heof | (pre & Hpre)]].
    + destruct (tag_attempt_on_complete id (remaining f) Hd) as [Hnil | Hbs].
      * right. left. by rewrite Hrem1.
      * right. right. exists (take (pos f) (contents f)).
        rewrite Hrem1, <- Hbs. apply contents_split.
    + by right; left.
    + right. right. exists pre. by rewrite <- Hc1.
Qed.

Lemma read_subchunk2_id_complete (i : Input) :
  is_data (subchunk2_id (header (read_subchunk2_id i))) = true ->
  remaining (stream (read_subchunk2_id i)) = [] \/
  remaining (stream i) = char4_bytes data_tag ++ remaining (stream (read_subchunk2_id i)).
Proof.
  unfold read_subchunk2_id.
  destruct (fread_bytes_spec 4 (stream i)) as (Hbs & Hc & Hr).
  destruct (fread_bytes 4 (stream i)) as [bs f]. simpl in *.
  rewrite Hr, Hbs.
  destruct (subchunk2_id (header i)) as [i0 i1 i2 i3].
  destruct (remaining (stream i)) as [|b0 [|b1 [|b2 [|b3 rest]]]]; simpl; auto.
  unfold is_data. simpl. intros Hd. right.
  repeat (apply andb_true_iff in Hd as [Hd ?]).
  repeat match goal with
         | H : bool_decide _ = true |- _ => apply bool_decide_eq_true in H
         end.
  by subst.
Qed.

Lemma read_subchunk2_size_cases (i : Input) :
  contents (stream (read_subchunk2_size i)) = contents (stream i) /\
  subchunk2_id (header (read_subchunk2_size i)) = subchunk2_id (header i) /\
  remaining (stream (read_subchunk2_size i)) = drop 4 (remaining (stream i)) /\
  ((4 <= length (remaining (stream i)))%nat ->
   subchunk2_size (header (read_subchunk2_size i)) = le_int (take 4 (remaining (stream i)))).
Proof.
  unfold read_subchunk2_size.
  destruct (fread_bytes_spec 4 (stream i)) as (Hbs & Hc & Hr).
  destruct (fread_bytes 4 (stream i)) as [bs f]. simpl in *.
  split; [done |]. split; [done |]. split; [done |].
  intros Hlen. rewrite Hbs. unfold overlay.
  rewrite length_take, Nat.min_l by done.
  change (drop 4 (le_encode 4 (subchunk2_size (header i)))) with (@nil byte).
  by rewrite app_nil_r.
Qed.

(** X4.  Whenever the locator returns for an input, the tag buffer holds
    the data tag and the bytes of the stream are unchanged; and unless the
    stream is at its end, the bytes in front of the position are the four
    tag bytes followed by four bytes whose little-endian value is the data
    length in the header.  (At the end of the stream neither need be so,
    since a read that delivers nothing leaves the buffers as they were.) *)
Theorem locator_returns_behind_tag_or_at_eof (fuel : nat) (i i' : Input) :
  locateDataChunk fuel i = Some i' ->
  is_data (subchunk2_id (header i')) = true /\
  contents (stream i') = contents (stream i) /\
  (remaining (stream i') = [] \/
   exists pre l,
     contents (stream i) = pre ++ char4_bytes data_tag ++ l ++ remaining (stream i') /\
     length l = 4%nat /\
     subchunk2_size (header i') = le_int l).
Proof.
  unfold locateDataChunk, ensure_data. intros Hloc.
  set (i1 := skip_junk (read_header_block i)) in *.
  assert (Hc1 : contents (stream i1) = contents (stream i)).
  { unfold i1. by rewrite skip_junk_contents, read_header_block_contents. }
  destruct (read_subchunk2_id_cases i1) as (Hc0 & _ & _).
  pose proof (read_subchunk2_id_complete i1) as Hfirst.
  set (i0 := read_subchunk2_id i1) in *.
  destruct (scan_for_data fuel (subchunk2_id (header i0)) (stream i0)) as [[id f]|] eqn:Hscan;
    [| done].
  set (i2 := {| stream := f; header := set_subchunk2_id id (header i0) |}).
  change (Some (read_subchunk2_size i2) = Some i') in Hloc. injection Hloc as <-.
  destruct (scan_for_data_sound _ _ _ _ _ Hscan) as (Hd & Hc & Hcases).
  destruct (read_subchunk2_size_cases i2) as (Hc2 & Hid2 & Hr2 & Hsz).
  change (stream i2) with f in Hc2, Hr2, Hsz.
  change (subchunk2_id (header i2)) with id in Hid2.
  split; [by rewrite Hid2 |].
  split; [congruence |].
  assert (Hpre : remaining f = [] \/
                 exists pre, contents (stream i) = pre ++ char4_bytes data_tag ++ remaining f).
  { destruct Hcases as [[-> ->] | [Heof | (pre & Hpre)]].
    - destruct (Hfirst Hd) as [Hnil | Hbs]; [by left |].
      right. exists (take (pos (stream i1)) (contents (stream i1))).
      rewrite <- Hbs, <- Hc1. apply contents_split.
    - by left.
    - right. exists pre. congruence. }
  destruct Hpre as [Hnil | (pre & Hpre)].
  { left. rewrite Hr2, Hnil. done. }
  destruct (decide (4 <= length (remaining f))%nat) as [Hlen | Hlen].
  - right. exists pre, (take 4 (remaining f)).
    rewrite Hr2, take_drop. split; [done |].
    split; [rewrite length_take; lia | by apply Hsz].
  - left. rewrite Hr2. apply drop_ge. lia.
Qed.

Lemma locator_returns_behind_tag_or_at_eof_witness :
  exists i',
    locateDataChunk 30
      (open_input (leading_block 16 ++ info_chunk "Wine" ++ data_chunk [1; -2; 3])) = Some i' /\
    is_data (subchunk2_id (header i')) = true.
Proof.
  eexists. split; [vm_compute; reflexivity |].
  refine (proj1 (locator_returns_behind_tag_or_at_eof 30
            (open_input (leading_block 16 ++ info_chunk "Wine" ++ data_chunk [1; -2; 3]))
            _ _)).
  vm_compute. reflexivity.
Defined.

(* ====================================================================== *)
(** ** ChunkLocator: both inputs *)

(** [readInputFileHeaders] treats the two inputs alike, the sample first. *)
Lemma readInputFileHeaders_inputs (fuel : nat) (f : FileData) :
  readInputFileHeaders fuel f
  = s ← locateDataChunk fuel (sample f);
    i ← locateDataChunk fuel (impulse f);
    Some {| sample := s; impulse := i;
            header_output := header_output f; output_file := output_file f |}.
Proof.
  unfold readInputFileHeaders, ensureSubchunk2_idIsSetProperly,
    skipPastNullBytesInInputFileHeadersIfPresent, on_inputs, locateDataChunk.
  cbn [sample impulse header_output output_file].
  destruct (ensure_data fuel (read_subchunk2_id (skip_junk (read_header_block (sample f)))));
    cbn [mbind option_bind]; [| done].
  destruct (ensure_data fuel (read_subchunk2_id (skip_junk (read_header_block (impulse f)))));
    cbn [mbind option_bind]; done.
Qed.

Lemma locateDataChunk_mono (k n : nat) (i r : Input) :
  locateDataChunk k i = Some r -> locateDataChunk (k + n) i = Some r.
Proof.
  unfold locateDataChunk, ensure_data. intros H.
  destruct (scan_for_data k _ _) as [[id f]|] eqn:Hscan; [| done].
  by rewrite (scan_for_data_mono k n _ _ _ Hscan).
Qed.

(** X5.  When both input streams stand at their beginning and have a
    layout in which the scan meets the tag ([locatable]),
    [readInputFileHeaders] returns for every sufficient amount of fuel, that
    is, its two loops terminate; both tag buffers then hold the data tag,
    both data lengths are the ones in the files, and both streams stand at
    the first byte behind the length. *)
Theorem readInputFileHeaders_finds_data_chunks (f : FileData)
    (size_x size_h : Z) (rest_x rest_h : list byte) :
  pos (sample_file f) = 0%nat -> pos (impulse_file f) = 0%nat ->
  locatable (contents (sample_file f)) size_x rest_x ->
  locatable (contents (impulse_file f)) size_h rest_h ->
  exists fuel f',
    (forall n, readInputFileHeaders (fuel + n) f = Some f') /\
    subchunk2_id (header_sample f') = data_tag /\
    subchunk2_id (header_impulse f') = data_tag /\
    subchunk2_size (header_sample f') = size_x /\
    subchunk2_size (header_impulse f') = size_h /\
    remaining (sample_file f') = rest_x /\
    remaining (impulse_file f') = rest_h.
Proof.
  unfold sample_file, impulse_file, header_sample, header_impulse.
  destruct f as [[[cx px] hx] [[ch ph] hh] ho out]. cbn [sample impulse stream contents pos].
  intros -> -> (bx & jx & mx & x0 & x1 & x2 & x3 & -> & Hbx & Hjx & Hmaxx & Hmx & Hlx & <-)
    (bh & jh & mh & h0 & h1 & h2 & h3 & -> & Hbh & Hjh & Hmaxh & Hmh & Hlh & <-).
  destruct (locate_finds_data_chunk hx bx jx mx rest_x x0 x1 x2 x3 Hbx Hjx Hmaxx Hmx Hlx)
    as (kx & ix & Hx & Hidx & Hszx & Hrx).
  destruct (locate_finds_data_chunk hh bh jh mh rest_h h0 h1 h2 h3 Hbh Hjh Hmaxh Hmh Hlh)
    as (kh & ih & Hh & Hidh & Hszh & Hrh).
  exists (kx + kh)%nat. eexists. split.
  - intros n. rewrite readInputFileHeaders_inputs. cbn [sample impulse].
    rewrite <- Nat.add_assoc, (locateDataChunk_mono kx _ _ _ Hx). cbn [mbind option_bind].
    replace (kx + (kh + n))%nat with (kh + (kx + n))%nat by lia.
    rewrite (locateDataChunk_mono kh _ _ _ Hh). cbn [mbind option_bind]. reflexivity.
  - cbn [sample impulse]. auto 10.
Qed.

Lemma readInputFileHeaders_finds_data_chunks_witness :
  exists fuel f',
    readInputFileHeaders fuel
      (open_files (leading_block 18 ++ [x00; x00] ++ info_chunk "Wine" ++ data_chunk [1; -2; 3])
                  (wav_bytes [4; 5])) = Some f' /\
    subchunk2_size (header_sample f') = 6 /\
    subchunk2_size (header_impulse f') = 4.
Proof.
  destruct (readInputFileHeaders_finds_data_chunks
              (open_files (leading_block 18 ++ [x00; x00] ++ info_chunk "Wine"
                             ++ data_chunk [1; -2; 3])
                          (wav_bytes [4; 5]))
              6 4 (bytes_of_shorts [1; -2; 3]) (bytes_of_shorts [4; 5]))
    as (fuel & f' & Hrun & _ & _ & Hx & Hh & _).
  - reflexivity.
  - reflexivity.
  - exists (leading_block 18), [x00; x00], (info_chunk "Wine"),
      "006"%byte, x00, x00, x00.
    split; [reflexivity |]. split; [reflexivity |]. split; [reflexivity |].
    split; [unfold INT_MAX; simpl; lia |].
    split; [| split; [right; simpl; lia | reflexivity]].
    repeat constructor; discriminate.
  - exists (leading_block 16), [], [], "004"%byte, x00, x00, x00.
    split; [reflexivity |]. split; [reflexivity |]. split; [reflexivity |].
    split; [unfold INT_MAX; simpl; lia |].
    split; [constructor | split; [by left | reflexivity]].
  - exists fuel, f'. split; [| split; [exact Hx | exact Hh]].
    rewrite <- (Nat.add_0_r fuel). apply Hrun.
Defined.

(* ====================================================================== *)
(** ** The pipeline: sample width and the shape of the output *)

(** A loop that reads [a[i]] in every iteration leaves the array when it
    runs further than the array reaches. *)
Lemma for_loop_read_past_end {A St} (a : list A) (body : Z -> St -> option St) (n : nat) (s : St) :
  (forall (j : nat) t, (j < length a)%nat -> is_Some (body (Z.of_nat j) t)) ->
  (forall t, body (Z.of_nat (length a)) t = None) ->
  (length a < n)%nat ->
  for_loop (Z.of_nat n) body s = None.
Proof.
  intros Hin Hout Hn. unfold for_loop. rewrite Nat2Z.id.
  replace n with (length a + S (n - length a - 1))%nat by lia.
  rewrite for_steps_add.
  destruct (for_steps_inv (fun _ _ => True) body (length a) 0 s I) as (t & Ht & _).
  { intros j u Hj _. destruct (Hin j u) as [u' Hu']; [lia |]. by exists u'. }
  change (Z.of_nat 0) with 0 in Ht. rewrite Ht. cbn [mbind option_bind].
  simpl for_steps. rewrite Z.add_0_l, Hout. done.
Qed.

Lemma reportMaxMinIntegerSamples_past_end (samples : list Z) (n : nat) :
  (length samples < n)%nat -> reportMaxMinIntegerSamples samples (Z.of_nat n) = None.
Proof.
  intros Hn. unfold reportMaxMinIntegerSamples.
  rewrite (for_loop_read_past_end samples); [done | | | done].
  - intros j [hi lo] Hj. rewrite aget_of_nat.
    destruct (lookup_lt_is_Some_2 samples j Hj) as [v ->]. done.
  - intros [hi lo]. rewrite aget_of_nat, (lookup_ge_None_2 samples (length samples)) by lia. done.
Qed.

Lemma fread_shorts_length (buf : list Z) (N : Z) (f : FILE) (buf' : list Z) (f' : FILE) :
  fread_shorts buf N f = Some (buf', f') -> length buf' = length buf.
Proof.
  unfold fread_shorts. destruct (fread_bytes _ f) as [bs f0].
  case_decide as Hle; [| done].
  intros [= <- _]. rewrite length_app, length_drop. lia.
Qed.

Lemma length_malloc {A} (junk : A) (elem_size bytes : Z) :
  length (malloc junk elem_size bytes) = Z.to_nat (bytes / elem_size).
Proof. unfold malloc. by rewrite length_replicate. Qed.

(** X6.  The program needs samples of 16 bits or more.  When the header of
    the sample input declares fewer than 16 bits per sample (and at least
    one byte of data) the run is undefined: below 8 bits the sample count is
    a division by zero; from 8 to 15 bits the count N is the byte count,
    while the buffer of [malloc(subchunk2_size)] bytes holds only half as
    many 16-bit cells, so that [fread] or, at the latest, the report of the
    highest and lowest sample leaves the buffer. *)
Theorem createOutputFile_needs_16_bit_samples (junk_short : Z) (junk_float : float)
    (fuel : nat) (f f1 : FileData) :
  readInputFileHeaders fuel f = Some f1 ->
  0 <= bits_per_sample (header_sample f1) < 16 ->
  1 <= subchunk2_size (header_sample f1) ->
  createOutputFile junk_short junk_float fuel f = None.
Proof.
  intros Hread Hbits Hsize. unfold createOutputFile. rewrite Hread. cbn [mbind option_bind].
  set (size := subchunk2_size (header_sample f1)) in *.
  destruct (decide (0 <= bits_per_sample (header_sample f1) < 8)) as [H8 | H8].
  { rewrite (Z.quot_small (bits_per_sample (header_sample f1)) 8) by done. done. }
  assert (Hq : Z.quot (bits_per_sample (header_sample f1)) 8 = 1).
  { rewrite Z.quot_div_nonneg by lia.
    symmetry. apply (Z.div_unique _ 8 1 (bits_per_sample (header_sample f1) - 8)); lia. }
  rewrite Hq.
  replace (int_div size 1) with (Some size)
    by (unfold int_div; rewrite !decide_False by lia; by rewrite Z.quot_1_r).
  cbn [mbind option_bind].
  destruct (int_div _ _) as [M|]; cbn [mbind option_bind]; [| done].
  unfold getDataSamplesFromInputFiles.
  destruct (fread_shorts (malloc junk_short 2 size) size (sample_file f1))
    as [[x sf]|] eqn:Hx; cbn [mbind option_bind]; [| done].
  destruct (fread_shorts _ M (impulse_file f1)) as [[h imf]|]; cbn [mbind option_bind]; [| done].
  apply fread_shorts_length in Hx. rewrite length_malloc in Hx.
  rewrite <- (Z2Nat.id size) at 1 by lia.
  rewrite reportMaxMinIntegerSamples_past_end; [done |].
  rewrite Hx. apply Z2Nat.inj_lt; [| lia |].
  - apply Z.div_pos; lia.
  - apply Z.div_lt; lia.
Qed.

Lemma createOutputFile_needs_16_bit_samples_witness :
  createOutputFile 0 S754_nan 0
    (open_files
       (list_byte_of_string "RIFF" ++ le_encode 4 38 ++ list_byte_of_string "WAVEfmt " ++
        le_encode 4 16 ++ le_encode 2 1 ++ le_encode 2 1 ++ le_encode 4 44100 ++
        le_encode 4 44100 ++ le_encode 2 1 ++ le_encode 2 8 ++
        char4_bytes data_tag ++ le_encode 4 2 ++ [x01; x02])
       (wav_bytes [16384])) = None.
Proof.
  eapply (createOutputFile_needs_16_bit_samples 0 S754_nan 0).
  - vm_compute. reflexivity.
  - vm_compute. split; [discriminate | reflexivity].
  - vm_compute. discriminate.
Defined.

Lemma sample_of_float_short (v : float) (z : Z) : sample_of_float v = Some z -> is_short z.
Proof.
  unfold sample_of_float, short_of_double.
  destruct (trunc _) as [z'|]; [| done]. simpl.
  case_decide as Hz; [| done]. by intros [= <-].
Qed.

Lemma createShortIntegerSamplesFromFloatSamples_steps (fs : list float) (k : nat) :
  forall (i : nat) (t t' : list Z),
    for_steps k (Z.of_nat i)
      (fun i ss => f ← aget fs i; s ← sample_of_float f; aset ss i s) t = Some t' ->
    (i + k <= length t)%nat -> Forall is_short (take i t) ->
    length t' = length t /\ Forall is_short (take (i + k) t').
Proof.
  induction k as [|k IH]; intros i t t' Hrun Hlen Hshort; simpl in Hrun.
  - injection Hrun as <-. by rewrite Nat.add_0_r.
  - destruct (aget fs (Z.of_nat i)) as [v|]; [| done]. simpl in Hrun.
    destruct (sample_of_float v) as [z|] eqn:Hz; [| done]. simpl in Hrun.
    rewrite aset_of_nat in Hrun by lia. simpl in Hrun.
    replace (Z.of_nat i + 1) with (Z.of_nat (S i)) in Hrun by lia.
    destruct (IH (S i) _ _ Hrun) as [Hl Hs].
    + rewrite length_insert. lia.
    + rewrite (take_S_r _ _ z) by (apply list_lookup_insert_eq; lia).
      rewrite take_insert_ge by lia.
      apply Forall_app. split; [done |].
      apply Forall_singleton. by apply sample_of_float_short in Hz.
    + rewrite length_insert in Hl. split; [done |].
      by replace (i + S k)%nat with (S i + k)%nat by lia.
Qed.

Lemma createShortIntegerSamplesFromFloatSamples_shorts
    (fs : list float) (n : nat) (dst out : list Z) :
  createShortIntegerSamplesFromFloatSamples fs (Z.of_nat n) dst = Some out ->
  (n <= length dst)%nat ->
  length out = length dst /\ Forall is_short (take n out).
Proof.
  unfold createShortIntegerSamplesFromFloatSamples, for_loop. rewrite Nat2Z.id.
  intros Hrun Hn.
  apply (createShortIntegerSamplesFromFloatSamples_steps fs n 0 dst out Hrun); [lia |].
  rewrite take_0. constructor.
Qed.

Lemma bind_Some_inv {A B} (m : option A) (k : A -> option B) (b : B) :
  m ≫= k = Some b -> exists a, m = Some a /\ k a = Some b.
Proof. destruct m as [a|]; [| done]. intros H. by exists a. Qed.

(** X7.  Every defined run of [createOutputFile] appends to the output one
    44-byte header and the 2 P bytes of P samples, all of them 16-bit
    values, where P >= 0 is N + M - 1 as an [int] and N and M are the sample
    counts computed from the two headers the locator returned; the header
    written is the header of the sample input with sub-block length 16,
    data length 2 P and overall length 36 + 2 P (as [int]s). *)
Theorem createOutputFile_output_shape (junk_short : Z) (junk_float : float)
    (fuel : nat) (f f' : FileData) :
  createOutputFile junk_short junk_float fuel f = Some f' ->
  exists f1 N M y,
    readInputFileHeaders fuel f = Some f1 /\
    int_div (subchunk2_size (header_sample f1))
            (Z.quot (bits_per_sample (header_sample f1)) 8) = Some N /\
    int_div (subchunk2_size (header_impulse f1))
            (Z.quot (bits_per_sample (header_impulse f1)) 8) = Some M /\
    Z.of_nat (length y) = wrap32 (N + M - 1) /\
    Forall is_short y /\
    header_output f'
    = set_chunk_size (wrap32 (36 + wrap32 (Z.of_nat (length y) * 2)))
        (set_subchunk2_size (wrap32 (Z.of_nat (length y) * 2))
           (set_subchunk1_size 16 (header_sample f1))) /\
    output_file f' = output_file f ++ header_image (header_output f') ++ bytes_of_shorts y /\
    length (output_file f') = (length (output_file f) + 44 + 2 * length y)%nat.
Proof.
  unfold createOutputFile. intros Hrun.
  apply bind_Some_inv in Hrun as (f1 & Hread & Hrun).
  apply bind_Some_inv in Hrun as (N & HN & Hrun).
  apply bind_Some_inv in Hrun as (M & HM & Hrun).
  apply bind_Some_inv in Hrun as ([[x h] f2] & Hget & Hrun).
  apply bind_Some_inv in Hrun as (_ & _ & Hrun).
  apply bind_Some_inv in Hrun as (_ & _ & Hrun).
  apply bind_Some_inv in Hrun as (xf & _ & Hrun).
  apply bind_Some_inv in Hrun as (hf & _ & Hrun).
  apply bind_Some_inv in Hrun as (yf & _ & Hrun).
  apply bind_Some_inv in Hrun as (y & Hy & Hrun).
  apply bind_Some_inv in Hrun as (_ & _ & Hrun).
  apply bind_Some_inv in Hrun as (_ & _ & Hrun).
  set (P := wrap32 (N + M - 1)) in *.
  assert (Hf2 : header_sample f2 = header_sample f1 /\ output_file f2 = output_file f1).
  { unfold getDataSamplesFromInputFiles in Hget.
    apply bind_Some_inv in Hget as ([x' sf] & _ & Hget).
    apply bind_Some_inv in Hget as ([h' imf] & _ & Hget).
    injection Hget as _ _ <-. done. }
  assert (Hf1 : output_file f1 = output_file f).
  { rewrite readInputFileHeaders_inputs in Hread.
    apply bind_Some_inv in Hread as (s & _ & Hread).
    apply bind_Some_inv in Hread as (i & _ & Hread).
    by injection Hread as <-. }
  assert (HP : 0 <= P).
  { unfold writeOutputFile, fwrite_shorts in Hrun. by case_decide. }
  assert (HPdef : P = wrap32 (N + M - 1)) by done. clearbody P.
  destruct (Z_of_nat_complete P HP) as [n ->].
  assert (Hlen : length (malloc junk_short 2 (Z.of_nat n * 2)) = n).
  { rewrite length_malloc, Z.div_mul by lia. lia. }
  apply createShortIntegerSamplesFromFloatSamples_shorts in Hy as [Hly Hsy]; [| lia].
  rewrite Hlen in Hly. rewrite <- Hly, firstn_all in Hsy. subst n.
  unfold writeOutputFile in Hrun. rewrite fwrite_shorts_spec in Hrun.
  cbn [mbind option_bind] in Hrun. injection Hrun as <-.
  destruct Hf2 as [Hh2 Ho2].
  exists f1, N, M, y. cbn [header_output output_file].
  rewrite Hh2, Ho2, Hf1.
  split; [done |]. split; [done |]. split; [done |]. split; [done |].
  split; [done |]. split; [done |].
  split; [by rewrite <- app_assoc |].
  rewrite !length_app, header_image_length, length_bytes_of_shorts. lia.
Qed.

Lemma createOutputFile_output_shape_witness :
  exists f' y,
    createOutputFile 0 S754_nan 1
      (open_files (wav_bytes [16384; -8192]) (wav_bytes [16384])) = Some f' /\
    length y = 2%nat /\
    output_file f' = header_image (header_output f') ++ bytes_of_shorts y.
Proof.
  destruct (createOutputFile 0 S754_nan 1
              (open_files (wav_bytes [16384; -8192]) (wav_bytes [16384])))
    as [f'|] eqn:Hrun; [| vm_compute in Hrun; discriminate Hrun].
  destruct (createOutputFile_output_shape 0 S754_nan 1 _ _ Hrun)
    as (f1 & N & M & y & Hread & HN & HM & Hy & _ & _ & Hout & _).
  exists f', y. split; [reflexivity |]. split; [| exact Hout].
  rewrite readInputFileHeaders_inputs in Hread. vm_compute in Hread.
  injection Hread as <-. vm_compute in HN, HM.
  injection HN as <-. injection HM as <-.
  change (wrap32 (2 + 1 - 1)) with 2 in Hy. lia.
Defined.

(* ====================================================================== *)
(** ** Silent inputs *)

Lemma f32_mul_zero (a b : float) :
  is_finite a = true -> is_finite b = true ->
  a = float_of_sample 0 \/ b = float_of_sample 0 ->
  exists s, f32_mul a b = S754_zero s.
Proof.
  change (float_of_sample 0) with (S754_zero false).
  intros Ha Hb [-> | ->].
  - destruct b; try done; by eexists.
  - destruct a; try done; by eexists.
Qed.

Lemma f32_add_zero (s : bool) : f32_add f_0_0 (S754_zero s) = f_0_0.
Proof. by destruct s. Qed.

(** The sums of a convolution one operand of which is silent are all
    [+0.0]. *)
Lemma conv_partial_silent (x h : list float) (p k : nat) :
  Forall (fun v => is_finite v = true) x -> Forall (fun v => is_finite v = true) h ->
  Forall (fun v => v = float_of_sample 0) x \/ Forall (fun v => v = float_of_sample 0) h ->
  conv_partial f_0_0 f32_add f32_mul x h k p = f_0_0.
Proof.
  intros Hx Hh Hz. induction k as [|k IH]; [done |].
  rewrite conv_partial_S, IH.
  unfold conv_term. case_decide; [| done].
  destruct (x !! k) as [xn|] eqn:Hxn; [| done]. simpl.
  destruct (h !! (p - k)%nat) as [hm|] eqn:Hhm; [| done]. simpl.
  destruct (f32_mul_zero xn hm) as [s ->].
  - exact (proj1 (Forall_lookup _ x) Hx k xn Hxn).
  - exact (proj1 (Forall_lookup _ h) Hh _ hm Hhm).
  - destruct Hz as [Hz | Hz].
    + left. exact (proj1 (Forall_lookup _ x) Hz k xn Hxn).
    + right. exact (proj1 (Forall_lookup _ h) Hz _ hm Hhm).
  - apply f32_add_zero.
Qed.

Lemma conv_spec_silent (x h : list float) :
  Forall (fun v => is_finite v = true) x -> Forall (fun v => is_finite v = true) h ->
  Forall (fun v => v = float_of_sample 0) x \/ Forall (fun v => v = float_of_sample 0) h ->
  conv_spec f_0_0 f32_add f32_mul x h = replicate (length x + length h - 1) f_0_0.
Proof.
  intros Hx Hh Hz. unfold conv_spec. symmetry.
  apply list_eq_lookup_seq; [by rewrite length_replicate |].
  intros p Hp. rewrite lookup_replicate_2 by done. f_equal. symmetry.
  by apply conv_partial_silent.
Qed.

(** The scan on a buffer of zeros: from the second sample on nothing
    changes, and the scale is 0. *)
Lemma renormalize_zeros (n : nat) :
  renormalize (replicate (S (S n)) f_0_0) = replicate (S (S n)) S754_nan.
Proof.
  set (s2 := scan_step f_0_0 (scan_step f_0_0 scan_init)).
  assert (Hfix : scan_step f_0_0 s2 = s2) by (vm_compute; reflexivity).
  assert (Hscan : scan_of (replicate (S (S n)) f_0_0) = s2).
  { unfold scan_of. change (replicate (S (S n)) f_0_0) with (f_0_0 :: f_0_0 :: replicate n f_0_0).
    cbn [foldl]. fold s2.
    induction n as [|n IH]; [done |]. cbn [replicate foldl]. by rewrite Hfix. }
  unfold renormalize, largest_of. rewrite Hscan.
  replace (scan_result s2) with f_0_0 by (vm_compute; reflexivity).
  generalize (S (S n)). intros m.
  induction m as [|m IH]; [done |]. cbn [replicate map]. rewrite IH. f_equal.
Qed.

(** X8.  Silence in, no defined output.  When one of the two inputs holds
    only samples 0 (and the other one finite values, as every sample file
    gives), each raw sum is +0.0, the peak is 0, and for an output of two
    samples or more [convolve] returns 0/0 = NaN in every cell; the
    conversion to [short] of the first of them is undefined. *)
Theorem convolve_of_silent_input (x h y : list float) (out : list Z) :
  Forall (fun v => is_finite v = true) x -> Forall (fun v => is_finite v = true) h ->
  Forall (fun v => v = float_of_sample 0) x \/ Forall (fun v => v = float_of_sample 0) h ->
  length y = (length x + length h - 1)%nat -> (2 <= length y)%nat ->
  convolve x (Z.of_nat (length x)) h (Z.of_nat (length h)) y (Z.of_nat (length y))
  = Some (replicate (length y) S754_nan) /\
  createShortIntegerSamplesFromFloatSamples
    (replicate (length y) S754_nan) (Z.of_nat (length y)) out = None.
Proof.
  intros Hx Hh Hz Hy H2. split.
  - rewrite convolve_spec by done. f_equal.
    rewrite conv_spec_silent by done. rewrite <- Hy.
    destruct (length y) as [|[|n]]; [lia | lia |]. apply renormalize_zeros.
  - unfold createShortIntegerSamplesFromFloatSamples, for_loop. rewrite Nat2Z.id.
    destruct (length y) as [|n]; [lia |]. done.
Qed.

Lemma convolve_of_silent_input_witness :
  convolve (map float_of_sample [0; 0; 0]) 3 (map float_of_sample [16384; -32768]) 2
           (replicate 4 S754_nan) 4
  = Some (replicate 4 S754_nan).
Proof.
  refine (proj1 (convolve_of_silent_input
                   (map float_of_sample [0; 0; 0]) (map float_of_sample [16384; -32768])
                   (replicate 4 S754_nan) [] _ _ _ _ _)).
  - repeat constructor.
  - repeat constructor.
  - left. repeat constructor.
  - reflexivity.
  - simpl. lia.
Defined.

(* ====================================================================== *)
(** ** The sample report; delayed inputs *)

Lemma reportMaxMinIntegerSamples_reported (samples : list Z) (n : Z) :
  reportMaxMinIntegerSamples samples n = (_ ← reportedMaxMin samples n; Some ()).
Proof. reflexivity. Qed.

(** X9.  [reportMaxMinIntegerSamples] on a whole array reads inside the
    array, and the values it reports are the maximum and the minimum of the
    samples and 0: here the [else if] loses nothing, since a sample above
    [highest >= 0] is never below [lowest <= 0]. *)
Theorem reportedMaxMin_spec (samples : list Z) :
  reportedMaxMin samples (Z.of_nat (length samples))
  = Some (foldl Z.max 0 samples, foldl Z.min 0 samples) /\
  reportMaxMinIntegerSamples samples (Z.of_nat (length samples)) = Some ().
Proof.
  assert (H : reportedMaxMin samples (Z.of_nat (length samples))
              = Some (foldl Z.max 0 samples, foldl Z.min 0 samples)).
  { unfold reportedMaxMin.
    destruct (for_loop_inv
                (fun k (s : Z * Z) =>
                   s = (foldl Z.max 0 (take k samples), foldl Z.min 0 (take k samples)) /\
                   s.2 <= 0 <= s.1)
                (fun i '(hi, lo) =>
                   thisSample ← aget samples i;
                   Some (if decide (thisSample > hi) then (thisSample, lo)
                         else if decide (thisSample < lo) then (hi, thisSample)
                         else (hi, lo)))
                (length samples) (0, 0)) as (s & Hs & -> & _).
    - done.
    - intros j [hi lo] Hj [[= -> ->] Hle]. simpl in Hle.
      destruct (lookup_lt_is_Some_2 samples j Hj) as [v Hv].
      rewrite aget_of_nat, Hv. simpl. eexists. split; [done |].
      rewrite (take_S_r _ _ _ Hv), !foldl_app. simpl.
      repeat case_decide; simpl; split; try (f_equal; lia); lia.
    - by rewrite Hs, firstn_all. }
  split; [exact H |].
  by rewrite reportMaxMinIntegerSamples_reported, H.
Qed.

(** *** A leading silent sample delays the raw result *)

Lemma conv_first_term_silent (x h : list float) (p : nat) :
  Forall (fun v => is_finite v = true) h ->
  foldl f32_add f_0_0 (omap (conv_term f32_mul (float_of_sample 0 :: x) h p) [0%nat]) = f_0_0.
Proof.
  intros Hh. unfold conv_term. csimpl. rewrite Nat.sub_0_r.
  destruct (h !! p) as [hp|] eqn:Hhp; cbn [mbind option_bind foldl]; [| done].
  pose proof (proj1 (Forall_lookup _ h) Hh _ hp Hhp) as Hfin. cbv beta in Hfin.
  destruct hp as [[]| | |[] m e]; done.
Qed.

Lemma conv_sum_delay (x h : list float) (p : nat) :
  Forall (fun v => is_finite v = true) h ->
  conv_sum f_0_0 f32_add f32_mul (float_of_sample 0 :: x) h (S p)
  = conv_sum f_0_0 f32_add f32_mul x h p.
Proof.
  intros Hh. unfold conv_sum, conv_partial, conv_terms.
  change (length (float_of_sample 0 :: x)) with (S (length x)).
  change (seq 0 (S (length x))) with ([0%nat] ++ seq 1 (length x)).
  rewrite omap_app, foldl_app, conv_first_term_silent by done.
  rewrite <- fmap_S_seq, omap_map. f_equal.
  apply omap_ext_in. intros n _. unfold conv_term.
  change ((float_of_sample 0 :: x) !! S n) with (x !! n).
  change (S p - S n)%nat with (p - n)%nat.
  destruct (decide (n <= p)%nat).
  - by rewrite !decide_True by lia.
  - by rewrite !decide_False by lia.
Qed.

Lemma conv_sum_delay_0 (x h : list float) :
  Forall (fun v => is_finite v = true) h ->
  conv_sum f_0_0 f32_add f32_mul (float_of_sample 0 :: x) h 0 = f_0_0.
Proof.
  intros Hh. unfold conv_sum, conv_partial, conv_terms.
  change (length (float_of_sample 0 :: x)) with (S (length x)).
  change (seq 0 (S (length x))) with ([0%nat] ++ seq 1 (length x)).
  rewrite omap_app, foldl_app, conv_first_term_silent by done.
  rewrite (omap_none _ (seq 1 (length x))); [done |].
  intros n Hn%elem_of_seq. unfold conv_term. by rewrite decide_False by lia.
Qed.

Lemma conv_spec_delay (x h : list float) :
  Forall (fun v => is_finite v = true) h -> (1 <= length h)%nat ->
  conv_spec f_0_0 f32_add f32_mul (float_of_sample 0 :: x) h
  = f_0_0 :: conv_spec f_0_0 f32_add f32_mul x h.
Proof.
  intros Hh H1. unfold conv_spec.
  change (length (float_of_sample 0 :: x)) with (S (length x)).
  replace (S (length x) + length h - 1)%nat with (S (length x + length h - 1)) by lia.
  change (seq 0 (S (length x + length h - 1)))
    with (0%nat :: seq 1 (length x + length h - 1)).
  rewrite <- fmap_S_seq. simpl. rewrite conv_sum_delay_0 by done. f_equal.
  rewrite map_map. apply map_ext. intros p. by apply conv_sum_delay.
Qed.

(** X10.  The raw convolution is invariant under a delay: with an impulse
    response of finite values, one more sample 0 in front of the input puts
    one +0.0 in front of the raw result and changes no other sample, bit
    for bit. *)
Theorem convolve_raw_delay (x h y y' : list float) :
  Forall (fun v => is_finite v = true) h -> (1 <= length h)%nat ->
  length y = (length x + length h - 1)%nat -> length y' = S (length y) ->
  exists raw,
    convolve_raw x (Z.of_nat (length x)) h (Z.of_nat (length h)) y (Z.of_nat (length y))
    = Some raw /\
    convolve_raw (float_of_sample 0 :: x) (Z.of_nat (length x) + 1) h (Z.of_nat (length h))
      y' (Z.of_nat (length y) + 1)
    = Some (float_of_sample 0 :: raw).
Proof.
  intros Hh H1 Hy Hy'.
  exists (conv_spec f_0_0 f32_add f32_mul x h).
  split; [by apply convolve_raw_spec |].
  replace (Z.of_nat (length x) + 1) with (Z.of_nat (length (float_of_sample 0 :: x)))
    by (simpl length; lia).
  replace (Z.of_nat (length y) + 1) with (Z.of_nat (length y')) by lia.
  rewrite convolve_raw_spec by (simpl length; lia).
  by rewrite conv_spec_delay.
Qed.

Lemma convolve_raw_delay_witness :
  exists raw,
    convolve_raw (map float_of_sample [16384; 8192]) 2 (map float_of_sample [16384; -16384]) 2
      (replicate 3 S754_nan) 3 = Some raw /\
    convolve_raw (map float_of_sample [0; 16384; 8192]) 3
      (map float_of_sample [16384; -16384]) 2 (replicate 4 S754_nan) 4
    = Some (float_of_sample 0 :: raw).
Proof.
  apply (convolve_raw_delay (map float_of_sample [16384; 8192])
           (map float_of_sample [16384; -16384]) (replicate 3 S754_nan) (replicate 4 S754_nan)).
  - repeat constructor.
  - simpl. lia.
  - reflexivity.
  - reflexivity.
Defined.

(* ====================================================================== *)
(** ** Values and order of binary32 and binary64 numbers *)

Lemma digits_bounds (m : positive) :
  2 ^ (Z.pos (digits2_pos m) - 1) <= Z.pos m < 2 ^ Z.pos (digits2_pos m).
Proof.
  rewrite digits2_pos_size.
  pose proof (Pos.size_gt m) as Hgt. pose proof (Pos.size_le m) as Hle.
  apply Pos2Z.pos_lt_pos in Hgt. apply Pos2Z.pos_le_pos in Hle.
  rewrite Pos2Z.inj_pow in Hgt, Hle. rewrite (Pos2Z.inj_xO m) in Hle.
  split; [| exact Hgt].
  replace (Z.pos (Pos.size m)) with (Z.succ (Z.pos (Pos.size m) - 1)) in Hle by lia.
  rewrite Z.pow_succ_r in Hle by lia. lia.
Qed.

Lemma digits_unique (m : positive) (d : Z) :
  2 ^ (d - 1) <= Z.pos m < 2 ^ d -> Z.pos (digits2_pos m) = d.
Proof.
  intros [Hlo Hhi]. pose proof (digits_bounds m) as [Blo Bhi].
  set (d0 := Z.pos (digits2_pos m)) in *.
  destruct (Z.lt_trichotomy d0 d) as [Hlt | [Heq | Hgt]]; [| done |].
  - assert (2 ^ d0 <= 2 ^ (d - 1)) by (apply Z.pow_le_mono_r; lia). lia.
  - assert (d < 0 \/ 0 <= d) as [Hneg | Hpos] by lia.
    + rewrite Z.pow_neg_r in Hhi by lia. lia.
    + assert (2 ^ d <= 2 ^ (d0 - 1)) by (apply Z.pow_le_mono_r; lia). lia.
Qed.

Lemma pow2_pos (e : Z) : 0 <= e -> 0 < 2 ^ e.
Proof. intros. apply Z.pow_pos_nonneg; lia. Qed.

Section Canonical.
Variables prec emax : Z.
Hypothesis prec_pos : 0 < prec.
Hypothesis emin_low : -1200 <= emin prec emax.

Lemma bounded_cases (m : positive) (e : Z) :
  bounded prec emax m e = true <->
  ((Z.pos (digits2_pos m) = prec /\ emin prec emax <= e) \/
   (Z.pos (digits2_pos m) < prec /\ e = emin prec emax)) /\ e <= emax - prec.
Proof.
  unfold bounded, canonical_mantissa, fexp.
  rewrite andb_true_iff, Z.eqb_eq, Z.leb_le. lia.
Qed.

(** On canonical numbers the order of the exponents and mantissas is the
    order of the values. *)
Lemma canonical_compare (m1 m2 : positive) (e1 e2 : Z) :
  bounded prec emax m1 e1 = true -> bounded prec emax m2 e2 = true ->
  (e1 < e2 \/ (e1 = e2 /\ Z.pos m1 < Z.pos m2)) <->
  Z.pos m1 * 2 ^ (e1 + 1200) < Z.pos m2 * 2 ^ (e2 + 1200).
Proof.
  intros [H1 _]%bounded_cases [H2 _]%bounded_cases.
  pose proof (digits_bounds m1) as [L1 U1]. pose proof (digits_bounds m2) as [L2 U2].
  assert (Hshift : forall (a b : positive) (ea eb : Z),
            -1200 <= ea < eb ->
            Z.pos a < 2 ^ prec -> 2 ^ (prec - 1) <= Z.pos b ->
            Z.pos a * 2 ^ (ea + 1200) < Z.pos b * 2 ^ (eb + 1200)).
  { intros a b ea eb Hab Ha Hb.
    replace (eb + 1200) with ((eb - ea - 1) + 1 + (ea + 1200)) by lia.
    rewrite (Z.pow_add_r 2 (eb - ea - 1 + 1) (ea + 1200)) by lia.
    rewrite (Z.pow_add_r 2 (eb - ea - 1) 1) by lia. change (2 ^ 1) with 2.
    pose proof (pow2_pos (ea + 1200) ltac:(lia)) as Hp.
    pose proof (pow2_pos (eb - ea - 1) ltac:(lia)) as Hq.
    assert (2 ^ prec = 2 * 2 ^ (prec - 1)) as Hpp.
    { replace prec with (Z.succ (prec - 1)) at 1 by lia. by rewrite Z.pow_succ_r by lia. }
    rewrite Hpp in Ha. clear Hpp.
    set (P := 2 ^ (ea + 1200)) in *. set (Q := 2 ^ (eb - ea - 1)) in *.
    set (X := 2 ^ (prec - 1)) in *. clearbody P Q X.
    assert (Z.pos a < Z.pos b * (Q * 2)) by nia. nia. }
  assert (Hd1 : Z.pos m1 < 2 ^ prec).
  { destruct H1 as [[Hd _] | [Hlt _]]; [by rewrite <- Hd |].
    assert (2 ^ Z.pos (digits2_pos m1) <= 2 ^ prec) by (apply Z.pow_le_mono_r; lia). lia. }
  assert (Hd2 : Z.pos m2 < 2 ^ prec).
  { destruct H2 as [[Hd _] | [Hlt _]]; [by rewrite <- Hd |].
    assert (2 ^ Z.pos (digits2_pos m2) <= 2 ^ prec) by (apply Z.pow_le_mono_r; lia). lia. }
  destruct (Z.lt_trichotomy e1 e2) as [Hlt | [-> | Hgt]].
  - split; [intros _ | by left].
    apply Hshift; [lia | done |].
    destruct H2 as [[Hd _] | [_ ->]]; [by rewrite <- Hd | lia].
  - pose proof (pow2_pos (e2 + 1200) ltac:(lia)) as Hp.
    split.
    + intros [? | [_ Hm]]; [lia |]. nia.
    + intros Hv. right. split; [done |]. nia.
  - split; [lia |]. intros Hv. exfalso.
    assert (Z.pos m2 * 2 ^ (e2 + 1200) < Z.pos m1 * 2 ^ (e1 + 1200)); [| lia].
    apply Hshift; [lia | done |].
    destruct H1 as [[Hd _] | [_ ->]]; [by rewrite <- Hd | lia].
Qed.

Lemma scaled_pos (m : positive) (e : Z) :
  -1200 <= e -> 0 < Z.pos m * 2 ^ (e + 1200).
Proof. intros He. pose proof (pow2_pos (e + 1200) ltac:(lia)). lia. Qed.

Lemma bounded_low (m : positive) (e : Z) : bounded prec emax m e = true -> -1200 <= e.
Proof. intros [H _]%bounded_cases. lia. Qed.

(** The comparison of two values of the format is the comparison of their
    values. *)
Lemma flt_scaled (a b : spec_float) :
  valid prec emax a -> valid prec emax b -> flt a b = true <-> scaled a < scaled b.
Proof.
  intros [Fa Va] [Fb Vb].
  destruct a as [sa | | | sa ma ea], b as [sb | | | sb mb eb]; try done; simpl in Va, Vb.
  - pose proof (scaled_pos mb eb (bounded_low _ _ Vb)).
    unfold flt, SFltb, SFcompare, scaled. destruct sb; split; try done; lia.
  - pose proof (scaled_pos ma ea (bounded_low _ _ Va)).
    unfold flt, SFltb, SFcompare, scaled. destruct sa; split; try done; lia.
  - pose proof (scaled_pos ma ea (bounded_low _ _ Va)).
    pose proof (scaled_pos mb eb (bounded_low _ _ Vb)).
    pose proof (canonical_compare ma mb ea eb Va Vb) as Hab.
    pose proof (canonical_compare mb ma eb ea Vb Va) as Hba.
    unfold flt, SFltb, SFcompare, scaled.
    change (Pos.compare_cont Eq ma mb) with (Pos.compare ma mb).
    destruct sa, sb.
    + destruct (Z.compare_spec ea eb) as [-> | He | He];
        [destruct (Pos.compare_spec ma mb) as [-> | Hm | Hm] |..]; simpl;
        split; try done; try lia.
    + split; [lia | done].
    + split; [done | lia].
    + destruct (Z.compare_spec ea eb) as [-> | He | He];
        [destruct (Pos.compare_spec ma mb) as [-> | Hm | Hm] |..]; simpl;
        split; try done; try lia.
Qed.

Lemma fle_scaled (a b : spec_float) :
  valid prec emax a -> valid prec emax b -> SFleb a b = true <-> scaled a <= scaled b.
Proof.
  intros [Fa Va] [Fb Vb].
  destruct a as [sa | | | sa ma ea], b as [sb | | | sb mb eb]; try done; simpl in Va, Vb.
  - pose proof (scaled_pos mb eb (bounded_low _ _ Vb)).
    unfold SFleb, SFcompare, scaled. destruct sb; split; try done; lia.
  - pose proof (scaled_pos ma ea (bounded_low _ _ Va)).
    unfold SFleb, SFcompare, scaled. destruct sa; split; try done; lia.
  - pose proof (scaled_pos ma ea (bounded_low _ _ Va)).
    pose proof (scaled_pos mb eb (bounded_low _ _ Vb)).
    pose proof (canonical_compare ma mb ea eb Va Vb) as Hab.
    pose proof (canonical_compare mb ma eb ea Vb Va) as Hba.
    unfold SFleb, SFcompare, scaled.
    change (Pos.compare_cont Eq ma mb) with (Pos.compare ma mb).
    destruct sa, sb.
    + destruct (Z.compare_spec ea eb) as [-> | He | He];
        [destruct (Pos.compare_spec ma mb) as [-> | Hm | Hm] |..]; simpl;
        split; try done; try lia.
    + split; [lia | done].
    + split; [done | lia].
    + destruct (Z.compare_spec ea eb) as [-> | He | He];
        [destruct (Pos.compare_spec ma mb) as [-> | Hm | Hm] |..]; simpl;
        split; try done; try lia.
Qed.

End Canonical.

Lemma flt_scaled32 (a b : float) :
  valid32 a -> valid32 b -> flt a b = true <-> scaled a < scaled b.
Proof. apply flt_scaled; [lia | unfold emin; lia]. Qed.

Lemma flt_scaled64 (a b : double) :
  valid64 a -> valid64 b -> flt a b = true <-> scaled a < scaled b.
Proof. apply flt_scaled; [lia | unfold emin; lia]. Qed.

Lemma bounded32 (m : positive) (e : Z) :
  bounded 24 128 m e = true ->
  Z.pos (digits2_pos m) <= 24 /\ -149 <= e <= 104 /\
  Z.max (Z.pos (digits2_pos m) + e - 24) (-149) = e.
Proof.
  unfold bounded, canonical_mantissa, fexp, emin.
  rewrite andb_true_iff, Z.eqb_eq, Z.leb_le. lia.
Qed.

(** The promotion to [double] is exact. *)
Lemma double_of_float_valid (v : float) :
  valid32 v -> valid64 (double_of_float v) /\ scaled (double_of_float v) = scaled v.
Proof.
  intros [Fv Vv]. destruct v as [s | | | s m e]; try done.
  simpl in Vv. apply bounded32 in Vv as (Hd & He & Hc).
  set (k := Z.to_pos (53 - Z.pos (digits2_pos m))).
  assert (Hk : Z.pos k = 53 - Z.pos (digits2_pos m)) by (unfold k; rewrite Z2Pos.id; lia).
  unfold double_of_float.
  rewrite (round_shift_left 53 1024 s m k e); [| lia | unfold emin; lia].
  split.
  - split; [done |]. simpl. unfold bounded, canonical_mantissa, fexp, emin.
    rewrite digits2_pos_shift, Pos2Z.inj_add, andb_true_iff, Z.eqb_eq, Z.leb_le. lia.
  - unfold scaled. rewrite Zpos_shift. f_equal.
    rewrite <- Z.mul_assoc, <- Z.pow_add_r by lia. f_equal. f_equal. lia.
Qed.

Lemma fle_scaled64 (a b : double) :
  valid64 a -> valid64 b -> SFleb a b = true <-> scaled a <= scaled b.
Proof. apply fle_scaled; [lia | unfold emin; lia]. Qed.

Lemma flt_false_scaled64 (a b : double) :
  valid64 a -> valid64 b -> flt a b = false <-> scaled b <= scaled a.
Proof.
  intros Ha Hb. pose proof (flt_scaled64 a b Ha Hb) as H.
  destruct (flt a b).
  - split; [done |]. intros Hle. assert (scaled a < scaled b) by (by apply H). lia.
  - split; [| done]. intros _.
    destruct (decide (scaled a < scaled b)) as [Hlt|]; [| lia].
    apply H in Hlt. done.
Qed.

(** *** The floats of the samples *)

Lemma float_of_sample_shape (sg : bool) (p : positive) :
  Z.pos p <= 32768 ->
  float_of_double
    (f64_div (f64_mul (binary_round 53 1024 sg p 0) d_1_0) d_32768_0)
  = S754_finite sg (Pos.iter xO p (Z.to_pos (24 - Z.pos (digits2_pos p))))
      (Z.pos (digits2_pos p) - 39).
Proof.
  intros Hp.
  pose proof (digits_of_sample p Hp) as Hd.
  set (d := digits2_pos p) in *.
  set (k' := Z.to_pos (24 - Z.pos d)).
  assert (Hk' : Z.pos k' = 24 - Z.pos d) by (unfold k'; rewrite Z2Pos.id; lia).
  set (m := Pos.iter xO p k').
  assert (Hm : Z.pos (digits2_pos m) = 24).
  { unfold m. rewrite digits2_pos_shift, Pos2Z.inj_add. fold d. lia. }
  assert (HM : Z.pos (digits2_pos (Pos.iter xO m 29)) = 53).
  { rewrite digits2_pos_shift, Pos2Z.inj_add. lia. }
  assert (Hx : binary_round 53 1024 sg p 0
               = S754_finite sg (Pos.iter xO m 29) (Z.pos d - 53)).
  { unfold m. rewrite <- Pos.iter_add.
    rewrite (round_shift_left 53 1024 sg p (29 + k') 0).
    - f_equal; lia.
    - fold d. lia.
    - unfold emin. lia. }
  rewrite Hx.
  change d_1_0 with (S754_finite false two_52 (-52)).
  change d_32768_0 with (S754_finite false two_52 (-37)).
  rewrite (f64_mul_pow2 sg _ _ (-52) (Z.pos d - 53)) by (done || lia).
  rewrite (f64_div_pow2 sg _ _ (-37) (Z.pos d - 68)) by (done || lia).
  rewrite (float_of_double_exact sg m _ (Z.pos d - 39)) by (done || lia).
  done.
Qed.

Lemma float_of_sample_scaled (s : Z) :
  is_short s ->
  valid32 (float_of_sample s) /\ scaled (float_of_sample s) = s * 2 ^ 1185.
Proof.
  unfold is_short, SHRT_MIN, SHRT_MAX. intros Hs.
  assert (Hshape : forall sg p, Z.pos p <= 32768 ->
            valid32 (S754_finite sg (Pos.iter xO p (Z.to_pos (24 - Z.pos (digits2_pos p))))
                       (Z.pos (digits2_pos p) - 39)) /\
            scaled (S754_finite sg (Pos.iter xO p (Z.to_pos (24 - Z.pos (digits2_pos p))))
                      (Z.pos (digits2_pos p) - 39))
            = (if sg then -1 else 1) * (Z.pos p * 2 ^ 1185)).
  { intros sg p Hp. pose proof (digits_of_sample p Hp) as Hd.
    set (d := digits2_pos p) in *.
    assert (Hk' : Z.pos (Z.to_pos (24 - Z.pos d)) = 24 - Z.pos d) by (rewrite Z2Pos.id; lia).
    split.
    - split; [done |]. simpl. unfold bounded, canonical_mantissa, fexp, emin.
      rewrite digits2_pos_shift, Pos2Z.inj_add, andb_true_iff, Z.eqb_eq, Z.leb_le.
      fold d. lia.
    - unfold scaled. rewrite Zpos_shift, Hk'. f_equal.
      rewrite <- Z.mul_assoc, <- Z.pow_add_r by lia. f_equal. f_equal. lia. }
  unfold float_of_sample, double_of_int. destruct s as [|p|p].
  - split; [done | reflexivity].
  - change (binary_normalize 53 1024 (Z.pos p) 0 false) with (binary_round 53 1024 false p 0).
    rewrite float_of_sample_shape by lia.
    destruct (Hshape false p ltac:(lia)) as [Hv Hsc]. split; [done |]. rewrite Hsc. lia.
  - change (binary_normalize 53 1024 (Z.neg p) 0 false) with (binary_round 53 1024 true p 0).
    rewrite float_of_sample_shape by lia.
    destruct (Hshape true p ltac:(lia)) as [Hv Hsc]. split; [done |]. rewrite Hsc. lia.
Qed.

(** X11.  The float of a 16-bit sample s is a binary32 value, it is
    s / 32768 exactly (no rounding in the two double operations nor in the
    narrowing), and it lies in the range -1.0 <= f < 1.0 that the pipeline
    works in. *)
Theorem float_of_sample_exact_in_range (s : Z) :
  is_short s ->
  valid32 (float_of_sample s) /\
  scaled (float_of_sample s) * 32768 = s * 2 ^ 1200 /\
  fge (double_of_float (float_of_sample s)) (SFopp d_1_0) = true /\
  flt (double_of_float (float_of_sample s)) d_1_0 = true.
Proof.
  intros Hs. destruct (float_of_sample_scaled s Hs) as [Hv Hsc].
  destruct (double_of_float_valid _ Hv) as [Hvd Hscd].
  assert (H1 : valid64 d_1_0) by (split; reflexivity).
  assert (Hm1 : valid64 (SFopp d_1_0)) by (split; reflexivity).
  assert (Hpow : 2 ^ 1200 = 32768 * 2 ^ 1185) by reflexivity.
  unfold is_short, SHRT_MIN, SHRT_MAX in Hs.
  split; [done |]. split; [rewrite Hsc, Hpow; lia |]. split.
  - unfold fge. apply fle_scaled64; [done | done |].
    rewrite Hscd, Hsc. change (scaled (SFopp d_1_0)) with (- 2 ^ 1200). rewrite Hpow.
    pose proof (pow2_pos 1185 ltac:(lia)). nia.
  - apply flt_scaled64; [done | done |].
    rewrite Hscd, Hsc. change (scaled d_1_0) with (2 ^ 1200). rewrite Hpow.
    pose proof (pow2_pos 1185 ltac:(lia)). nia.
Qed.

Lemma float_of_sample_exact_in_range_witness :
  scaled (float_of_sample (-32768)) * 32768 = -32768 * 2 ^ 1200 /\
  flt (double_of_float (float_of_sample 32767)) d_1_0 = true.
Proof.
  split.
  - apply (float_of_sample_exact_in_range (-32768)). unfold is_short, SHRT_MIN, SHRT_MAX. lia.
  - apply (float_of_sample_exact_in_range 32767). unfold is_short, SHRT_MIN, SHRT_MAX. lia.
Defined.

(** *** The scan on a rising buffer *)

Lemma below_sentinel_in_double (v : float) :
  valid32 v -> flt v sentinel_high = true ->
  fgt (double_of_float v) (fabs (double_of_float sentinel_high)) = false.
Proof.
  intros Hv Hlt.
  destruct (double_of_float_valid v Hv) as [Hvd Hsc].
  assert (Hs : valid32 sentinel_high) by (split; reflexivity).
  destruct (double_of_float_valid sentinel_high Hs) as [Hsd Hss].
  change (fabs (double_of_float sentinel_high)) with (double_of_float sentinel_high).
  unfold fgt. change (SFltb ?a ?b) with (flt a b).
  apply flt_false_scaled64; [done | done |].
  rewrite Hsc, Hss. apply flt_scaled32 in Hlt; [lia | done | done].
Qed.

Lemma last_default {A} (c : A) (r : list A) (d d' : A) :
  List.last (c :: r) d = List.last (c :: r) d'.
Proof.
  revert c. induction r as [|b r IH]; intros c; [done |].
  change (List.last (b :: r) d = List.last (b :: r) d'). apply IH.
Qed.

Lemma last_elem_of {A} (r : list A) (d : A) : List.last r d ∈ d :: r.
Proof.
  revert d. induction r as [|b r IH]; intros d.
  - apply elem_of_cons. by left.
  - apply elem_of_cons. right. destruct r as [|c r].
    + apply elem_of_cons. by left.
    + change (List.last (b :: c :: r) d) with (List.last (c :: r) d).
      rewrite (last_default c r d b). apply IH.
Qed.

Lemma scan_rising (r : list float) :
  forall (s : scan),
    lowest s = sentinel_high ->
    (forall i a b, (highest s :: r) !! i = Some a -> (highest s :: r) !! S i = Some b ->
                   flt a b = true) ->
    highest (foldl (fun s v => scan_step v s) s r) = List.last r (highest s) /\
    lowest (foldl (fun s v => scan_step v s) s r) = sentinel_high.
Proof.
  induction r as [|b r IH]; intros s Hlo Hrise; [done |].
  assert (Hab : flt (highest s) b = true) by (by apply (Hrise 0%nat)).
  assert (Hh : highest (scan_step b s) = b).
  { rewrite highest_scan_step. unfold max_step, fgt.
    change (SFltb (highest s) b) with (flt (highest s) b). by rewrite Hab. }
  assert (Hl : lowest (scan_step b s) = sentinel_high).
  { rewrite lowest_scan_step. unfold fgt.
    change (SFltb (highest s) b) with (flt (highest s) b). by rewrite Hab. }
  destruct (IH (scan_step b s)) as [H1 H2].
  - done.
  - rewrite Hh. intros i a c Ha Hc. by apply (Hrise (S i)).
  - cbn [foldl]. rewrite H1, H2, Hh. split; [| done].
    destruct r as [|c r]; [done |].
    change (List.last (b :: c :: r) (highest s)) with (List.last (c :: r) (highest s)).
    apply last_default.
Qed.

(** X12.  On a strictly rising buffer of binary32 values between the
    sentinels, a buffer of one sample included, every sample raises
    [highest], so [lowest] keeps its sentinel: [largestSampleIn] returns
    9999999 whatever the samples are, and [scaleValuesToRangeOfPlusMinus1]
    divides by it. *)
Theorem largestSampleIn_of_rising_buffer (v0 : float) (r : list float) :
  Forall valid32 (v0 :: r) -> Forall within_sentinels (v0 :: r) ->
  (forall i a b, (v0 :: r) !! i = Some a -> (v0 :: r) !! S i = Some b -> flt a b = true) ->
  largestSampleIn (v0 :: r) (Z.of_nat (length (v0 :: r))) = Some sentinel_high /\
  scaleValuesToRangeOfPlusMinus1 (v0 :: r) (Z.of_nat (length (v0 :: r)))
  = Some (map (scale_sample sentinel_high) (v0 :: r)).
Proof.
  intros Hvalid Hwithin Hrise.
  assert (Hlargest : largest_of (v0 :: r) = sentinel_high).
  { unfold largest_of, scan_of. cbn [foldl].
    pose proof (proj1 (Forall_cons _ _ _) Hwithin) as [Hw0 _].
    destruct (scan_first_sample v0 Hw0) as [Hh1 Hl1].
    destruct (scan_rising r (scan_step v0 scan_init) Hl1) as [Hh Hl].
    { by rewrite Hh1. }
    rewrite Hh1 in Hh.
    set (s := foldl (fun s v => scan_step v s) (scan_step v0 scan_init) r) in *.
    assert (Hin : highest s ∈ v0 :: r).
    { rewrite Hh. apply last_elem_of. }
    unfold scan_result. rewrite Hl.
    rewrite below_sentinel_in_double.
    - reflexivity.
    - exact (proj1 (Forall_forall _ _) Hvalid _ Hin).
    - exact (proj2 (proj1 (Forall_forall _ _) Hwithin _ Hin)). }
  split.
  - by rewrite largestSampleIn_spec, Hlargest.
  - rewrite scaleValuesToRangeOfPlusMinus1_spec. unfold renormalize. by rewrite Hlargest.
Qed.

Lemma largestSampleIn_of_rising_buffer_witness :
  largestSampleIn (map float_of_sample [-16384; 4096; 8192]) 3 = Some sentinel_high.
Proof.
  refine (proj1 (largestSampleIn_of_rising_buffer
                   (float_of_sample (-16384)) (map float_of_sample [4096; 8192]) _ _ _)).
  - repeat constructor.
  - repeat constructor.
  - intros [|[|[|i]]] a b Ha Hb; vm_compute in Ha, Hb; try discriminate;
      injection Ha as <-; injection Hb as <-; reflexivity.
Defined.

(* ====================================================================== *)
(** ** Rounding, and the range of the renormalized samples *)

(** *** Shifts and digit counts *)

Lemma shr_1_m (r : shr_record) : 0 <= shr_m r -> shr_m (shr_1 r) = shr_m r / 2.
Proof.
  destruct r as [m rb sb]. simpl. intros Hm.
  destruct m as [|[p|p|]|p]; cbn [shr_m]; try lia; try done.
  - apply (Z.div_unique (Z.pos p~1) 2 (Z.pos p) 1); lia.
  - apply (Z.div_unique (Z.pos p~0) 2 (Z.pos p) 0); lia.
Qed.

Lemma shr_m_iter (k : positive) (r : shr_record) :
  0 <= shr_m r ->
  shr_m (SpecFloat.iter_pos shr_1 k r) = shr_m r / 2 ^ Z.pos k.
Proof.
  intros Hm. rewrite iter_pos_iter.
  induction k as [|k IH] using Pos.peano_ind.
  - simpl. by rewrite shr_1_m.
  - rewrite Pos.iter_succ, shr_1_m, IH.
    + rewrite Z.div_div by (try apply Z.pow_pos_nonneg; lia).
      rewrite Pos2Z.inj_succ, Z.pow_succ_r by lia. f_equal. lia.
    + rewrite IH. apply Z.div_pos; [done | apply Z.pow_pos_nonneg; lia].
Qed.

(** Shifting out zero bits leaves no remainder. *)
Lemma shr_1_exact (m : Z) :
  0 <= m -> m mod 2 = 0 ->
  shr_1 {| shr_m := m; shr_r := false; shr_s := false |}
  = {| shr_m := m / 2; shr_r := false; shr_s := false |}.
Proof.
  intros Hm Hmod. destruct m as [|[p|p|]|p]; try lia.
  - done.
  - exfalso. rewrite Pos2Z.inj_xI, Z.add_comm, Z.mul_comm, Z.mod_add in Hmod by lia. done.
  - simpl. f_equal. apply (Z.div_unique (Z.pos p~0) 2 (Z.pos p) 0); lia.
  - done.
Qed.

Lemma shr_iter_exact (k : positive) (m : Z) :
  0 <= m -> m mod 2 ^ Z.pos k = 0 ->
  SpecFloat.iter_pos shr_1 k {| shr_m := m; shr_r := false; shr_s := false |}
  = {| shr_m := m / 2 ^ Z.pos k; shr_r := false; shr_s := false |}.
Proof.
  intros Hm. rewrite iter_pos_iter.
  induction k as [|k IH] using Pos.peano_ind; intros Hmod.
  - change (shr_1 {| shr_m := m; shr_r := false; shr_s := false |}
            = {| shr_m := m / 2 ^ 1; shr_r := false; shr_s := false |}).
    by rewrite shr_1_exact.
  - assert (Hk : 0 < 2 ^ Z.pos k) by (apply Z.pow_pos_nonneg; lia).
    assert (Hpow : 2 ^ Z.pos (Pos.succ k) = 2 ^ Z.pos k * 2).
    { rewrite Pos2Z.inj_succ, Z.pow_succ_r by lia. lia. }
    rewrite Hpow in Hmod |- *.
    apply Z.mod_divide in Hmod as [c Hc]; [| lia].
    assert (Hdiv : m / 2 ^ Z.pos k = c * 2).
    { rewrite Hc. replace (c * (2 ^ Z.pos k * 2)) with (c * 2 * 2 ^ Z.pos k) by ring.
      by rewrite Z.div_mul by lia. }
    rewrite Pos.iter_succ, IH.
    + rewrite shr_1_exact.
      * by rewrite Z.div_div by lia.
      * apply Z.div_pos; lia.
      * by rewrite Hdiv, Z.mod_mul.
    + rewrite Hc. replace (c * (2 ^ Z.pos k * 2)) with (c * 2 * 2 ^ Z.pos k) by ring.
      by rewrite Z.mod_mul by lia.
Qed.

Lemma shr_m_of_loc (m : Z) (l : location) : shr_m (shr_record_of_loc m l) = m.
Proof. by destruct l as [|[]]. Qed.

Lemma round_nearest_even_cases (m : Z) (l : location) :
  round_nearest_even m l = m \/ round_nearest_even m l = m + 1.
Proof. unfold round_nearest_even. destruct l as [|[]]; auto. destruct (Z.even m); auto. Qed.

Lemma Zdigits2_bounds (m : Z) :
  0 < m -> 2 ^ (Zdigits2 m - 1) <= m < 2 ^ Zdigits2 m.
Proof.
  destruct m as [|p|p]; try lia. intros _. simpl.
  rewrite digits2_pos_size.
  pose proof (Pos.size_gt p) as Hgt. pose proof (Pos.size_le p) as Hle.
  apply Pos2Z.pos_lt_pos in Hgt. apply Pos2Z.pos_le_pos in Hle.
  rewrite Pos2Z.inj_pow in Hgt, Hle. rewrite (Pos2Z.inj_xO p) in Hle.
  split; [| exact Hgt].
  replace (Z.pos (Pos.size p)) with (Z.succ (Z.pos (Pos.size p) - 1)) in Hle by lia.
  rewrite Z.pow_succ_r in Hle by lia. lia.
Qed.

Lemma Zdigits2_unique (m d : Z) :
  0 < m -> 2 ^ (d - 1) <= m < 2 ^ d -> Zdigits2 m = d.
Proof.
  intros Hm [Hlo Hhi]. pose proof (Zdigits2_bounds m Hm) as [Blo Bhi].
  set (d0 := Zdigits2 m) in *.
  assert (Hd0 : 0 < d0) by (unfold d0; destruct m; simpl; lia).
  destruct (Z.lt_trichotomy d0 d) as [Hlt | [Heq | Hgt]]; [| done |].
  - assert (2 ^ d0 <= 2 ^ (d - 1)) by (apply Z.pow_le_mono_r; lia). lia.
  - assert (d < 0 \/ 0 <= d) as [Hneg | Hpos] by lia.
    + rewrite Z.pow_neg_r in Hhi by lia. lia.
    + assert (2 ^ d <= 2 ^ (d0 - 1)) by (apply Z.pow_le_mono_r; lia). lia.
Qed.

Lemma Zdigits2_nonneg (m : Z) : 0 <= Zdigits2 m.
Proof. destruct m; simpl; lia. Qed.

Lemma Zdigits2_le (m d : Z) : 0 <= m -> 0 <= d -> m < 2 ^ d -> Zdigits2 m <= d.
Proof.
  intros Hm Hd Hlt. destruct (decide (m = 0)) as [-> | Hne]; [simpl; lia |].
  pose proof (Zdigits2_bounds m ltac:(lia)) as [Blo _].
  apply Z.nlt_ge. intros Hgt.
  assert (2 ^ d <= 2 ^ (Zdigits2 m - 1)) by (apply Z.pow_le_mono_r; lia). lia.
Qed.

Lemma Zdigits2_ge (m d : Z) : 0 <= d -> 2 ^ d <= m -> d + 1 <= Zdigits2 m.
Proof.
  intros Hd Hle. assert (0 < 2 ^ d) by (apply Z.pow_pos_nonneg; lia).
  pose proof (Zdigits2_bounds m ltac:(lia)) as [_ Bhi].
  apply Z.nlt_ge. intros Hgt.
  pose proof (Zdigits2_nonneg m).
  assert (2 ^ Zdigits2 m <= 2 ^ d) by (apply Z.pow_le_mono_r; lia). lia.
Qed.

(** *** One rounding *)

Section Rounding.
Variables prec emax : Z.
Hypothesis prec_pos : 0 < prec.

Lemma fexp_ge_emin (x : Z) : emin prec emax <= fexp prec emax x.
Proof. unfold fexp. lia. Qed.

Lemma fexp_mono (x y : Z) : x <= y -> fexp prec emax x <= fexp prec emax y.
Proof. unfold fexp. lia. Qed.

Lemma shr_nonpos (r : shr_record) (e n : Z) : n <= 0 -> shr r e n = (r, e).
Proof. unfold shr. destruct n; [done | lia | done]. Qed.

Lemma shr_pos (r : shr_record) (e n : Z) :
  0 < n -> 0 <= shr_m r ->
  exists r', shr r e n = (r', e + n) /\ shr_m r' = shr_m r / 2 ^ n /\
    (r = shr_record_of_loc (shr_m r) loc_Exact -> shr_m r mod 2 ^ n = 0 ->
     loc_of_shr_record r' = loc_Exact).
Proof.
  intros Hn Hm. unfold shr. destruct n as [|p|p]; [lia | | lia].
  eexists. split; [reflexivity |]. split; [by apply shr_m_iter |].
  intros Hr Hmod. rewrite Hr. simpl shr_record_of_loc.
  by rewrite shr_iter_exact.
Qed.

(** The result of [binary_round_aux]: the mantissa is shifted to the
    exponent of its binade and then rounded up or down. *)
Lemma binary_round_aux_shape (s : bool) (m e : Z) (l : location) :
  0 <= m -> e <= fexp prec emax (Zdigits2 m + e) ->
  exists m1,
    (m1 = m / 2 ^ (fexp prec emax (Zdigits2 m + e) - e) \/
     m1 = m / 2 ^ (fexp prec emax (Zdigits2 m + e) - e) + 1) /\
    (l = loc_Exact -> m mod 2 ^ (fexp prec emax (Zdigits2 m + e) - e) = 0 ->
     m1 = m / 2 ^ (fexp prec emax (Zdigits2 m + e) - e)) /\
    0 <= m / 2 ^ (fexp prec emax (Zdigits2 m + e) - e) < 2 ^ prec /\
    binary_round_aux prec emax s m e l
    = pack prec emax s m1 (fexp prec emax (Zdigits2 m + e)).
Proof.
  intros Hm Hn.
  set (e1 := fexp prec emax (Zdigits2 m + e)) in *.
  set (n := e1 - e).
  set (m0 := m / 2 ^ n).
  assert (Hpn : 0 < 2 ^ n) by (apply Z.pow_pos_nonneg; lia).
  assert (Hpp : 0 < 2 ^ prec) by (apply Z.pow_pos_nonneg; lia).
  assert (Hm0 : 0 <= m0 < 2 ^ prec).
  { split; [apply Z.div_pos; lia |].
    destruct (decide (m = 0)) as [-> | Hne]; [unfold m0; rewrite Z.div_0_l; lia |].
    pose proof (Zdigits2_bounds m ltac:(lia)) as [_ Hhi].
    apply Z.div_lt_upper_bound; [done |].
    rewrite <- Z.pow_add_r by lia.
    assert (2 ^ Zdigits2 m <= 2 ^ (n + prec)); [| lia].
    apply Z.pow_le_mono_r; [lia |]. unfold n, e1, fexp. lia. }
  assert (Hshift : exists r, shr (shr_record_of_loc m l) e n = (r, e1) /\ shr_m r = m0 /\
                     (l = loc_Exact -> m mod 2 ^ n = 0 -> loc_of_shr_record r = loc_Exact)).
  { destruct (decide (n = 0)) as [H0 | H0].
    - exists (shr_record_of_loc m l). rewrite shr_nonpos by lia.
      split; [f_equal; lia |]. rewrite shr_m_of_loc. unfold m0. rewrite H0.
      split; [by rewrite Z.div_1_r |]. by intros ->.
    - destruct (shr_pos (shr_record_of_loc m l) e n) as (r & Hr & Hrm & Hloc); [lia | |].
      + by rewrite shr_m_of_loc.
      + exists r. rewrite Hr. split; [f_equal; lia |].
        split; [by rewrite Hrm, shr_m_of_loc |].
        intros -> Hmod. apply Hloc; by rewrite shr_m_of_loc. }
  destruct Hshift as (r & Hr & Hrm & Hloc).
  unfold binary_round_aux, shr_fexp. fold e1. fold n. rewrite Hr.
  set (m1 := round_nearest_even (shr_m r) (loc_of_shr_record r)).
  assert (Hm1 : m1 = m0 \/ m1 = m0 + 1).
  { unfold m1. rewrite Hrm. apply round_nearest_even_cases. }
  assert (Hex : l = loc_Exact -> m mod 2 ^ n = 0 -> m1 = m0).
  { intros Hl Hmod. unfold m1. by rewrite (Hloc Hl Hmod), Hrm. }
  exists m1. split; [done |]. split; [done |]. split; [done |].
  assert (He1 : emin prec emax <= e1) by apply fexp_ge_emin.
  destruct (decide (m1 < 2 ^ prec)) as [Hlt | Hge].
  - (* no carry *)
    assert (Hd1 : Zdigits2 m1 <= prec) by (apply Zdigits2_le; lia).
    rewrite shr_nonpos by (unfold fexp; lia).
    rewrite shr_m_of_loc. unfold pack.
    destruct m1 as [|p|p]; [done | | lia].
    case_decide; [done | lia].
  - (* the mantissa became 2^prec *)
    assert (Heq : m1 = 2 ^ prec) by lia.
    assert (Hd1 : Zdigits2 m1 = prec + 1).
    { apply Zdigits2_unique; [lia |]. rewrite Heq.
      replace (prec + 1 - 1) with prec by lia. split; [lia |].
      apply Z.pow_lt_mono_r; lia. }
    rewrite Hd1.
    replace (fexp prec emax (prec + 1 + e1) - e1) with 1 by (unfold fexp; lia).
    destruct (shr_pos (shr_record_of_loc m1 loc_Exact) e1 1) as (r' & Hr' & Hrm' & _);
      [lia | rewrite shr_m_of_loc; lia |].
    rewrite Hr', Hrm', shr_m_of_loc. unfold pack.
    assert (Hhalf : m1 / 2 ^ 1 = 2 ^ (prec - 1)).
    { rewrite Heq. change (2 ^ 1) with 2.
      replace prec with (Z.succ (prec - 1)) at 1 by lia.
      rewrite Z.pow_succ_r by lia. rewrite Z.mul_comm, Z.div_mul by lia. done. }
    rewrite Hhalf.
    assert (Hpos : 0 < 2 ^ (prec - 1)) by (apply Z.pow_pos_nonneg; lia).
    destruct m1 as [|p|p]; [lia | | lia].
    case_decide; [lia |].
    destruct (2 ^ (prec - 1)) as [|q|q] eqn:Hq; [lia | | lia].
    simpl Z.to_pos. done.
Qed.

Hypothesis emin_low : -1200 <= emin prec emax.
Hypothesis emin_le : emin prec emax <= emax - prec.

Lemma pow2_split (a b : Z) : 0 <= a -> 0 <= b -> 2 ^ (a + b) = 2 ^ a * 2 ^ b.
Proof. intros. by rewrite Z.pow_add_r. Qed.

(** The value of a packed result. *)
Lemma pack_value (s : bool) (m1 e1 : Z) :
  0 <= m1 <= 2 ^ prec -> emin prec emax <= e1 ->
  (m1 = 0 \/ 2 ^ (prec - 1) <= m1 \/ e1 = emin prec emax) ->
  (pack prec emax s m1 e1 = S754_infinity s /\ 2 ^ (emax + 1200) <= m1 * 2 ^ (e1 + 1200)) \/
  (valid prec emax (pack prec emax s m1 e1) /\
   scaled (pack prec emax s m1 e1) = (if s then -1 else 1) * (m1 * 2 ^ (e1 + 1200))).
Proof.
  intros Hm1 He1 Hcan.
  assert (Hp1 : 0 < 2 ^ (prec - 1)) by (apply Z.pow_pos_nonneg; lia).
  assert (Hpp : 2 ^ prec = 2 * 2 ^ (prec - 1)).
  { replace prec with (Z.succ (prec - 1)) at 1 by lia. by rewrite Z.pow_succ_r by lia. }
  assert (Hpe : 0 < 2 ^ (e1 + 1200)) by (apply Z.pow_pos_nonneg; lia).
  unfold pack. destruct m1 as [|p|p]; [| | lia].
  - right. split; [done |]. simpl. lia.
  - case_decide as Hlt.
    + destruct (Z.leb_spec e1 (emax - prec)) as [Hle | Hgt].
      * right. split; [| done]. split; [done |].
        simpl. unfold bounded, canonical_mantissa.
        rewrite andb_true_iff, Z.eqb_eq, Z.leb_le. split; [| done].
        destruct Hcan as [? | [Hn | Hs]]; [lia | |].
        -- assert (Zdigits2 (Z.pos p) = prec) as Hd
             by (apply Zdigits2_unique; lia).
           simpl in Hd. rewrite Hd. unfold fexp. lia.
        -- assert (Zdigits2 (Z.pos p) <= prec) as Hd by (apply Zdigits2_le; lia).
           simpl in Hd. unfold fexp. lia.
      * left. split; [done |].
        destruct Hcan as [? | [Hn | Hs]]; [lia | | lia].
        assert (2 ^ (emax + 1200) <= 2 ^ (prec - 1) * 2 ^ (e1 + 1200)).
        { rewrite <- Z.pow_add_r by lia. apply Z.pow_le_mono_r; lia. }
        nia.
    + assert (Heq : Z.pos p = 2 ^ prec) by lia.
      destruct (Z.leb_spec (e1 + 1) (emax - prec)) as [Hle | Hgt].
      * right.
        assert (Hq : Z.pos (Z.to_pos (2 ^ (prec - 1))) = 2 ^ (prec - 1))
          by (rewrite Z2Pos.id; lia).
        split.
        -- split; [done |]. simpl. unfold bounded, canonical_mantissa.
           rewrite andb_true_iff, Z.eqb_eq, Z.leb_le. split; [| done].
           assert (Zdigits2 (Z.pos (Z.to_pos (2 ^ (prec - 1)))) = prec) as Hd.
           { apply Zdigits2_unique; [lia |]. rewrite Hq. lia. }
           simpl in Hd. rewrite Hd. unfold fexp. lia.
        -- unfold scaled. rewrite Hq, Heq, Hpp. f_equal.
           replace (e1 + 1 + 1200) with (1 + (e1 + 1200)) by lia.
           rewrite (pow2_split 1 (e1 + 1200)) by lia. change (2 ^ 1) with 2. lia.
      * left. split; [done |]. rewrite Heq, <- Z.pow_add_r by lia.
        apply Z.pow_le_mono_r; lia.
Qed.

(** The rounded mantissa lies around the exact quotient, and the result
    is canonical. *)
Lemma binary_round_aux_value (s : bool) (m e : Z) (l : location) :
  0 <= m -> e <= fexp prec emax (Zdigits2 m + e) -> -1200 <= e ->
  exists m1 e1,
    binary_round_aux prec emax s m e l = pack prec emax s m1 e1 /\
    e1 = fexp prec emax (Zdigits2 m + e) /\
    0 <= m1 <= 2 ^ prec /\
    (2 ^ (prec - 1) <= m1 \/ e1 = emin prec emax) /\
    (m1 - 1) * 2 ^ (e1 + 1200) <= m * 2 ^ (e + 1200) /\
    m * 2 ^ (e + 1200) < (m1 + 1) * 2 ^ (e1 + 1200) /\
    (l = loc_Exact -> forall r, m * 2 ^ (e + 1200) <= r * 2 ^ (e1 + 1200) -> m1 <= r).
Proof.
  intros Hm Hn He.
  destruct (binary_round_aux_shape s m e l Hm Hn) as (m1 & Hm1 & Hexact & Hm0 & Hr).
  set (e1 := fexp prec emax (Zdigits2 m + e)) in *.
  set (n := e1 - e) in *. set (m0 := m / 2 ^ n) in *.
  assert (Hpn : 0 < 2 ^ n) by (apply Z.pow_pos_nonneg; lia).
  assert (Hpe : 0 < 2 ^ (e + 1200)) by (apply Z.pow_pos_nonneg; lia).
  assert (Hsplit : 2 ^ (e1 + 1200) = 2 ^ n * 2 ^ (e + 1200)).
  { rewrite <- Z.pow_add_r by lia. f_equal. lia. }
  assert (Hfloor : m0 * 2 ^ n <= m < (m0 + 1) * 2 ^ n).
  { pose proof (Z.mul_div_le m (2 ^ n) Hpn).
    pose proof (Z.mul_succ_div_gt m (2 ^ n) Hpn). unfold m0. lia. }
  exists m1, e1. split; [done |]. split; [done |]. split; [lia |].
  split.
  2:{ split; [| split].
      - rewrite Hsplit. set (Q := 2 ^ n) in *. set (P := 2 ^ (e + 1200)) in *.
        clearbody Q P. destruct Hm1 as [-> | ->]; nia.
      - rewrite Hsplit. set (Q := 2 ^ n) in *. set (P := 2 ^ (e + 1200)) in *.
        clearbody Q P. destruct Hm1 as [-> | ->]; nia.
      - intros Hl r Hle. rewrite Hsplit in Hle.
        assert (Hmr : m <= r * 2 ^ n).
        { set (Q := 2 ^ n) in *. set (P := 2 ^ (e + 1200)) in *. clearbody Q P. nia. }
        destruct (decide (m0 < r)) as [? | Hge]; [lia |].
        assert (Hm0r : m0 = r).
        { set (Q := 2 ^ n) in *. clearbody Q. nia. }
        rewrite <- Hm0r. rewrite Hexact; [lia | done |].
        assert (Heq : m = m0 * 2 ^ n) by (rewrite Hm0r; lia).
        rewrite Heq. by rewrite Z.mod_mul by lia. }
  destruct (decide (e1 = emin prec emax)) as [? | Hne]; [auto |].
  destruct (decide (m = 0)) as [-> | Hm0'].
  { exfalso. simpl in e1. unfold e1, fexp in *. lia. }
  left.
  assert (2 ^ (prec - 1) <= m0); [| lia].
  pose proof (Zdigits2_bounds m ltac:(lia)) as [Hlo _].
  pose proof (Zdigits2_nonneg m).
  apply Z.div_le_lower_bound; [done |].
  rewrite <- Z.pow_add_r by (unfold n, e1, fexp in *; lia).
  replace (n + (prec - 1)) with (Zdigits2 m - 1); [done |].
  unfold n, e1, fexp in *. lia.
Qed.

(** Rounding does not pass the next power of two. *)
Lemma binary_round_aux_upper (s : bool) (m e : Z) (l : location) (B : Z) :
  0 <= m -> e <= fexp prec emax (Zdigits2 m + e) -> -1200 <= e ->
  emin prec emax <= B < emax ->
  m * 2 ^ (e + 1200) < 2 ^ (B + 1200) ->
  valid prec emax (binary_round_aux prec emax s m e l) /\
  exists mag,
    scaled (binary_round_aux prec emax s m e l) = (if s then -1 else 1) * mag /\
    0 <= mag <= 2 ^ (B + 1200).
Proof.
  intros Hm Hn He HB Hlt.
  destruct (binary_round_aux_value s m e l Hm Hn He)
    as (m1 & e1 & -> & He1 & Hm1 & Hcan & Hlo & Hhi & Hgrid).
  assert (Hemin : emin prec emax <= e1) by (rewrite He1; apply fexp_ge_emin).
  assert (He1B : e1 <= B).
  { destruct (decide (m = 0)) as [-> | Hne].
    - change (Zdigits2 0) with 0 in *. unfold fexp in *. lia.
    - pose proof (Zdigits2_bounds m ltac:(lia)) as [Hd Hd'].
      pose proof (Zdigits2_nonneg m).
      assert (Zdigits2 m <> 0) by (intros H0; rewrite H0 in Hd'; simpl in Hd'; lia).
      assert (Zdigits2 m - 1 + (e + 1200) < B + 1200).
      { apply (Z.pow_lt_mono_r_iff 2); [lia | lia |].
        rewrite Z.pow_add_r by lia.
        assert (0 < 2 ^ (e + 1200)) by (apply Z.pow_pos_nonneg; lia).
        apply Z.le_lt_trans with (m * 2 ^ (e + 1200)); [| done].
        apply Z.mul_le_mono_nonneg_r; lia. }
      unfold fexp in *. lia. }
  assert (HX : 0 < 2 ^ (e1 + 1200)) by (apply Z.pow_pos_nonneg; lia).
  assert (HBX : 2 ^ (B + 1200) = 2 ^ (B - e1) * 2 ^ (e1 + 1200)).
  { rewrite <- Z.pow_add_r by lia. f_equal. lia. }
  assert (Hmag : m1 * 2 ^ (e1 + 1200) <= 2 ^ (B + 1200)).
  { rewrite HBX in *. set (X := 2 ^ (e1 + 1200)) in *. set (Y := 2 ^ (B - e1)) in *.
    clearbody X Y. assert (m1 - 1 < Y) by nia. nia. }
  destruct (pack_value s m1 e1 Hm1 Hemin) as [[_ Hov] | [Hv Hsc]].
  - tauto.
  - exfalso.
    assert (2 ^ (B + 1200) < 2 ^ (emax + 1200)) by (apply Z.pow_lt_mono_r; lia). lia.
  - split; [done |]. exists (m1 * 2 ^ (e1 + 1200)). split; [done |]. nia.
Qed.

(** Rounding does not fall below a number of the format that is not above
    the exact value. *)
Lemma binary_round_aux_lower (s : bool) (m e : Z) (l : location) (mr : positive) (er : Z) :
  0 <= m -> e <= fexp prec emax (Zdigits2 m + e) -> -1200 <= e ->
  bounded prec emax mr er = true ->
  Z.pos mr * 2 ^ (er + 1200) <= m * 2 ^ (e + 1200) ->
  binary_round_aux prec emax s m e l = S754_infinity s \/
  (valid prec emax (binary_round_aux prec emax s m e l) /\
   exists mag,
     scaled (binary_round_aux prec emax s m e l) = (if s then -1 else 1) * mag /\
     Z.pos mr * 2 ^ (er + 1200) <= mag).
Proof.
  intros Hm Hn He Hb Hle.
  destruct (binary_round_aux_value s m e l Hm Hn He)
    as (m1 & e1 & -> & He1 & Hm1 & Hcan & Hlo & Hhi & Hgrid).
  assert (Hemin : emin prec emax <= e1) by (rewrite He1; apply fexp_ge_emin).
  assert (Hcan' : m1 = 0 \/ 2 ^ (prec - 1) <= m1 \/ e1 = emin prec emax) by tauto.
  destruct (pack_value s m1 e1 Hm1 Hemin Hcan') as [[Hinf _] | [Hv Hsc]]; [by left |].
  right. split; [done |]. exists (m1 * 2 ^ (e1 + 1200)). split; [done |].
  apply bounded_cases in Hb as [Hb _].
  pose proof (digits_bounds mr) as [Lr Ur].
  assert (Her : -1200 <= er) by lia.
  assert (HX : 0 < 2 ^ (e1 + 1200)) by (apply Z.pow_pos_nonneg; lia).
  assert (HR : 0 < 2 ^ (er + 1200)) by (apply Z.pow_pos_nonneg; lia).
  destruct (decide (e1 <= er)) as [Hc | Hc].
  - assert (HRX : 2 ^ (er + 1200) = 2 ^ (er - e1) * 2 ^ (e1 + 1200)).
    { rewrite <- Z.pow_add_r by lia. f_equal. lia. }
    rewrite HRX in *. set (X := 2 ^ (e1 + 1200)) in *. set (Y := 2 ^ (er - e1)) in *.
    clearbody X Y. assert (Z.pos mr * Y < m1 + 1) by nia. nia.
  - destruct Hcan as [Hnorm | ?]; [| lia].
    assert (Hmr : Z.pos mr < 2 ^ prec).
    { destruct Hb as [[Hd _] | [Hd _]]; [by rewrite <- Hd |].
      assert (2 ^ Z.pos (digits2_pos mr) <= 2 ^ prec) by (apply Z.pow_le_mono_r; lia). lia. }
    assert (Hpp : 2 ^ prec = 2 * 2 ^ (prec - 1)).
    { replace prec with (Z.succ (prec - 1)) at 1 by lia. by rewrite Z.pow_succ_r by lia. }
    assert (HXR : 2 ^ (e1 + 1200) = 2 ^ (e1 - er - 1) * 2 * 2 ^ (er + 1200)).
    { replace (e1 + 1200) with ((e1 - er - 1) + 1 + (er + 1200)) by lia.
      rewrite !pow2_split by lia. done. }
    assert (HY : 0 < 2 ^ (e1 - er - 1)) by (apply Z.pow_pos_nonneg; lia).
    rewrite HXR, Hpp in *. set (R := 2 ^ (er + 1200)) in *.
    set (Y := 2 ^ (e1 - er - 1)) in *. set (H := 2 ^ (prec - 1)) in *.
    clearbody R Y H.
    assert (Z.pos mr * R <= 2 * H * R) by nia.
    assert (2 * H * R <= m1 * (Y * 2 * R)); [| lia].
    assert (H * R <= m1 * R) by nia.
    assert (m1 * R <= m1 * R * Y) by nia. nia.
Qed.

(** An exact value is not rounded beyond a number of the format that is
    not below it. *)
Lemma binary_round_aux_below (s : bool) (m e : Z) (mr : positive) (er : Z) :
  0 <= m -> e <= fexp prec emax (Zdigits2 m + e) -> -1200 <= e ->
  bounded prec emax mr er = true ->
  m * 2 ^ (e + 1200) <= Z.pos mr * 2 ^ (er + 1200) ->
  valid prec emax (binary_round_aux prec emax s m e loc_Exact) /\
  exists mag,
    scaled (binary_round_aux prec emax s m e loc_Exact) = (if s then -1 else 1) * mag /\
    0 <= mag <= Z.pos mr * 2 ^ (er + 1200).
Proof.
  intros Hm Hn He Hb Hle.
  destruct (binary_round_aux_value s m e loc_Exact Hm Hn He)
    as (m1 & e1 & -> & He1 & Hm1 & Hcan & Hlo & Hhi & Hgrid).
  assert (Hemin : emin prec emax <= e1) by (rewrite He1; apply fexp_ge_emin).
  assert (Hcan' : m1 = 0 \/ 2 ^ (prec - 1) <= m1 \/ e1 = emin prec emax) by tauto.
  apply bounded_cases in Hb as [Hb Hbe].
  pose proof (digits_bounds mr) as [Lr Ur].
  assert (Her : -1200 <= er) by lia.
  assert (HX : 0 < 2 ^ (e1 + 1200)) by (apply Z.pow_pos_nonneg; lia).
  assert (HP : 0 < 2 ^ (e + 1200)) by (apply Z.pow_pos_nonneg; lia).
  assert (HR : 0 < 2 ^ (er + 1200)) by (apply Z.pow_pos_nonneg; lia).
  assert (Hmag : m1 * 2 ^ (e1 + 1200) <= Z.pos mr * 2 ^ (er + 1200)).
  { destruct (decide (m = 0)) as [-> | Hne].
    { assert (m1 <= 0) by (apply (Hgrid eq_refl 0); lia). nia. }
    assert (He1r : e1 <= er).
    { pose proof (Zdigits2_bounds m ltac:(lia)) as [Hd Hd'].
      pose proof (Zdigits2_nonneg m).
      assert (Zdigits2 m <> 0) by (intros H0; rewrite H0 in Hd'; simpl in Hd'; lia).
      assert (Zdigits2 m - 1 + (e + 1200) < Z.pos (digits2_pos mr) + (er + 1200)).
      { apply (Z.pow_lt_mono_r_iff 2); [lia | lia |].
        rewrite (Z.pow_add_r 2 (Zdigits2 m - 1)), (Z.pow_add_r 2 (Z.pos (digits2_pos mr)))
          by lia.
        apply Z.le_lt_trans with (m * 2 ^ (e + 1200)).
        - apply Z.mul_le_mono_nonneg_r; lia.
        - apply Z.le_lt_trans with (Z.pos mr * 2 ^ (er + 1200)); [done |].
          apply Zmult_lt_compat_r; lia. }
      unfold fexp in *. lia. }
    assert (HRX : 2 ^ (er + 1200) = 2 ^ (er - e1) * 2 ^ (e1 + 1200)).
    { rewrite <- Z.pow_add_r by lia. f_equal. lia. }
    assert (m1 <= Z.pos mr * 2 ^ (er - e1)).
    { apply (Hgrid eq_refl). rewrite <- Z.mul_assoc, <- HRX. done. }
    rewrite HRX. set (X := 2 ^ (e1 + 1200)) in *. set (Y := 2 ^ (er - e1)) in *.
    clearbody X Y. nia. }
  destruct (pack_value s m1 e1 Hm1 Hemin Hcan') as [[_ Hov] | [Hv Hsc]].
  - exfalso.
    assert (Z.pos mr * 2 ^ (er + 1200) < 2 ^ (emax + 1200)); [| lia].
    apply Z.lt_le_trans with (2 ^ Z.pos (digits2_pos mr) * 2 ^ (er + 1200)).
    + apply Zmult_lt_compat_r; lia.
    + rewrite <- Z.pow_add_r by lia. apply Z.pow_le_mono_r; lia.
  - split; [done |]. exists (m1 * 2 ^ (e1 + 1200)). split; [done |]. nia.
Qed.

Lemma shl_align_spec (mx : positive) (ex ex' : Z) :
  -1200 <= ex -> -1200 <= ex' ->
  exists mz ez,
    shl_align mx ex ex' = (mz, ez) /\ ez = Z.min ex ex' /\
    Z.pos mz * 2 ^ (ez + 1200) = Z.pos mx * 2 ^ (ex + 1200) /\
    Z.pos (digits2_pos mz) + ez = Z.pos (digits2_pos mx) + ex.
Proof.
  intros Hx Hx'. unfold shl_align.
  destruct (ex' - ex) as [|d|d] eqn:Hd.
  - exists mx, ex. repeat split; lia.
  - exists mx, ex. repeat split; lia.
  - exists (Pos.iter xO mx d), ex'. repeat split; [lia | |].
    + rewrite Zpos_shift. replace (ex + 1200) with (Z.pos d + (ex' + 1200)) by lia.
      rewrite (pow2_split (Z.pos d)) by lia. ring.
    + rewrite digits2_pos_shift. lia.
Qed.

(** [binary_round] is [binary_round_aux] on an aligned mantissa of the same
    value. *)
Lemma binary_round_aligned (s : bool) (mx : positive) (ex : Z) :
  -1200 <= ex ->
  exists mz ez,
    binary_round prec emax s mx ex = binary_round_aux prec emax s (Z.pos mz) ez loc_Exact /\
    ez <= fexp prec emax (Zdigits2 (Z.pos mz) + ez) /\ -1200 <= ez /\
    Z.pos mz * 2 ^ (ez + 1200) = Z.pos mx * 2 ^ (ex + 1200).
Proof.
  intros Hx.
  pose proof (fexp_ge_emin (Z.pos (digits2_pos mx) + ex)) as Hf.
  destruct (shl_align_spec mx ex (fexp prec emax (Z.pos (digits2_pos mx) + ex)))
    as (mz & ez & Hal & Hez & Hval & Hdig); [lia | lia |].
  exists mz, ez. unfold binary_round. rewrite Hal.
  repeat split; [| lia | done].
  simpl Zdigits2. rewrite Hdig. lia.
Qed.

Lemma binary_round_upper (s : bool) (mx : positive) (ex B : Z) :
  -1200 <= ex -> emin prec emax <= B < emax ->
  Z.pos mx * 2 ^ (ex + 1200) < 2 ^ (B + 1200) ->
  valid prec emax (binary_round prec emax s mx ex) /\
  exists mag,
    scaled (binary_round prec emax s mx ex) = (if s then -1 else 1) * mag /\
    0 <= mag <= 2 ^ (B + 1200).
Proof.
  intros Hx HB Hlt.
  destruct (binary_round_aligned s mx ex Hx) as (mz & ez & -> & Hn & Hez & Hval).
  apply binary_round_aux_upper; [lia | done | done | done | by rewrite Hval].
Qed.

Lemma binary_round_lower (s : bool) (mx : positive) (ex : Z) (mr : positive) (er : Z) :
  -1200 <= ex -> bounded prec emax mr er = true ->
  Z.pos mr * 2 ^ (er + 1200) <= Z.pos mx * 2 ^ (ex + 1200) ->
  binary_round prec emax s mx ex = S754_infinity s \/
  (valid prec emax (binary_round prec emax s mx ex) /\
   exists mag,
     scaled (binary_round prec emax s mx ex) = (if s then -1 else 1) * mag /\
     Z.pos mr * 2 ^ (er + 1200) <= mag).
Proof.
  intros Hx Hb Hle.
  destruct (binary_round_aligned s mx ex Hx) as (mz & ez & -> & Hn & Hez & Hval).
  apply binary_round_aux_lower; [lia | done | done | done | by rewrite Hval].
Qed.

Lemma binary_round_below (s : bool) (mx : positive) (ex : Z) (mr : positive) (er : Z) :
  -1200 <= ex -> bounded prec emax mr er = true ->
  Z.pos mx * 2 ^ (ex + 1200) <= Z.pos mr * 2 ^ (er + 1200) ->
  valid prec emax (binary_round prec emax s mx ex) /\
  exists mag,
    scaled (binary_round prec emax s mx ex) = (if s then -1 else 1) * mag /\
    0 <= mag <= Z.pos mr * 2 ^ (er + 1200).
Proof.
  intros Hx Hb Hle.
  destruct (binary_round_aligned s mx ex Hx) as (mz & ez & -> & Hn & Hez & Hval).
  apply binary_round_aux_below; [lia | done | done | done | by rewrite Hval].
Qed.

(** A canonical mantissa followed by [k] zero bits is rounded exactly. *)
Lemma round_shift_right_canonical (s : bool) (m k : positive) (e : Z) :
  bounded prec emax m (e + Z.pos k) = true ->
  binary_round_aux prec emax s (Z.pos (Pos.iter xO m k)) e loc_Exact
  = S754_finite s m (e + Z.pos k).
Proof.
  intros Hb. pose proof Hb as Hb'. apply bounded_cases in Hb' as [Hc He].
  unfold binary_round_aux, shr_fexp, fexp. simpl Zdigits2.
  rewrite digits2_pos_shift, Pos2Z.inj_add.
  replace (Z.max (Z.pos (digits2_pos m) + Z.pos k + e - prec) (emin prec emax) - e)
    with (Z.pos k) by lia.
  simpl shr. rewrite shr_zero_bits. simpl.
  replace (Z.max (Z.pos (digits2_pos m) + (e + Z.pos k) - prec) (emin prec emax)
           - (e + Z.pos k)) with 0 by lia.
  simpl. rewrite Zle_imp_le_bool by lia. done.
Qed.

(** The quotient of two numbers of the format, the first of smaller
    magnitude than the second, is a number of the format of magnitude at
    most 1. *)
Lemma SFdiv_below_one (sx sy : bool) (mx my : positive) (ex ey : Z) :
  emin prec emax <= 0 < emax -> emax - prec - emin prec emax <= 1200 ->
  bounded prec emax mx ex = true -> bounded prec emax my ey = true ->
  Z.pos mx * 2 ^ (ex + 1200) < Z.pos my * 2 ^ (ey + 1200) ->
  valid prec emax (SFdiv prec emax (S754_finite sx mx ex) (S754_finite sy my ey)) /\
  exists mag,
    scaled (SFdiv prec emax (S754_finite sx mx ex) (S754_finite sy my ey))
    = (if xorb sx sy then -1 else 1) * mag /\
    0 <= mag <= 2 ^ 1200.
Proof.
  intros H0 Hspan Hbx Hby Hlt.
  apply bounded_cases in Hbx as [Hcx Hex], Hby as [Hcy Hey].
  unfold SFdiv, SFdiv_core_binary.
  change (Zdigits2 (Z.pos mx)) with (Z.pos (digits2_pos mx)).
  change (Zdigits2 (Z.pos my)) with (Z.pos (digits2_pos my)).
  pose proof (digits_bounds mx) as [Lx Ux]. pose proof (digits_bounds my) as [Ly Uy].
  set (d1 := Z.pos (digits2_pos mx)) in *. set (d2 := Z.pos (digits2_pos my)) in *.
  assert (Hd1 : 1 <= d1) by (unfold d1; lia). assert (Hd2 : 1 <= d2) by (unfold d2; lia).
  set (t := d1 + ex - (d2 + ey)).
  pose proof (fexp_ge_emin t) as Hft.
  set (e' := Z.min (fexp prec emax t) (ex - ey)).
  assert (He' : -1200 <= e') by (unfold e'; lia).
  set (sh := ex - ey - e').
  assert (Hsh : 0 <= sh) by (unfold sh, e'; lia).
  assert (Hm' : match sh with
                | 0 => Z.pos mx | Z.pos _ => Z.shiftl (Z.pos mx) sh | Z.neg _ => 0
                end = Z.pos mx * 2 ^ sh).
  { destruct sh as [|p|p] eqn:Hp; [simpl; lia | | lia].
    by rewrite Z.shiftl_mul_pow2 by lia. }
  rewrite Hm'. clear Hm'.
  assert (HS : 0 < 2 ^ sh) by (apply Z.pow_pos_nonneg; lia).
  destruct (Z.div_eucl (Z.pos mx * 2 ^ sh) (Z.pos my)) as [q r] eqn:Hqr.
  assert (Hq : q = (Z.pos mx * 2 ^ sh) / Z.pos my) by (unfold Z.div; by rewrite Hqr).
  assert (Hq0 : 0 <= q) by (rewrite Hq; apply Z.div_pos; lia).
  assert (Hqm : q * Z.pos my <= Z.pos mx * 2 ^ sh).
  { rewrite Hq, Z.mul_comm. apply Z.mul_div_le. lia. }
  replace (2 ^ 1200) with (2 ^ (0 + 1200)) by done.
  apply binary_round_aux_upper; [done | | done | done |].
  - (* the quotient has not more digits than the format *)
    destruct (decide (e' <= emin prec emax)) as [? | Hne].
    { pose proof (fexp_ge_emin (Zdigits2 q + e')). lia. }
    apply Z.le_trans with (fexp prec emax t); [unfold e'; lia |].
    apply fexp_mono.
    destruct (decide (d1 - d2 + sh - 1 < 0)) as [? | Hd].
    { pose proof (Zdigits2_nonneg q). unfold t, sh in *. lia. }
    assert (Hge : d1 - d2 + sh - 1 + 1 <= Zdigits2 q).
    { apply Zdigits2_ge; [lia |]. rewrite Hq.
      apply Z.div_le_lower_bound; [lia |].
      apply Z.le_trans with (2 ^ d2 * 2 ^ (d1 - d2 + sh - 1)).
      - apply Z.mul_le_mono_nonneg_r; [apply Z.pow_nonneg |]; lia.
      - rewrite <- Z.pow_add_r by lia.
        replace (d2 + (d1 - d2 + sh - 1)) with ((d1 - 1) + sh) by lia.
        rewrite Z.pow_add_r by lia.
        apply Z.mul_le_mono_nonneg_r; lia. }
    unfold t, sh in *. lia.
  - (* the quotient is below 1 *)
    assert (Hexp : 2 ^ (ex + 1200) * 2 ^ 1200
                   = 2 ^ sh * 2 ^ (ey + 1200) * 2 ^ (e' + 1200)).
    { rewrite <- !Z.pow_add_r by lia. f_equal. unfold sh. lia. }
    assert (HA : 0 < 2 ^ (ey + 1200)) by (apply Z.pow_pos_nonneg; lia).
    assert (HE : 0 < 2 ^ (e' + 1200)) by (apply Z.pow_pos_nonneg; lia).
    assert (HT : 0 < 2 ^ 1200) by done.
    rewrite Z.add_0_l.
    set (X := 2 ^ (ex + 1200)) in *. set (A := 2 ^ (ey + 1200)) in *.
    set (E := 2 ^ (e' + 1200)) in *. set (S := 2 ^ sh) in *. set (T := 2 ^ 1200) in *.
    clearbody X A E S T.
    assert (H1 : Z.pos mx * X * T < Z.pos my * A * T) by nia.
    assert (H2 : Z.pos mx * S * E * A < Z.pos my * T * A).
    { replace (Z.pos mx * S * E * A) with (Z.pos mx * (S * A * E)) by ring.
      rewrite <- Hexp. nia. }
    assert (H3 : Z.pos mx * S * E < Z.pos my * T) by nia.
    assert (H4 : q * Z.pos my * E <= Z.pos mx * S * E) by nia.
    nia.
Qed.

End Rounding.

(** A binary32 number divided by a number of the same magnitude gives 1.0
    or -1.0. *)
Lemma f32_div_same (sx sy : bool) (m : positive) (e : Z) :
  f32_div (S754_finite sx m e) (S754_finite sy m e)
  = S754_finite (xorb sx sy) 8388608 (-23).
Proof.
  unfold f32_div, SFdiv, SFdiv_core_binary.
  replace (Zdigits2 (Z.pos m) + e - (Zdigits2 (Z.pos m) + e)) with 0 by lia.
  replace (e - e) with 0 by lia.
  change (Z.min (fexp 24 128 0) 0) with (-24). change (0 - -24) with 24.
  cbv iota. rewrite Z.shiftl_mul_pow2 by lia.
  rewrite (div_eucl_exact _ _ (2 ^ 24)); [| done | ring].
  replace (new_location (Z.pos m) 0) with loc_Exact.
  - by destruct (xorb sx sy).
  - unfold new_location, new_location_even, new_location_odd. by destruct (Z.even (Z.pos m)).
Qed.

(** *** One sample of the renormalizer *)

Lemma scaled_finite (s : bool) (m : positive) (e : Z) :
  scaled (S754_finite s m e) = (if s then -1 else 1) * (Z.pos m * 2 ^ (e + 1200)).
Proof. done. Qed.

(** The quotient of a binary32 number by one of at least its magnitude is a
    binary32 number between -1.0 and 1.0. *)
Lemma f32_div_range (v L : float) :
  valid32 v -> valid32 L -> 0 < scaled L -> Z.abs (scaled v) <= scaled L ->
  valid32 (f32_div v L) /\ - 2 ^ 1200 <= scaled (f32_div v L) <= 2 ^ 1200.
Proof.
  intros [Fv Vv] [FL VL] HL Hle.
  destruct L as [sL | | | sL mL eL]; try done.
  destruct sL.
  { exfalso. rewrite scaled_finite in HL.
    assert (0 < Z.pos mL * 2 ^ (eL + 1200)); [| lia].
    apply scaled_pos. simpl in VL. apply bounded32 in VL. lia. }
  destruct v as [sv | | | sv mv ev]; try done.
  simpl in Vv, VL.
  assert (Hev : -1200 <= ev) by (apply bounded32 in Vv; lia).
  assert (HeL : -1200 <= eL) by (apply bounded32 in VL; lia).
  pose proof (scaled_pos mv ev Hev) as Hpv.
  assert (Habs : Z.pos mv * 2 ^ (ev + 1200) <= Z.pos mL * 2 ^ (eL + 1200)).
  { rewrite !scaled_finite in Hle. destruct sv; lia. }
  destruct (decide (Z.pos mv * 2 ^ (ev + 1200) < Z.pos mL * 2 ^ (eL + 1200))) as [Hlt | Hnlt].
  - destruct (SFdiv_below_one 24 128 ltac:(lia) ltac:(unfold emin; lia)
                ltac:(unfold emin; lia) sv false mv mL ev eL
                ltac:(unfold emin; lia) ltac:(unfold emin; lia) Vv VL Hlt)
      as (Hv & mag & Hsc & Hmag).
    split; [exact Hv |]. unfold f32_div. rewrite Hsc. destruct (xorb sv false); lia.
  - pose proof (canonical_compare 24 128 ltac:(lia) ltac:(unfold emin; lia) mv mL ev eL Vv VL)
      as H1.
    pose proof (canonical_compare 24 128 ltac:(lia) ltac:(unfold emin; lia) mL mv eL ev VL Vv)
      as H2.
    assert (ev = eL /\ mv = mL) as [-> ->] by lia.
    rewrite f32_div_same. split; [done |]. by destruct sv.
Qed.

(** The binary32 numbers above 0.999999 and not above 1.0. *)
Lemma near_one_cases (q : float) :
  valid32 q -> scaled q <= 2 ^ 1200 ->
  fgt (double_of_float q) d_0_999999 = true ->
  q = S754_finite false 8388608 (-23) \/
  exists m, q = S754_finite false m (-24) /\ 16777200 <= Z.pos m <= 16777215.
Proof.
  intros Hq Hle Hgt.
  destruct (double_of_float_valid q Hq) as [Hq64 Hsc].
  apply (flt_scaled64 d_0_999999 (double_of_float q)) in Hgt; [| done | done].
  rewrite Hsc in Hgt.
  change (scaled d_0_999999) with (9007190247541737 * 2 ^ 1147) in Hgt.
  destruct Hq as [Fq Vq]. destruct q as [sq | | | sq m e]; try done.
  simpl in Vq. apply bounded32 in Vq as (Hd & He & Hc).
  pose proof (digits_bounds m) as [Lm Um].
  set (d := Z.pos (digits2_pos m)) in *.
  assert (Hd1 : 1 <= d) by (unfold d; lia).
  rewrite scaled_finite in Hle, Hgt.
  assert (HP : 0 < 2 ^ (e + 1200)) by (apply Z.pow_pos_nonneg; lia).
  destruct sq; [exfalso; nia |]. rewrite Z.mul_1_l in Hle, Hgt.
  assert (Hhi : d - 1 + (e + 1200) <= 1200).
  { apply (Z.pow_le_mono_r_iff 2); [lia | lia |]. rewrite Z.pow_add_r by lia.
    apply Z.le_trans with (Z.pos m * 2 ^ (e + 1200)); [| done].
    apply Z.mul_le_mono_nonneg_r; lia. }
  assert (Hlo : 1199 < d + (e + 1200)).
  { apply (Z.pow_lt_mono_r_iff 2); [lia | lia |]. rewrite Z.pow_add_r by lia.
    apply Z.lt_trans with (Z.pos m * 2 ^ (e + 1200)).
    - apply Z.le_lt_trans with (9007190247541737 * 2 ^ 1147); [| done].
      change (2 ^ 1199) with (2 ^ 52 * 2 ^ 1147).
      apply Z.mul_le_mono_nonneg_r; [done | lia].
    - apply Z.mul_lt_mono_pos_r; lia. }
  assert (He2 : e = -23 \/ e = -24) by lia.
  destruct He2 as [-> | ->].
  - left. assert (d = 24) as Hd24 by lia. rewrite Hd24 in Lm.
    change (2 ^ (-23 + 1200)) with (2 ^ 1177) in Hle.
    change (2 ^ 1200) with (8388608 * 2 ^ 1177) in Hle.
    change (2 ^ (24 - 1)) with 8388608 in Lm.
    assert (Z.pos m = 8388608) by nia.
    f_equal. lia.
  - right. exists m. split; [done |].
    assert (d = 24) as Hd24 by lia. rewrite Hd24 in Um.
    change (2 ^ 24) with 16777216 in Um.
    change (2 ^ (-24 + 1200)) with (536870912 * 2 ^ 1147) in Hgt.
    assert (0 < 2 ^ 1147) by done.
    set (T := 2 ^ 1147) in *. clearbody T. nia.
Qed.

Lemma in_unit_range_spec (o : float) :
  in_unit_range o = true <-> valid32 o /\ - 2 ^ 1200 <= scaled o < 2 ^ 1200.
Proof.
  unfold in_unit_range, valid32, valid.
  rewrite !andb_true_iff, Z.leb_le, Z.ltb_lt. tauto.
Qed.

(** What the decrement makes of these numbers: a binary32 number
    [-1.0 <= o < 1.0]. *)
Lemma decrement_near_one (q : float) :
  valid32 q -> scaled q <= 2 ^ 1200 ->
  fgt (double_of_float q) d_0_999999 = true ->
  in_unit_range (decrement q) = true.
Proof.
  intros Hq Hle Hgt.
  destruct (near_one_cases q Hq Hle Hgt) as [-> | (m & -> & Hm)]; [by vm_compute |].
  assert (Hall : forallb (fun k => in_unit_range
                                     (decrement (S754_finite false (Z.to_pos (16777200 + Z.of_nat k)) (-24))))
                         (seq 0 16) = true) by (by vm_compute).
  rewrite forallb_forall in Hall.
  specialize (Hall (Z.to_nat (Z.pos m - 16777200))).
  replace (Z.to_pos (16777200 + Z.of_nat (Z.to_nat (Z.pos m - 16777200)))) with m in Hall
    by lia.
  apply Hall. apply in_seq. lia.
Qed.

(** The conversion to [short] of a binary32 number [-1.0 <= o < 1.0] is
    defined. *)
Lemma sample_of_float_defined (o : float) :
  valid32 o -> - 2 ^ 1200 <= scaled o < 2 ^ 1200 ->
  exists z, sample_of_float o = Some z /\ is_short z.
Proof.
  intros [Fo Vo] Hr. destruct o as [s | | | s m e]; try done.
  { exists 0. split; [by destruct s | unfold is_short, SHRT_MIN, SHRT_MAX; lia]. }
  simpl in Vo. apply bounded32 in Vo as (Hd & He & Hc).
  set (k := Z.to_pos (53 - Z.pos (digits2_pos m))).
  assert (Hk : Z.pos k = 53 - Z.pos (digits2_pos m)) by (unfold k; rewrite Z2Pos.id; lia).
  unfold sample_of_float, double_of_float.
  rewrite (round_shift_left 53 1024 s m k e); [| lia | unfold emin; lia].
  change d_32768_0 with (S754_finite false two_52 (-37)).
  rewrite (f64_mul_pow2 s (Pos.iter xO m k) (e - Z.pos k) (-37) (e - Z.pos k + 15));
    [| rewrite digits2_pos_shift; lia | lia | lia].
  rewrite scaled_finite in Hr.
  pose proof (digits_bounds (Pos.iter xO m k)) as [LM _].
  rewrite digits2_pos_shift, Pos2Z.inj_add in LM.
  replace (Z.pos (digits2_pos m) + Z.pos k - 1) with 52 in LM by lia.
  assert (HV : Z.pos (Pos.iter xO m k) * 2 ^ (e - Z.pos k + 1200) = Z.pos m * 2 ^ (e + 1200)).
  { rewrite Zpos_shift, <- Z.mul_assoc, <- Z.pow_add_r by lia. do 2 f_equal. lia. }
  set (M := Z.pos (Pos.iter xO m k)) in *. set (E := e - Z.pos k) in *.
  rewrite <- HV in Hr. clear HV.
  assert (HE : E + 15 < 0).
  { destruct (decide (E + 15 < 0)) as [? | Hge]; [done | exfalso].
    assert (2 ^ 1200 < M * 2 ^ (E + 1200)); [| destruct s; lia].
    apply Z.lt_le_trans with (2 ^ 52 * 2 ^ (E + 1200)).
    - rewrite <- Z.pow_add_r by lia. apply Z.pow_lt_mono_r; lia.
    - apply Z.mul_le_mono_nonneg_r; [apply Z.pow_nonneg |]; lia. }
  unfold short_of_double, trunc. fold M. rewrite decide_False by lia. cbn [mbind option_bind].
  assert (HD : 0 < 2 ^ (- (E + 15))) by (apply Z.pow_pos_nonneg; lia).
  assert (HT : 2 ^ 1200 = 2 ^ (- (E + 15)) * 32768 * 2 ^ (E + 1200)).
  { change 32768 with (2 ^ 15). rewrite <- !Z.pow_add_r by lia. f_equal. lia. }
  assert (HP : 0 < 2 ^ (E + 1200)) by (apply Z.pow_pos_nonneg; lia).
  assert (H0 : 0 <= M / 2 ^ (- (E + 15))) by (apply Z.div_pos; lia).
  rewrite HT in Hr.
  set (D := 2 ^ (- (E + 15))) in *. set (P := 2 ^ (E + 1200)) in *. clearbody D P.
  destruct s.
  - assert (M / D <= 32768).
    { apply Z.div_le_upper_bound; [done |]. nia. }
    exists (- (M / D)). unfold is_short, SHRT_MIN, SHRT_MAX.
    rewrite decide_True by lia. split; [done | lia].
  - assert (M / D < 32768).
    { apply Z.div_lt_upper_bound; [done |]. nia. }
    exists (M / D). unfold is_short, SHRT_MIN, SHRT_MAX.
    rewrite decide_True by lia. split; [done | lia].
Qed.

(** A sample divided by a scale of at least its magnitude, with the
    decrement: a binary32 number [-1.0 <= o < 1.0]. *)
Lemma scale_sample_range (L v : float) :
  valid32 v -> valid32 L -> 0 < scaled L -> Z.abs (scaled v) <= scaled L ->
  valid32 (scale_sample L v) /\ - 2 ^ 1200 <= scaled (scale_sample L v) < 2 ^ 1200.
Proof.
  intros Hv HL H0 Hle.
  destruct (f32_div_range v L Hv HL H0 Hle) as [Hq Hr].
  unfold scale_sample.
  destruct (fgt (double_of_float (f32_div v L)) d_0_999999) eqn:Hgt.
  - apply in_unit_range_spec. apply decrement_near_one; [done | lia | done].
  - split; [done |]. split; [lia |].
    destruct (double_of_float_valid _ Hq) as [Hq64 Hsc].
    apply (flt_false_scaled64 d_0_999999 (double_of_float (f32_div v L))) in Hgt;
      [| done | done].
    rewrite Hsc in Hgt.
    apply Z.le_lt_trans with (scaled d_0_999999); [done | done].
Qed.

(** *** The scale the scan returns *)

Lemma flt_false_scaled32 (a b : float) :
  valid32 a -> valid32 b -> flt a b = false <-> scaled b <= scaled a.
Proof.
  intros Ha Hb. pose proof (flt_scaled32 a b Ha Hb) as H.
  destruct (flt a b).
  - split; [done |]. intros Hle. assert (scaled a < scaled b) by (by apply H). lia.
  - split; [| done]. intros _.
    destruct (decide (scaled a < scaled b)) as [Hlt|]; [| lia].
    apply H in Hlt. done.
Qed.

(** The maximum is a sample, and no sample is above it. *)
Lemma max_fold_scaled (r : list float) :
  forall a, valid32 a -> Forall valid32 r ->
    valid32 (foldl max_step a r) /\
    (foldl max_step a r = a \/ foldl max_step a r ∈ r) /\
    scaled a <= scaled (foldl max_step a r) /\
    (forall v, v ∈ r -> scaled v <= scaled (foldl max_step a r)).
Proof.
  induction r as [|w r IH]; intros a Ha Hr; simpl.
  - repeat split; [apply Ha | apply Ha | by left | lia |
                   intros v Hv; by apply elem_of_nil in Hv].
  - apply Forall_cons in Hr as [Hw Hr].
    assert (Hstep : valid32 (max_step a w) /\ (max_step a w = a \/ max_step a w = w) /\
                    scaled a <= scaled (max_step a w) /\ scaled w <= scaled (max_step a w)).
    { unfold max_step, fgt. change (SFltb a w) with (flt a w).
      destruct (flt a w) eqn:Haw.
      - apply (flt_scaled32 a w Ha Hw) in Haw. repeat split; [apply Hw | apply Hw | by right | lia | lia].
      - apply (flt_false_scaled32 a w Ha Hw) in Haw.
        repeat split; [apply Ha | apply Ha | by left | lia | lia]. }
    destruct Hstep as (Hv' & Hin' & Ha' & Hw').
    destruct (IH (max_step a w) Hv' Hr) as (Hv & Hin & Hle & Hall).
    repeat split; [apply Hv | apply Hv | | lia |].
    + destruct Hin as [Hin | Hin]; [| right; by apply elem_of_cons; right].
      rewrite Hin. destruct Hin' as [-> | ->]; [by left | right; apply elem_of_cons; by left].
    + intros v [-> | Hv0]%elem_of_cons; [lia | by apply Hall].
Qed.

(** The minimum is not above any sample. *)
Lemma min_fold_scaled (r : list float) :
  forall a, valid32 a -> Forall valid32 r ->
    valid32 (foldl min_step a r) /\
    scaled (foldl min_step a r) <= scaled a /\
    (forall v, v ∈ r -> scaled (foldl min_step a r) <= scaled v).
Proof.
  induction r as [|w r IH]; intros a Ha Hr; simpl.
  - repeat split; [apply Ha | apply Ha | lia | intros v Hv; by apply elem_of_nil in Hv].
  - apply Forall_cons in Hr as [Hw Hr].
    assert (Hstep : valid32 (min_step a w) /\
                    scaled (min_step a w) <= scaled a /\ scaled (min_step a w) <= scaled w).
    { unfold min_step.
      destruct (flt w a) eqn:Hwa.
      - apply (flt_scaled32 w a Hw Ha) in Hwa. repeat split; [apply Hw | apply Hw | lia | lia].
      - apply (flt_false_scaled32 w a Hw Ha) in Hwa.
        repeat split; [apply Ha | apply Ha | lia | lia]. }
    destruct Hstep as (Hv' & Ha' & Hw').
    destruct (IH (min_step a w) Hv' Hr) as (Hv & Hle & Hall).
    repeat split; [apply Hv | apply Hv | lia |].
    intros v [-> | Hv0]%elem_of_cons; [lia | by apply Hall].
Qed.

Lemma fabs_valid64 (x : double) :
  valid64 x -> valid64 (fabs x) /\ scaled (fabs x) = Z.abs (scaled x).
Proof.
  intros [Fx Vx]. destruct x as [s | | | s m e]; try done.
  simpl in Vx. split; [done |].
  unfold fabs, SFabs. rewrite !scaled_finite.
  assert (0 < Z.pos m * 2 ^ (e + 1200)).
  { apply scaled_pos. apply (bounded_low 53 1024) in Vx; [done | by unfold emin]. }
  destruct s; lia.
Qed.

(** Narrowing the magnitude of a promoted binary32 number gives the
    magnitude back. *)
Lemma float_of_double_fabs (v : float) :
  valid32 v ->
  valid32 (float_of_double (fabs (double_of_float v))) /\
  scaled (float_of_double (fabs (double_of_float v))) = Z.abs (scaled v).
Proof.
  intros [Fv Vv]. destruct v as [s | | | s m e]; try done.
  simpl in Vv. pose proof Vv as Hb. apply bounded32 in Vv as (Hd & He & Hc).
  set (k := Z.to_pos (53 - Z.pos (digits2_pos m))).
  assert (Hk : Z.pos k = 53 - Z.pos (digits2_pos m)) by (unfold k; rewrite Z2Pos.id; lia).
  unfold double_of_float.
  rewrite (round_shift_left 53 1024 s m k e); [| lia | unfold emin; lia].
  unfold fabs, SFabs, float_of_double, binary_round, shl_align.
  rewrite digits2_pos_shift, Pos2Z.inj_add.
  replace (fexp 24 128 (Z.pos (digits2_pos m) + Z.pos k + (e - Z.pos k))) with e
    by (unfold fexp, emin; lia).
  replace (e - (e - Z.pos k)) with (Z.pos k) by lia.
  rewrite (round_shift_right_canonical 24 128 false m k (e - Z.pos k));
    [| by replace (e - Z.pos k + Z.pos k) with e by lia].
  replace (e - Z.pos k + Z.pos k) with e by lia.
  split; [done |].
  rewrite !scaled_finite.
  assert (0 < Z.pos m * 2 ^ (e + 1200)) by (apply scaled_pos; lia).
  destruct s; lia.
Qed.

(** The sum of a positive binary32 number below the sentinel and 0.000001,
    narrowed: a binary32 number not below the first operand. *)
Lemma scale_of_maximum (v : float) :
  valid32 v -> 0 < scaled v < 9999999 * 2 ^ 1200 ->
  valid32 (float_of_double (f64_add (double_of_float v) d_0_000001)) /\
  scaled v <= scaled (float_of_double (f64_add (double_of_float v) d_0_000001)).
Proof.
  intros Hv Hr.
  destruct (double_of_float_valid v Hv) as [[Fd Vd] Hsc].
  destruct Hv as [Fv Vv].
  destruct v as [s | | | s m e]; try done; try (simpl in Hr; lia).
  simpl in Vv. pose proof Vv as Hb32.
  assert (He : -1200 <= e) by (apply bounded32 in Vv; lia).
  pose proof (scaled_pos m e He) as Hpos.
  destruct s; [rewrite scaled_finite in Hr; lia |].
  rewrite scaled_finite, Z.mul_1_l in Hr, Hsc |- *.
  destruct (double_of_float (S754_finite false m e)) as [| | | sd M E] eqn:HD; try done;
    try (simpl in Hsc; lia).
  simpl in Vd.
  assert (HE : -1200 <= E) by (apply (bounded_low 53 1024) in Vd; [done | by unfold emin]).
  pose proof (scaled_pos M E HE) as HposM.
  destruct sd; [rewrite scaled_finite in Hsc; lia |].
  rewrite scaled_finite, Z.mul_1_l in Hsc.
  change d_0_000001 with (S754_finite false 4722366482869645 (-72)).
  unfold f64_add, SFadd.
  set (ez := Z.min E (-72)).
  destruct (shl_align_spec M E ez) as (a & ea & Ha & Hea & Hva & _); [lia | lia |].
  destruct (shl_align_spec 4722366482869645 (-72) ez) as (b & eb & Hb & Heb & Hvb & _);
    [lia | lia |].
  rewrite Ha, Hb. cbn [fst cond_Zopp]. change (Z.pos a + Z.pos b) with (Z.pos (a + b)).
  cbn [binary_normalize].
  assert (Hez : ea = ez /\ eb = ez) by lia. destruct Hez as [-> ->].
  assert (Hsum : Z.pos (a + b) * 2 ^ (ez + 1200)
                 = Z.pos m * 2 ^ (e + 1200) + 4722366482869645 * 2 ^ 1128).
  { rewrite Pos2Z.inj_add, Z.mul_add_distr_r, Hva, Hvb, Hsc. done. }
  assert (H64 : -1200 <= ez) by lia.
  destruct (binary_round_upper 53 1024 ltac:(lia) ltac:(unfold emin; lia) ltac:(unfold emin; lia)
              false (a + b) ez 24 H64 ltac:(unfold emin; lia)) as ([Fx Vx] & mag & Hmag & Hub).
  { rewrite Hsum.
    change (2 ^ (24 + 1200)) with (16777216 * 2 ^ 1200).
    change (2 ^ 1200) with (4722366482869645213696 * 2 ^ 1128) in *.
    assert (0 < 2 ^ 1128) by done. set (T := 2 ^ 1128) in *. clearbody T. lia. }
  destruct (binary_round_lower 53 1024 ltac:(lia) ltac:(unfold emin; lia) ltac:(unfold emin; lia)
              false (a + b) ez M E H64 Vd) as [Hinf | (_ & mag' & Hmag' & Hlb)].
  { rewrite Hsum, Hsc. assert (0 < 2 ^ 1128) by done. lia. }
  { rewrite Hinf in Fx. done. }
  cbv iota in Hmag, Hmag'.
  assert (Hmm : mag' = mag) by (rewrite Hmag in Hmag'; lia). subst mag'. clear Hmag'.
  destruct (binary_round 53 1024 false (a + b) ez) as [| | | sx mx ex] eqn:HX; try done;
    try (simpl in Hmag; lia).
  simpl in Vx.
  assert (Hex : -1200 <= ex) by (apply (bounded_low 53 1024) in Vx; [done | by unfold emin]).
  pose proof (scaled_pos mx ex Hex) as Hposx.
  rewrite scaled_finite in Hmag.
  destruct sx; [lia |]. rewrite !Z.mul_1_l in Hmag.
  unfold float_of_double.
  destruct (binary_round_upper 24 128 ltac:(lia) ltac:(unfold emin; lia) ltac:(unfold emin; lia)
              false mx ex 25 Hex ltac:(unfold emin; lia)) as (HvL & magL & HmagL & HubL).
  { rewrite Hmag. apply Z.le_lt_trans with (2 ^ (24 + 1200)); [lia | done]. }
  split; [exact HvL |].
  destruct (binary_round_lower 24 128 ltac:(lia) ltac:(unfold emin; lia) ltac:(unfold emin; lia)
              false mx ex m e Hex Hb32) as [Hinf | (_ & mag' & Hmag' & Hlb')].
  { rewrite Hmag, <- Hsc. lia. }
  { destruct HvL as [FL _]. rewrite Hinf in FL. done. }
  rewrite Hmag'. lia.
Qed.

Lemma amended_scale_bounds (v0 : float) (r : list float) (u : float) :
  Forall valid32 (v0 :: r) -> Forall within_sentinels (v0 :: r) ->
  u ∈ v0 :: r -> scaled u <> 0 ->
  valid32 (amended_scale (v0 :: r)) /\ 0 < scaled (amended_scale (v0 :: r)) /\
  forall v, v ∈ v0 :: r -> Z.abs (scaled v) <= scaled (amended_scale (v0 :: r)).
Proof.
  intros Hval Hws Hu Hu0.
  pose proof Hval as Hval'. apply Forall_cons in Hval' as [Hv0 Hr].
  destruct (max_fold_scaled r v0 Hv0 Hr) as (HvM & HinM & HaM & HallM).
  destruct (min_fold_scaled r v0 Hv0 Hr) as (Hvm & Ham & Hallm).
  unfold amended_scale. cbn [maxSample minSample].
  set (M := foldl max_step v0 r) in *. set (mn := foldl min_step v0 r) in *.
  assert (HM : forall v, v ∈ v0 :: r -> scaled mn <= scaled v <= scaled M).
  { intros v [-> | Hv]%elem_of_cons; [lia |]. split; [by apply Hallm | by apply HallM]. }
  assert (HMin : M ∈ v0 :: r).
  { apply elem_of_cons. destruct HinM as [-> | ?]; [by left | by right]. }
  assert (HMs : scaled M < 9999999 * 2 ^ 1200).
  { apply (proj1 (Forall_forall _ _) Hws) in HMin as [_ Hhi].
    apply (flt_scaled32 M sentinel_high) in Hhi; [done | done | done]. }
  destruct (double_of_float_valid M HvM) as [HM64 HscM].
  destruct (double_of_float_valid mn Hvm) as [Hm64 Hscm].
  destruct (fabs_valid64 _ Hm64) as [Hfm64 Hscf]. rewrite Hscm in Hscf.
  destruct (fgt (double_of_float M) (fabs (double_of_float mn))) eqn:Hcmp.
  - apply (flt_scaled64 (fabs (double_of_float mn)) (double_of_float M)) in Hcmp;
      [| done | done].
    rewrite Hscf, HscM in Hcmp.
    destruct (scale_of_maximum M HvM ltac:(lia)) as [HvL HL].
    split; [done |]. split; [lia |].
    intros v Hv. specialize (HM v Hv). lia.
  - apply (flt_false_scaled64 (fabs (double_of_float mn)) (double_of_float M)) in Hcmp;
      [| done | done].
    rewrite Hscf, HscM in Hcmp.
    destruct (float_of_double_fabs mn Hvm) as [HvL HL].
    split; [done |]. rewrite HL. split.
    + specialize (HM u Hu). lia.
    + intros v Hv. specialize (HM v Hv). lia.
Qed.

(** *** The renormalized buffer *)

Lemma Forall_defined {A B} (g : A -> option B) (P : B -> Prop) (l : list A) :
  Forall (fun a => exists b, g a = Some b /\ P b) l ->
  exists vs, Forall2 (fun a b => g a = Some b) l vs /\ Forall P vs.
Proof.
  induction 1 as [|a l (b & Hb & HP) _ (vs & Hvs & HPs)].
  - exists []. by split.
  - exists (b :: vs). split; by constructor.
Qed.

Lemma unit_range_comparisons (o : float) :
  valid32 o -> - 2 ^ 1200 <= scaled o < 2 ^ 1200 ->
  fge (double_of_float o) (SFopp d_1_0) = true /\ flt (double_of_float o) d_1_0 = true.
Proof.
  intros Ho Hr. destruct (double_of_float_valid o Ho) as [Ho64 Hsc]. split.
  - apply (fle_scaled64 (SFopp d_1_0) (double_of_float o)); [done | done |].
    rewrite Hsc. change (scaled (SFopp d_1_0)) with (- 2 ^ 1200). lia.
  - apply (flt_scaled64 (double_of_float o) d_1_0); [done | done |].
    rewrite Hsc. change (scaled d_1_0) with (2 ^ 1200). lia.
Qed.

(** X14.  The body of the loop of [scaleValuesToRangeOfPlusMinus1] and the
    conversion that follows it, on one sample: for binary32 numbers v and
    largest with largest > 0 and |v| <= largest, the scaled sample (v /
    largest, less 0.000001 when the quotient exceeds 0.999999) is a binary32
    number o with -1.0 <= o < 1.0, never 1.0, a NaN or an infinity, and
    [(short)(o * 32768.0)] is defined and is a 16-bit value. *)
Theorem scaled_sample_converts (largest v : float) :
  valid32 v -> valid32 largest ->
  fgt largest f_0_0 = true ->
  fge (double_of_float largest) (fabs (double_of_float v)) = true ->
  valid32 (scale_sample largest v) /\
  fge (double_of_float (scale_sample largest v)) (SFopp d_1_0) = true /\
  flt (double_of_float (scale_sample largest v)) d_1_0 = true /\
  exists z, sample_of_float (scale_sample largest v) = Some z /\ is_short z.
Proof.
  intros Hv HL Hpos Hge.
  apply (flt_scaled32 f_0_0 largest) in Hpos; [| done | done].
  change (scaled f_0_0) with 0 in Hpos.
  destruct (double_of_float_valid v Hv) as [Hv64 Hscv].
  destruct (double_of_float_valid largest HL) as [HL64 HscL].
  destruct (fabs_valid64 _ Hv64) as [Hf64 Hscf].
  apply (fle_scaled64 (fabs (double_of_float v)) (double_of_float largest)) in Hge;
    [| done | done].
  rewrite Hscf, Hscv, HscL in Hge.
  destruct (scale_sample_range largest v Hv HL Hpos Hge) as [Ho Hr].
  destruct (unit_range_comparisons _ Ho Hr) as [Hlo Hhi].
  repeat split; [apply Ho | apply Ho | done | done |].
  by apply sample_of_float_defined.
Qed.

Lemma scaled_sample_converts_witness :
  valid32 (scale_sample (float_of_sample 16384) (float_of_sample (-16384))) /\
  fge (double_of_float (scale_sample (float_of_sample 16384) (float_of_sample (-16384))))
      (SFopp d_1_0) = true /\
  flt (double_of_float (scale_sample (float_of_sample 16384) (float_of_sample (-16384))))
      d_1_0 = true /\
  exists z, sample_of_float (scale_sample (float_of_sample 16384) (float_of_sample (-16384)))
            = Some z /\ is_short z.
Proof.
  apply (scaled_sample_converts (float_of_sample 16384) (float_of_sample (-16384))).
  - split; reflexivity.
  - split; reflexivity.
  - reflexivity.
  - reflexivity.
Defined.

Lemma nonzero_scaled (u : float) :
  valid32 u -> flt u f_0_0 = true \/ fgt u f_0_0 = true -> scaled u <> 0.
Proof.
  intros Hvu [H | H].
  - apply (flt_scaled32 u f_0_0) in H; [| done | done].
    change (scaled f_0_0) with 0 in H. lia.
  - apply (flt_scaled32 f_0_0 u) in H; [| done | done].
    change (scaled f_0_0) with 0 in H. lia.
Qed.

(** With a smallest sample behind the first one and a sample that is not
    0, every renormalized sample is a binary32 number [-1.0 <= o < 1.0]. *)
Lemma renormalize_in_range (y : list float) (i : nat) (w u : float) :
  Forall valid32 y -> Forall within_sentinels y ->
  (1 <= i)%nat -> y !! i = Some w -> (forall v, v ∈ y -> flt v w = false) ->
  u ∈ y -> flt u f_0_0 = true \/ fgt u f_0_0 = true ->
  Forall (fun o => valid32 o /\ - 2 ^ 1200 <= scaled o < 2 ^ 1200) (renormalize y).
Proof.
  intros Hval Hws Hi Hw Hmin Hu Hu0.
  assert (Hu0' : scaled u <> 0).
  { apply nonzero_scaled; [| done]. exact (proj1 (Forall_forall _ _) Hval u Hu). }
  unfold renormalize. apply Forall_fmap, Forall_forall. intros v Hv. cbv beta.
  destruct y as [|v0 r]; [by apply elem_of_nil in Hv |].
  destruct i as [|i]; [lia |]. simpl in Hw.
  rewrite (largest_of_amended v0 r w); [| done | by eapply list_elem_of_lookup_2 | done].
  destruct (amended_scale_bounds v0 r u Hval Hws Hu Hu0') as (HvL & HL0 & HLall).
  apply scale_sample_range; [| done | done | by apply HLall].
  by apply (proj1 (Forall_forall _ _) Hval).
Qed.

(** The conversion loop on a buffer of such numbers runs to its end. *)
Lemma conversion_defined (out : list float) (samples : list Z) :
  Forall (fun o => valid32 o /\ - 2 ^ 1200 <= scaled o < 2 ^ 1200) out ->
  length samples = length out ->
  exists ss,
    createShortIntegerSamplesFromFloatSamples out (Z.of_nat (length out)) samples = Some ss /\
    length ss = length out /\ Forall is_short ss.
Proof.
  intros Hrange Hlen.
  assert (Hdef : Forall (fun o => exists z, sample_of_float o = Some z /\ is_short z) out).
  { eapply Forall_impl; [exact Hrange |]. intros o [Ho Hr]. by apply sample_of_float_defined. }
  apply Forall_defined in Hdef as (ss & Hss & Hshort).
  assert (Hls : length ss = length out).
  { apply Forall2_length in Hss. lia. }
  exists ss. split; [| done].
  unfold createShortIntegerSamplesFromFloatSamples.
  rewrite (for_loop_fill out sample_of_float ss samples (length out)).
  - rewrite drop_ge by lia. by rewrite app_nil_r.
  - by rewrite firstn_all.
  - lia.
  - lia.
Qed.

(** X15.  Where the scan works as designed the renormalizer keeps the
    range, and the conversion is defined.  For a buffer y of binary32
    numbers strictly between the sentinels, with a smallest sample at an
    index >= 1 and a sample that is not 0,
    [scaleValuesToRangeOfPlusMinus1] returns as many binary32 numbers o,
    all with -1.0 <= o < 1.0, and
    [createShortIntegerSamplesFromFloatSamples] converts every one of them
    to a 16-bit value: no access leaves an array and no conversion is out
    of the range of [short]. *)
Theorem renormalized_samples_convert
    (y : list float) (i : nat) (w u : float) (samples : list Z) :
  Forall valid32 y -> Forall within_sentinels y ->
  (1 <= i)%nat -> y !! i = Some w -> (forall v, v ∈ y -> flt v w = false) ->
  u ∈ y -> flt u f_0_0 = true \/ fgt u f_0_0 = true ->
  length samples = length y ->
  exists y' ss,
    scaleValuesToRangeOfPlusMinus1 y (Z.of_nat (length y)) = Some y' /\
    length y' = length y /\
    Forall (fun o => valid32 o /\
                     fge (double_of_float o) (SFopp d_1_0) = true /\
                     flt (double_of_float o) d_1_0 = true) y' /\
    createShortIntegerSamplesFromFloatSamples y' (Z.of_nat (length y)) samples = Some ss /\
    length ss = length y /\ Forall is_short ss.
Proof.
  intros Hval Hws Hi Hw Hmin Hu Hu0 Hlen.
  pose proof (renormalize_in_range y i w u Hval Hws Hi Hw Hmin Hu Hu0) as Hrange.
  assert (Hly : length (renormalize y) = length y) by (unfold renormalize; by rewrite length_map).
  destruct (conversion_defined (renormalize y) samples Hrange ltac:(lia))
    as (ss & Hconv & Hls & Hshort).
  exists (renormalize y), ss.
  split; [apply scaleValuesToRangeOfPlusMinus1_spec |].
  split; [done |].
  split.
  { eapply Forall_impl; [exact Hrange |]. intros o [Ho Hr]. split; [done |].
    by apply unit_range_comparisons. }
  rewrite Hly in Hconv, Hls. done.
Qed.

Lemma renormalized_samples_convert_witness :
  exists y' ss,
    scaleValuesToRangeOfPlusMinus1
      [float_of_sample 8192; float_of_sample (-16384); float_of_sample 0] 3 = Some y' /\
    length y' = 3%nat /\
    Forall (fun o => valid32 o /\
                     fge (double_of_float o) (SFopp d_1_0) = true /\
                     flt (double_of_float o) d_1_0 = true) y' /\
    createShortIntegerSamplesFromFloatSamples y' 3 [0; 0; 0] = Some ss /\
    length ss = 3%nat /\ Forall is_short ss.
Proof.
  apply (renormalized_samples_convert
           [float_of_sample 8192; float_of_sample (-16384); float_of_sample 0]
           1 (float_of_sample (-16384)) (float_of_sample 8192) [0; 0; 0]).
  - repeat constructor.
  - repeat constructor.
  - lia.
  - reflexivity.
  - intros v Hv.
    apply elem_of_cons in Hv as [->|Hv]; [reflexivity |].
    apply elem_of_cons in Hv as [->|Hv]; [reflexivity |].
    apply elem_of_cons in Hv as [->|Hv]; [reflexivity |].
    by apply elem_of_nil in Hv.
  - apply elem_of_cons. by left.
  - right. reflexivity.
  - reflexivity.
Defined.

(* ====================================================================== *)
(** ** The raw sums stay finite *)

(** *** Sums and products of bounded numbers *)

Lemma within_mono (n n' : Z) (v : float) : n <= n' -> within n v -> within n' v.
Proof.
  intros Hn [Hv Hb]. split; [done |].
  assert (0 < 2 ^ 1200) by done. nia.
Qed.

Lemma within_zero (s : bool) (n : Z) : 0 <= n -> within n (S754_zero s).
Proof.
  intros Hn. split; [done |]. simpl. assert (0 < 2 ^ 1200) by done. nia.
Qed.

(** The integers up to 2^24 are binary32 numbers. *)
Lemma int_reference (n : Z) :
  1 <= n <= 16777216 ->
  exists mr er, bounded 24 128 mr er = true /\ Z.pos mr * 2 ^ (er + 1200) = n * 2 ^ 1200.
Proof.
  intros Hn.
  destruct (decide (n = 16777216)) as [-> | Hne]; [by exists 8388608%positive, 1 |].
  destruct n as [|p|p]; try lia.
  pose proof (digits_bounds p) as [Lp Up].
  set (d := Z.pos (digits2_pos p)) in *.
  assert (Hd : 1 <= d <= 24).
  { split; [unfold d; lia |].
    destruct (decide (d <= 24)) as [? | Hgt]; [done | exfalso].
    assert (2 ^ 24 <= 2 ^ (d - 1)) by (apply Z.pow_le_mono_r; lia).
    change (2 ^ 24) with 16777216 in *. lia. }
  destruct (decide (d = 24)) as [Hd24 | Hd24].
  - exists p, 0. split; [| done].
    apply bounded_cases. fold d. unfold emin. lia.
  - set (k := Z.to_pos (24 - d)).
    assert (Hk : Z.pos k = 24 - d) by (unfold k; rewrite Z2Pos.id; lia).
    exists (Pos.iter xO p k), (- Z.pos k). split.
    + apply bounded_cases. rewrite digits2_pos_shift, Pos2Z.inj_add. fold d.
      unfold emin. lia.
    + rewrite Zpos_shift, <- Z.mul_assoc, <- Z.pow_add_r by lia.
      do 2 f_equal. lia.
Qed.

(** The product of two binary32 numbers of magnitude at most 1 is one. *)
Lemma f32_mul_within (a b : float) : within 1 a -> within 1 b -> within 1 (f32_mul a b).
Proof.
  intros [[Fa Va] Ha] [[Fb Vb] Hb].
  destruct a as [sa | | | sa ma ea], b as [sb | | | sb mb eb]; try done;
    try (apply within_zero; lia).
  simpl in Va, Vb. rewrite scaled_finite in Ha, Hb.
  pose proof Va as Va'. pose proof Vb as Vb'.
  apply bounded32 in Va' as (Hda & Hea & Hca), Vb' as (Hdb & Heb & Hcb).
  pose proof (scaled_pos ma ea ltac:(lia)) as Hpa.
  pose proof (scaled_pos mb eb ltac:(lia)) as Hpb.
  assert (Ha' : Z.pos ma * 2 ^ (ea + 1200) <= 2 ^ 1200) by (destruct sa; lia).
  assert (Hb' : Z.pos mb * 2 ^ (eb + 1200) <= 2 ^ 1200) by (destruct sb; lia).
  clear Ha Hb.
  unfold f32_mul, SFmul.
  destruct (binary_round_aux_below 24 128 ltac:(lia) ltac:(unfold emin; lia)
              ltac:(unfold emin; lia) (xorb sa sb) (Z.pos (ma * mb)) (ea + eb) 8388608 (-23))
    as (Hv & mag & Hsc & Hmag).
  - lia.
  - (* the product of two canonical mantissas needs no shift to the left *)
    pose proof (digits_bounds ma) as [La _]. pose proof (digits_bounds mb) as [Lb _].
    set (da := Z.pos (digits2_pos ma)) in *. set (db := Z.pos (digits2_pos mb)) in *.
    assert (1 <= da) by (unfold da; lia). assert (1 <= db) by (unfold db; lia).
    assert (Hd : da + db - 2 + 1 <= Zdigits2 (Z.pos (ma * mb))).
    { apply Zdigits2_ge; [lia |]. rewrite Pos2Z.inj_mul.
      replace (da + db - 2) with ((da - 1) + (db - 1)) by lia.
      rewrite Z.pow_add_r by lia.
      apply Z.mul_le_mono_nonneg; [apply Z.pow_nonneg | | apply Z.pow_nonneg |]; lia. }
    unfold fexp, emin. lia.
  - lia.
  - done.
  - change (Z.pos 8388608 * 2 ^ (-23 + 1200)) with (2 ^ 1200).
    rewrite Pos2Z.inj_mul.
    assert (Hsplit : 2 ^ (ea + eb + 1200) * 2 ^ 1200 = 2 ^ (ea + 1200) * 2 ^ (eb + 1200)).
    { rewrite <- !Z.pow_add_r by lia. f_equal. lia. }
    assert (HT : 0 < 2 ^ 1200) by done.
    assert (HE : 0 < 2 ^ (ea + eb + 1200)) by (apply Z.pow_pos_nonneg; lia).
    set (A := 2 ^ (ea + 1200)) in *. set (B := 2 ^ (eb + 1200)) in *.
    set (E := 2 ^ (ea + eb + 1200)) in *. set (T := 2 ^ 1200) in *.
    clearbody A B E T.
    assert (Z.pos ma * A * (Z.pos mb * B) <= T * T) by (apply Z.mul_le_mono_nonneg; lia).
    assert (Z.pos ma * Z.pos mb * E * T <= T * T).
    { replace (Z.pos ma * Z.pos mb * E * T) with (Z.pos ma * Z.pos mb * (E * T)) by ring.
      rewrite Hsplit. lia. }
    nia.
  - split; [done |]. rewrite Hsc.
    change (Z.pos 8388608 * 2 ^ (-23 + 1200)) with (2 ^ 1200) in Hmag.
    destruct (xorb sa sb); lia.
Qed.

(** The sum of a binary32 number of magnitude at most [n] and one of
    magnitude at most 1 has magnitude at most [n + 1], as long as [n + 1] is
    a binary32 number. *)
Lemma f32_add_within (a b : float) (n : Z) :
  0 <= n -> n + 1 <= 16777216 ->
  within n a -> within 1 b -> within (n + 1) (f32_add a b).
Proof.
  intros Hn0 Hn [[Fa Va] Ha] [[Fb Vb] Hb].
  assert (HT : 0 < 2 ^ 1200) by done.
  destruct a as [sa | | | sa ma ea], b as [sb | | | sb mb eb]; try done.
  - destruct sa, sb; apply within_zero; lia.
  - apply (within_mono 1 (n + 1) (S754_finite sb mb eb)); [lia | by repeat split].
  - apply (within_mono n (n + 1) (S754_finite sa ma ea)); [lia | by repeat split].
  - simpl in Va, Vb. rewrite scaled_finite in Ha, Hb.
    pose proof Va as Va'. pose proof Vb as Vb'.
    apply bounded32 in Va' as (Hda & Hea & Hca), Vb' as (Hdb & Heb & Hcb).
    pose proof (scaled_pos ma ea ltac:(lia)) as Hpa.
    pose proof (scaled_pos mb eb ltac:(lia)) as Hpb.
    assert (Ha' : Z.pos ma * 2 ^ (ea + 1200) <= n * 2 ^ 1200) by (destruct sa; lia).
    assert (Hb' : Z.pos mb * 2 ^ (eb + 1200) <= 2 ^ 1200) by (destruct sb; lia).
    clear Ha Hb.
    destruct (int_reference (n + 1) ltac:(lia)) as (mr & er & Hbr & Hvr).
    unfold f32_add, SFadd.
    set (ez := Z.min ea eb).
    destruct (shl_align_spec ma ea ez) as (a' & ea' & Hal & Hea' & Hva & _); [lia | lia |].
    destruct (shl_align_spec mb eb ez) as (b' & eb' & Hbl & Heb' & Hvb & _); [lia | lia |].
    rewrite Hal, Hbl. cbn [fst].
    assert (Hez : ea' = ez /\ eb' = ez) by lia. destruct Hez as [-> ->].
    assert (HE : 0 < 2 ^ (ez + 1200)) by (apply Z.pow_pos_nonneg; lia).
    set (sum := cond_Zopp sa (Z.pos a') + cond_Zopp sb (Z.pos b')).
    assert (Hsum : Z.abs sum * 2 ^ (ez + 1200) <= (n + 1) * 2 ^ 1200).
    { assert (Z.abs sum <= Z.pos a' + Z.pos b').
      { unfold sum, cond_Zopp. destruct sa, sb; lia. }
      set (E := 2 ^ (ez + 1200)) in *. clearbody E. nia. }
    destruct sum as [|m|m] eqn:Hs; cbn [binary_normalize].
    + apply within_zero. lia.
    + destruct (binary_round_below 24 128 ltac:(lia) ltac:(unfold emin; lia)
                  ltac:(unfold emin; lia) false m ez mr er ltac:(lia) Hbr)
        as (Hv & mag & Hsc & Hmag).
      { rewrite Hvr. simpl Z.abs in Hsum. done. }
      split; [done |]. rewrite Hsc, <- Hvr. lia.
    + destruct (binary_round_below 24 128 ltac:(lia) ltac:(unfold emin; lia)
                  ltac:(unfold emin; lia) true m ez mr er ltac:(lia) Hbr)
        as (Hv & mag & Hsc & Hmag).
      { rewrite Hvr. simpl Z.abs in Hsum. done. }
      split; [done |]. rewrite Hsc, <- Hvr. lia.
Qed.

(** *** The sums of the convolution *)

Lemma terms_upto_bounds (M p k : nat) :
  0 <= terms_upto M p k <= Z.min (Z.of_nat k) (Z.of_nat M).
Proof. unfold terms_upto. lia. Qed.

Lemma conv_partial_within (x h : list float) (p k : nat) :
  Forall (within 1) x -> Forall (within 1) h ->
  Z.min (Z.of_nat (length x)) (Z.of_nat (length h)) <= 16777216 ->
  (k <= length x)%nat ->
  within (terms_upto (length h) p k) (conv_partial f_0_0 f32_add f32_mul x h k p).
Proof.
  intros Hx Hh Hmin. induction k as [|k IH]; intros Hk.
  - apply within_zero. unfold terms_upto. lia.
  - rewrite conv_partial_S. specialize (IH ltac:(lia)).
    unfold conv_term. case_decide as Hkp.
    + destruct (x !! k) as [xn|] eqn:Hxn; cbn [mbind option_bind].
      * destruct (h !! (p - k)%nat) as [hm|] eqn:Hhm; cbn [mbind option_bind].
        -- apply lookup_lt_Some in Hhm as Hlt.
           pose proof (terms_upto_bounds (length h) p k) as Hb.
           pose proof (terms_upto_bounds (length h) p (S k)) as Hb'.
           replace (terms_upto (length h) p (S k)) with (terms_upto (length h) p k + 1)
             by (unfold terms_upto; lia).
           apply f32_add_within; [lia | | done |].
           ++ assert (terms_upto (length h) p k + 1 = terms_upto (length h) p (S k))
                by (unfold terms_upto; lia).
              lia.
           ++ apply f32_mul_within.
              ** exact (proj1 (Forall_lookup _ x) Hx k xn Hxn).
              ** exact (proj1 (Forall_lookup _ h) Hh _ hm Hhm).
        -- eapply within_mono; [| exact IH]. unfold terms_upto. lia.
      * eapply within_mono; [| exact IH]. unfold terms_upto. lia.
    + eapply within_mono; [| exact IH]. unfold terms_upto. lia.
Qed.

Lemma float_of_sample_within (s : Z) : is_short s -> within 1 (float_of_sample s).
Proof.
  intros Hs. destruct (float_of_sample_scaled s Hs) as [Hv Hsc].
  split; [done |]. rewrite Hsc. unfold is_short, SHRT_MIN, SHRT_MAX in Hs.
  change (2 ^ 1200) with (32768 * 2 ^ 1185).
  assert (0 < 2 ^ 1185) by done. set (T := 2 ^ 1185) in *. clearbody T. nia.
Qed.

(** Every raw sum of the floats of two sample sequences is a binary32
    number of magnitude at most the length of the shorter sequence. *)
Lemma conv_spec_within (xs hs : list Z) :
  Forall is_short xs -> Forall is_short hs ->
  Z.min (Z.of_nat (length xs)) (Z.of_nat (length hs)) <= 16777216 ->
  Forall (within (Z.min (Z.of_nat (length xs)) (Z.of_nat (length hs))))
    (conv_spec f_0_0 f32_add f32_mul (map float_of_sample xs) (map float_of_sample hs)).
Proof.
  intros Hxs Hhs Hmin. unfold conv_spec, conv_sum.
  apply Forall_fmap, Forall_forall. intros p _. cbv beta.
  eapply within_mono; [| apply conv_partial_within].
  - pose proof (terms_upto_bounds (length (map float_of_sample hs)) p
                  (length (map float_of_sample xs))) as Hb.
    rewrite !length_map in Hb |- *. lia.
  - apply Forall_fmap. eapply Forall_impl; [exact Hxs |]. apply float_of_sample_within.
  - apply Forall_fmap. eapply Forall_impl; [exact Hhs |]. apply float_of_sample_within.
  - by rewrite !length_map.
  - done.
Qed.

Lemma within_sentinels_of_within (n : Z) (v : float) :
  n <= 9999998 -> within n v -> within_sentinels v.
Proof.
  intros Hn [Hv Hb]. assert (HT : 0 < 2 ^ 1200) by done.
  split.
  - apply (flt_scaled32 sentinel_low v); [done | done |].
    change (scaled sentinel_low) with (- (9999999 * 2 ^ 1200)).
    set (T := 2 ^ 1200) in *. clearbody T. nia.
  - apply (flt_scaled32 v sentinel_high); [done | done |].
    change (scaled sentinel_high) with (9999999 * 2 ^ 1200).
    set (T := 2 ^ 1200) in *. clearbody T. nia.
Qed.

(** X16.  The raw sums of [convolve] cannot overflow.  For the floats of
    two sequences of 16-bit samples, the shorter of which has at most
    9999998 samples, the loops of [convolve] leave, before the renormalizer
    is called, binary32 numbers and neither a NaN nor an infinity, each of
    magnitude at most the length of the shorter sequence ([scaled v] is the
    value of v times 2^1200), hence strictly between the sentinels of the
    scan. *)
Theorem raw_sums_bounded (xs hs : list Z) (y : list float) :
  Forall is_short xs -> Forall is_short hs ->
  length y = (length xs + length hs - 1)%nat ->
  Z.min (Z.of_nat (length xs)) (Z.of_nat (length hs)) <= 9999998 ->
  exists raw,
    convolve_raw (map float_of_sample xs) (Z.of_nat (length xs))
                 (map float_of_sample hs) (Z.of_nat (length hs)) y (Z.of_nat (length y))
    = Some raw /\
    length raw = length y /\
    Forall (fun v => valid32 v /\
                     Z.abs (scaled v)
                     <= Z.min (Z.of_nat (length xs)) (Z.of_nat (length hs)) * 2 ^ 1200 /\
                     within_sentinels v) raw.
Proof.
  intros Hxs Hhs Hy Hmin.
  exists (conv_spec f_0_0 f32_add f32_mul (map float_of_sample xs) (map float_of_sample hs)).
  split; [| split].
  - rewrite <- (length_map float_of_sample xs), <- (length_map float_of_sample hs).
    apply convolve_raw_spec. by rewrite !length_map.
  - by rewrite conv_spec_length, !length_map.
  - eapply Forall_impl; [apply conv_spec_within; [done | done | lia] |].
    intros v Hw. cbv beta. destruct Hw as [Hv Hb]. split; [done |]. split; [done |].
    eapply within_sentinels_of_within; [exact Hmin | by split].
Qed.

Lemma raw_sums_bounded_witness :
  exists raw,
    convolve_raw (map float_of_sample [32767; -32768]) 2
                 (map float_of_sample [-32768; -32768; 32767]) 3 (replicate 4 S754_nan) 4
    = Some raw /\
    length raw = 4%nat /\
    Forall (fun v => valid32 v /\ Z.abs (scaled v) <= 2 * 2 ^ 1200 /\ within_sentinels v) raw.
Proof.
  apply (raw_sums_bounded [32767; -32768] [-32768; -32768; 32767] (replicate 4 S754_nan)).
  - repeat constructor; unfold SHRT_MIN, SHRT_MAX; lia.
  - repeat constructor; unfold SHRT_MIN, SHRT_MAX; lia.
  - reflexivity.
  - simpl. lia.
Defined.

(** X17.  [convolve] on the floats of 16-bit samples, and the conversion
    that follows it.  When the shorter input has at most 9999998 samples
    and the raw result has a smallest sample at an index >= 1 and a sample
    that is not 0, [convolve] returns binary32 numbers o with
    -1.0 <= o < 1.0, and [createShortIntegerSamplesFromFloatSamples]
    converts all of them to 16-bit values. *)
Theorem convolve_output_converts
    (xs hs : list Z) (y raw : list float) (samples : list Z) (i : nat) (w u : float) :
  Forall is_short xs -> Forall is_short hs ->
  Z.min (Z.of_nat (length xs)) (Z.of_nat (length hs)) <= 9999998 ->
  length y = (length xs + length hs - 1)%nat -> length samples = length y ->
  convolve_raw (map float_of_sample xs) (Z.of_nat (length xs))
               (map float_of_sample hs) (Z.of_nat (length hs)) y (Z.of_nat (length y))
  = Some raw ->
  (1 <= i)%nat -> raw !! i = Some w -> (forall v, v ∈ raw -> flt v w = false) ->
  u ∈ raw -> flt u f_0_0 = true \/ fgt u f_0_0 = true ->
  exists out ss,
    convolve (map float_of_sample xs) (Z.of_nat (length xs))
             (map float_of_sample hs) (Z.of_nat (length hs)) y (Z.of_nat (length y))
    = Some out /\
    length out = length y /\
    Forall (fun o => valid32 o /\
                     fge (double_of_float o) (SFopp d_1_0) = true /\
                     flt (double_of_float o) d_1_0 = true) out /\
    createShortIntegerSamplesFromFloatSamples out (Z.of_nat (length y)) samples = Some ss /\
    length ss = length y /\ Forall is_short ss.
Proof.
  intros Hxs Hhs Hmin Hy Hlen Hraw Hi Hw Hsmall Hu Hu0.
  assert (Hy' : length y
                = (length (map float_of_sample xs) + length (map float_of_sample hs) - 1)%nat)
    by (by rewrite !length_map).
  pose proof (convolve_raw_spec (map float_of_sample xs) (map float_of_sample hs) y Hy') as Hspec.
  rewrite !length_map in Hspec. rewrite Hspec in Hraw. injection Hraw as <-.
  set (raw := conv_spec f_0_0 f32_add f32_mul (map float_of_sample xs) (map float_of_sample hs))
    in *.
  pose proof (conv_spec_within xs hs Hxs Hhs ltac:(lia)) as Hwithin. fold raw in Hwithin.
  assert (Hval : Forall valid32 raw).
  { eapply Forall_impl; [exact Hwithin |]. by intros v [Hv _]. }
  assert (Hws : Forall within_sentinels raw).
  { eapply Forall_impl; [exact Hwithin |]. intros v Hv.
    by eapply within_sentinels_of_within. }
  pose proof (renormalize_in_range raw i w u Hval Hws Hi Hw Hsmall Hu Hu0) as Hrange.
  assert (Hlr : length (renormalize raw) = length y).
  { unfold renormalize, raw. by rewrite length_map, conv_spec_length. }
  destruct (conversion_defined (renormalize raw) samples Hrange ltac:(lia))
    as (ss & Hconv & Hls & Hshort).
  exists (renormalize raw), ss.
  split.
  { pose proof (convolve_spec (map float_of_sample xs) (map float_of_sample hs) y Hy') as Hc.
    by rewrite !length_map in Hc. }
  split; [done |].
  split.
  { eapply Forall_impl; [exact Hrange |]. intros o [Ho Hr]. split; [done |].
    by apply unit_range_comparisons. }
  rewrite Hlr in Hconv, Hls. done.
Qed.

Lemma convolve_output_converts_witness :
  exists out ss,
    convolve (map float_of_sample [8192; -16384]) 2 (map float_of_sample [16384; 8192]) 2
             (replicate 3 S754_nan) 3
    = Some out /\
    length out = 3%nat /\
    Forall (fun o => valid32 o /\
                     fge (double_of_float o) (SFopp d_1_0) = true /\
                     flt (double_of_float o) d_1_0 = true) out /\
    createShortIntegerSamplesFromFloatSamples out 3 [0; 0; 0] = Some ss /\
    length ss = 3%nat /\ Forall is_short ss.
Proof.
  apply (convolve_output_converts [8192; -16384] [16384; 8192] (replicate 3 S754_nan)
           (map float_of_sample [4096; -6144; -4096]) [0; 0; 0]
           1 (float_of_sample (-6144)) (float_of_sample 4096)).
  - repeat constructor; unfold SHRT_MIN, SHRT_MAX; lia.
  - repeat constructor; unfold SHRT_MIN, SHRT_MAX; lia.
  - simpl. lia.
  - reflexivity.
  - reflexivity.
  - reflexivity.
  - lia.
  - reflexivity.
  - intros v Hv.
    apply elem_of_cons in Hv as [->|Hv]; [reflexivity |].
    apply elem_of_cons in Hv as [->|Hv]; [reflexivity |].
    apply elem_of_cons in Hv as [->|Hv]; [reflexivity |].
    by apply elem_of_nil in Hv.
  - apply elem_of_cons. by left.
  - right. reflexivity.
Defined.

(* ====================================================================== *)
(** ** The whole run *)

(** *** The steps that only report, and the allocations *)

Lemma reportMaxMinIntegerSamples_ok (samples : list Z) (n : nat) :
  (n <= length samples)%nat -> reportMaxMinIntegerSamples samples (Z.of_nat n) = Some ().
Proof.
  intros Hn. unfold reportMaxMinIntegerSamples.
  destruct (for_loop_inv (fun _ (_ : Z * Z) => True)
              (fun i '(hi, lo) =>
                 thisSample ← aget samples i;
                 Some (if decide (thisSample > hi) then (thisSample, lo)
                       else if decide (thisSample < lo) then (hi, thisSample)
                       else (hi, lo)))
              n (0, 0)) as (s & -> & _); [done | | done].
  intros j [hi lo] Hj _.
  destruct (lookup_lt_is_Some_2 samples j ltac:(lia)) as [v Hv].
  rewrite aget_of_nat, Hv. simpl. by eexists.
Qed.

Lemma printMeanSampleInShortArray_ok (samples : list Z) (n : nat) :
  (n <= length samples)%nat -> printMeanSampleInShortArray samples (Z.of_nat n) = Some ().
Proof.
  intros Hn. unfold printMeanSampleInShortArray.
  by rewrite (for_loop_fold_reads samples (fun s sum => sum + s)) by done.
Qed.

Lemma int_div_by_sample_size (n : nat) :
  2 * Z.of_nat n <= INT_MAX -> int_div (2 * Z.of_nat n) (Z.quot 16 8) = Some (Z.of_nat n).
Proof.
  intros Hn. change (Z.quot 16 8) with 2. unfold int_div.
  rewrite decide_False by lia. rewrite decide_False by lia.
  by rewrite Z.mul_comm, Z.quot_mul by lia.
Qed.

Lemma malloc_cells {A} (junk : A) (size : Z) (n : nat) :
  0 < size -> malloc junk size (Z.of_nat n * size) = replicate n junk.
Proof.
  intros Hs. unfold malloc. by rewrite Z.div_mul, Nat2Z.id by lia.
Qed.

Section Run.
Variables (junk_short : Z) (junk_float : float).

(** X18.  The whole run is defined and writes the convolution.  When the
    headers have been read, both declare 16-bit samples and the data lengths
    2 N and 2 M, the streams hold exactly the N and M samples xs and hs
    behind the headers (4 N and 4 M being [int]s, the shorter input of at
    most 9999998 samples), and the raw sums have a smallest one at an
    index >= 1 and one that is not 0, then [createOutputFile] returns, and
    the output gains a header followed by the 16-bit samples
    [(short)(o * 32768.0)] of the renormalized sums o, in their order. *)
Theorem createOutputFile_writes_the_convolution
    (fuel : nat) (f f1 : FileData) (xs hs : list Z) (i : nat) (w u : float) :
  let raw :=
    conv_spec f_0_0 f32_add f32_mul (map float_of_sample xs) (map float_of_sample hs) in
  readInputFileHeaders fuel f = Some f1 ->
  bits_per_sample (header_sample f1) = 16 -> bits_per_sample (header_impulse f1) = 16 ->
  subchunk2_size (header_sample f1) = 2 * Z.of_nat (length xs) ->
  subchunk2_size (header_impulse f1) = 2 * Z.of_nat (length hs) ->
  remaining (sample_file f1) = bytes_of_shorts xs ->
  remaining (impulse_file f1) = bytes_of_shorts hs ->
  Forall is_short xs -> Forall is_short hs ->
  4 * Z.of_nat (length xs) <= INT_MAX -> 4 * Z.of_nat (length hs) <= INT_MAX ->
  Z.min (Z.of_nat (length xs)) (Z.of_nat (length hs)) <= 9999998 ->
  (1 <= i)%nat -> raw !! i = Some w -> (forall v, v ∈ raw -> flt v w = false) ->
  u ∈ raw -> flt u f_0_0 = true \/ fgt u f_0_0 = true ->
  exists ss f',
    createOutputFile junk_short junk_float fuel f = Some f' /\
    Forall2 (fun o z => sample_of_float o = Some z) (renormalize raw) ss /\
    Forall is_short ss /\
    output_file f' = output_file f ++ header_image (header_output f') ++ bytes_of_shorts ss.
Proof.
  intros raw Hread Hbs Hbi Hss Hsi Hrs Hri Hxs Hhs Hnx Hnh Hmin Hi Hw Hsmall Hu Hu0.
  remember (length xs) as n eqn:Hn. remember (length hs) as m eqn:Hm.
  assert (Hlraw : length raw = (n + m - 1)%nat).
  { unfold raw. by rewrite conv_spec_length, !length_map, <- Hn, <- Hm. }
  assert (Hnm : (1 <= n + m - 1)%nat).
  { apply list_elem_of_lookup in Hu as [k Hk]. apply lookup_lt_Some in Hk. lia. }
  unfold INT_MAX in Hnx, Hnh. change (2 ^ 31 - 1) with 2147483647 in Hnx, Hnh.
  (* the raw result and its conversion *)
  pose proof (conv_spec_within xs hs Hxs Hhs ltac:(rewrite <- Hn, <- Hm; lia)) as Hwithin.
  rewrite <- Hn, <- Hm in Hwithin. fold raw in Hwithin.
  assert (Hval : Forall valid32 raw).
  { eapply Forall_impl; [exact Hwithin |]. by intros v [Hv _]. }
  assert (Hws : Forall within_sentinels raw).
  { eapply Forall_impl; [exact Hwithin |]. intros v Hv.
    by eapply within_sentinels_of_within. }
  pose proof (renormalize_in_range raw i w u Hval Hws Hi Hw Hsmall Hu Hu0) as Hrange.
  assert (Hlr : length (renormalize raw) = (n + m - 1)%nat).
  { unfold renormalize. by rewrite length_map. }
  destruct (conversion_defined (renormalize raw) (replicate (n + m - 1) junk_short) Hrange)
    as (ss & Hconv & Hls & Hshort).
  { by rewrite length_replicate. }
  rewrite Hlr in Hconv, Hls.
  assert (Hfill : Forall2 (fun o z => sample_of_float o = Some z) (renormalize raw) ss).
  { apply Forall2_same_length_lookup. split; [lia |].
    intros k o z Ho Hz.
    unfold createShortIntegerSamplesFromFloatSamples in Hconv.
    assert (Hdef : Forall (fun o => exists z, sample_of_float o = Some z /\ is_short z)
                     (renormalize raw)).
    { eapply Forall_impl; [exact Hrange |]. intros o' [Ho' Hr]. by apply sample_of_float_defined. }
    apply Forall_defined in Hdef as (ss' & Hss' & _).
    rewrite (for_loop_fill (renormalize raw) sample_of_float ss'
               (replicate (n + m - 1) junk_short) (n + m - 1)) in Hconv.
    - injection Hconv as <-. apply Forall2_length in Hss' as Hl'.
      rewrite drop_ge in Hz by (rewrite length_replicate; lia).
      rewrite app_nil_r in Hz.
      exact (Forall2_lookup_lr _ _ _ _ _ _ Hss' Ho Hz).
    - rewrite <- Hlr, firstn_all. done.
    - lia.
    - rewrite length_replicate. lia. }
  (* the run *)
  unfold createOutputFile. rewrite Hread. cbn [mbind option_bind].
  rewrite Hbs, Hbi, Hss, Hsi.
  rewrite !int_div_by_sample_size by (unfold INT_MAX; lia).
  cbn [mbind option_bind].
  replace (2 * Z.of_nat n) with (Z.of_nat n * 2) by lia.
  replace (2 * Z.of_nat m) with (Z.of_nat m * 2) by lia.
  rewrite !malloc_cells by lia.
  unfold getDataSamplesFromInputFiles.
  rewrite (fread_shorts_available (replicate n junk_short) xs n (sample_file f1) Hrs Hxs)
    by (by rewrite length_replicate).
  cbn [mbind option_bind].
  rewrite (fread_shorts_available (replicate m junk_short) hs m (impulse_file f1) Hri Hhs)
    by (by rewrite length_replicate).
  cbn [mbind option_bind].
  rewrite <- Hn, <- Hm, !Nat.min_id.
  rewrite (take_ge xs n), (take_ge hs m) by lia.
  rewrite !drop_ge by (rewrite length_replicate; lia). rewrite !app_nil_r.
  rewrite (reportMaxMinIntegerSamples_ok xs n) by lia.
  rewrite (reportMaxMinIntegerSamples_ok hs m) by lia.
  cbn [mbind option_bind].
  rewrite (wrap32_id (2 * (Z.of_nat n * 2)))
    by (unfold is_int, INT_MIN, INT_MAX; lia).
  rewrite (wrap32_id (2 * (Z.of_nat m * 2)))
    by (unfold is_int, INT_MIN, INT_MAX; lia).
  replace (2 * (Z.of_nat n * 2)) with (Z.of_nat n * 4) by lia.
  replace (2 * (Z.of_nat m * 2)) with (Z.of_nat m * 4) by lia.
  rewrite !malloc_cells by lia.
  unfold createFloatSamplesFromIntegerSamples.
  rewrite (for_loop_fill_total xs float_of_sample (replicate n junk_float) n)
    by (rewrite ?length_replicate; lia).
  cbn [mbind option_bind].
  rewrite (for_loop_fill_total hs float_of_sample (replicate m junk_float) m)
    by (rewrite ?length_replicate; lia).
  cbn [mbind option_bind].
  rewrite (take_ge xs n), (take_ge hs m) by lia.
  rewrite !drop_ge by (rewrite length_replicate; lia). rewrite !app_nil_r.
  rewrite (wrap32_id (Z.of_nat n + Z.of_nat m - 1))
    by (unfold is_int, INT_MIN, INT_MAX; lia).
  replace (Z.of_nat n + Z.of_nat m - 1) with (Z.of_nat (n + m - 1)) by lia.
  rewrite !malloc_cells by lia.
  pose proof (convolve_spec (map float_of_sample xs) (map float_of_sample hs)
                (replicate (n + m - 1) junk_float)) as Hc.
  rewrite !length_map, length_replicate, <- Hn, <- Hm in Hc. fold raw in Hc.
  rewrite Hc by done. cbn [mbind option_bind].
  rewrite Hconv. cbn [mbind option_bind].
  rewrite (reportMaxMinIntegerSamples_ok ss (n + m - 1)) by lia.
  rewrite (printMeanSampleInShortArray_ok ss (n + m - 1)) by lia.
  cbn [mbind option_bind].
  assert (Hfw : forall out, fwrite_shorts ss (Z.of_nat (n + m - 1)) out
                            = Some (out ++ bytes_of_shorts ss)).
  { intros out. rewrite <- Hls. apply fwrite_shorts_spec. }
  unfold writeOutputFile. rewrite Hfw.
  cbn [mbind option_bind].
  eexists ss, _. split; [reflexivity |].
  split; [done |]. split; [done |].
  cbn [output_file header_output].
  assert (Hf1 : output_file f1 = output_file f).
  { rewrite readInputFileHeaders_inputs in Hread.
    apply bind_Some_inv in Hread as (s & _ & Hread).
    apply bind_Some_inv in Hread as (i' & _ & Hread).
    by injection Hread as <-. }
  rewrite Hf1. unfold header_sample. cbn [sample header]. by rewrite <- app_assoc.
Qed.

End Run.

Lemma createOutputFile_writes_the_convolution_witness :
  exists ss f',
    createOutputFile 0 S754_nan 1
      (open_files (wav_bytes [8192; -16384]) (wav_bytes [16384; 8192])) = Some f' /\
    Forall2 (fun o z => sample_of_float o = Some z)
      (renormalize (conv_spec f_0_0 f32_add f32_mul
                      (map float_of_sample [8192; -16384]) (map float_of_sample [16384; 8192])))
      ss /\
    Forall is_short ss /\
    output_file f' = [] ++ header_image (header_output f') ++ bytes_of_shorts ss.
Proof.
  apply (createOutputFile_writes_the_convolution 0 S754_nan 1
           (open_files (wav_bytes [8192; -16384]) (wav_bytes [16384; 8192]))
           (default (open_files [] [])
              (readInputFileHeaders 1
                 (open_files (wav_bytes [8192; -16384]) (wav_bytes [16384; 8192]))))
           [8192; -16384] [16384; 8192]
           1 (float_of_sample (-6144)) (float_of_sample 4096)).
  - reflexivity.
  - reflexivity.
  - reflexivity.
  - reflexivity.
  - reflexivity.
  - reflexivity.
  - reflexivity.
  - repeat constructor; unfold SHRT_MIN, SHRT_MAX; lia.
  - repeat constructor; unfold SHRT_MIN, SHRT_MAX; lia.
  - unfold INT_MAX. simpl. lia.
  - unfold INT_MAX. simpl. lia.
  - simpl. lia.
  - lia.
  - reflexivity.
  - intros v Hv.
    apply elem_of_cons in Hv as [->|Hv]; [reflexivity |].
    apply elem_of_cons in Hv as [->|Hv]; [reflexivity |].
    apply elem_of_cons in Hv as [->|Hv]; [reflexivity |].
    by apply elem_of_nil in Hv.
  - apply elem_of_cons. by left.
  - right. reflexivity.
Defined.
